(** * Mayastor control plane (moac): registry placement, volume reconciler
      and CSI controller facade.

    A shallow embedding of [csi/moac/csi.js] (the CSI controller) and of the
    [Volume] class that follows it in the same source file, together with the
    pool-selection algorithm of the registry, which the sources only show
    through its unit tests.

    Conventions.
    - Byte counts are JavaScript numbers holding integers; they are [Z] here.
    - Enumerations that protobuf delivers as strings from a fixed set are
      inductive types; free-form state strings (replica, nexus and volume
      state) stay [string].
    - A JavaScript object used as an insertion-ordered map (the nodes of the
      registry, the replicas of a volume, topology segments) is an
      association list.
    - Back-references ([pool.node], [replica.pool.node]) are the name of the
      node they point to; object identity of nodes is equality of names. *)

From Stdlib Require Import ZArith List String Ascii Bool Lia.
From Stdlib Require Import Sorting.Sorted Sorting.Permutation.
From Stdlib Require Import DecimalString DecimalZ.
Import ListNotations.

Local Open Scope string_scope.
Local Open Scope list_scope.
Local Open Scope Z_scope.

(* ------------------------------------------------------------------ *)
(** ** Shared vocabulary: grpc status codes, errors, entity records    *)
(* ------------------------------------------------------------------ *)

Module Common.

(** [grpc.status] / [GrpcCode]: the numeric status codes the sources use. *)
Definition GrpcCode := Z.
Definition OK : GrpcCode := 0.
Definition UNKNOWN : GrpcCode := 2.
Definition INVALID_ARGUMENT : GrpcCode := 3.
Definition NOT_FOUND : GrpcCode := 5.
Definition ALREADY_EXISTS : GrpcCode := 6.
Definition RESOURCE_EXHAUSTED : GrpcCode := 8.
Definition UNIMPLEMENTED : GrpcCode := 12.
Definition INTERNAL : GrpcCode := 13.
Definition UNAVAILABLE : GrpcCode := 14.

(** [new GrpcError(code, message)]. *)
Record GrpcError := mkGrpcError { code : GrpcCode; message : string }.

(** What a [try]/[catch] can catch: a [GrpcError], or any other JavaScript
    error, which has a name and a message but no grpc code. *)
Inductive Exn :=
| Grpc (e : GrpcError)
| JsError (name message : string).

(** [err.message] *)
Definition exn_message (e : Exn) : string :=
  match e with Grpc g => message g | JsError _ m => m end.

(** [err.code]: [undefined] for an error that is not a [GrpcError]. *)
Definition exn_code (e : Exn) : option GrpcCode :=
  match e with Grpc g => Some (code g) | JsError _ _ => None end.

(** [Error.prototype.toString] for an error of the given name and message. *)
Definition Error_toString (name message : string) : string :=
  if String.eqb name "" then message
  else if String.eqb message "" then name
  else (name ++ ": " ++ message)%string.

(** The [TypeError] of reading a property of [undefined] or [null]. *)
Definition TypeError (property value : string) : Exn :=
  JsError "TypeError"
          ("Cannot read property '" ++ property ++ "' of " ++ value).

(** Result of a call that returns or throws. *)
Inductive Result (A : Type) :=
| Ok (a : A)
| Err (e : Exn).
Arguments Ok {A} a.
Arguments Err {A} e.

Definition throwGrpc {A} (c : GrpcCode) (msg : string) : Result A :=
  Err (Grpc (mkGrpcError c msg)).

Inductive PoolState := POOL_ONLINE | POOL_DEGRADED | POOL_FAULTED | POOL_OFFLINE.

Inductive Share := REPLICA_NONE | REPLICA_NVMF | REPLICA_ISCSI.

Definition Share_eqb (a b : Share) : bool :=
  match a, b with
  | REPLICA_NONE, REPLICA_NONE
  | REPLICA_NVMF, REPLICA_NVMF
  | REPLICA_ISCSI, REPLICA_ISCSI => true
  | _, _ => false
  end.

(** A replica; [r_node] is [replica.pool.node.name], [r_pool] is
    [replica.pool.name]. *)
Record Replica := mkReplica {
  r_uuid : string;
  r_node : string;
  r_pool : string;
  r_size : Z;
  r_share : Share;
  r_uri : string;
  r_state : string
}.

(** A pool; [pool_node] is the name of the node the pool is bound to. *)
Record Pool := mkPool {
  pool_name : string;
  pool_node : string;
  pool_state : PoolState;
  capacity : Z;
  used : Z;
  pool_replicas : list Replica
}.

(** A child of a nexus: [{uri, state}]. *)
Record Child := mkChild { ch_uri : string; ch_state : string }.

(** A nexus; [n_node] is the name of the node it runs on. *)
Record Nexus := mkNexus {
  n_uuid : string;
  n_node : string;
  n_size : Z;
  n_state : string;
  n_children : list Child
}.

(** [pool.freeBytes()]: the pool unit test expects 96 for capacity 100 and
    used 4. *)
Definition freeBytes (p : Pool) : Z := capacity p - used p.

(** Modelled from the spec: [isPoolAccessible] of [common.js] (and
    [pool.isAccessible()]), which are not among the sources. The data model
    says "accessible = state in {ONLINE, DEGRADED}"; the pool unit test
    agrees on ONLINE, DEGRADED and FAULTED. *)
Definition isPoolAccessible (p : Pool) : bool :=
  match pool_state p with
  | POOL_ONLINE | POOL_DEGRADED => true
  | POOL_FAULTED | POOL_OFFLINE => false
  end.

(** [list.indexOf(x) >= 0] on a list of strings. *)
Definition includes (l : list string) (x : string) : bool :=
  existsb (String.eqb x) l.

(** The names of the properties every plain object inherits from
    [Object.prototype]: [obj[key]] finds them when [obj] has no property
    [key] of its own. *)
Definition objectPrototypeKeys : list string :=
  ["constructor"; "__defineGetter__"; "__defineSetter__"; "hasOwnProperty";
   "__lookupGetter__"; "__lookupSetter__"; "isPrototypeOf";
   "propertyIsEnumerable"; "toString"; "valueOf"; "__proto__";
   "toLocaleString"].

(** [`"${s}"`]: a string between double quotes. *)
Definition quoted (s : string) : string :=
  let q := String (ascii_of_nat 34) EmptyString in (q ++ s ++ q)%string.

(** [list.join(sep)] on a list of strings. *)
Fixpoint join (sep : string) (l : list string) : string :=
  match l with
  | [] => ""
  | [x] => x
  | x :: rest => (x ++ sep ++ join sep rest)%string
  end.

Lemma includes_In (l : list string) (x : string) :
  includes l x = true <-> In x l.
Proof.
  unfold includes. rewrite existsb_exists. split.
  - intros [y [Hin Heq]]. apply String.eqb_eq in Heq. now subst.
  - intros Hin. exists x. split; [assumption | apply String.eqb_refl].
Qed.

End Common.

Import Common.

(* ------------------------------------------------------------------ *)
(** ** Registry: pool selection                                         *)
(* ------------------------------------------------------------------ *)

Module Registry.

(** A storage node as the registry sees it: its name and the pools
    discovered on it, in discovery order. *)
Record Node := mkNode { node_name : string; node_pools : list Pool }.

(** [registry.nodes]: nodes in insertion order. *)
Definition Registry := list Node.

(** Modelled from the spec: [pool.bind(node)] of [pool.js], as the registry
    unit tests use it: the pool's back-reference points to its owner. *)
Definition bind (n : Node) (p : Pool) : Pool :=
  mkPool (pool_name p) (node_name n) (pool_state p) (capacity p) (used p)
         (pool_replicas p).

(** Modelled from the spec: [registry.getPool()], step 1 of the placement
    algorithm: every pool of every node. *)
Definition getPool (reg : Registry) : list Pool :=
  flat_map (fun n => map (bind n) (node_pools n)) reg.

(** Modelled from the spec: step 2 of the placement algorithm, with the
    exclusion of inaccessible pools stated in step 3 and in invariant 6 of
    the data model. *)
Definition suitable (requiredBytes : Z) (mustNodes : list string) (p : Pool)
  : bool :=
  isPoolAccessible p
  && (requiredBytes <=? freeBytes p)
  && (match mustNodes with [] => true | _ => includes mustNodes (pool_node p) end).

(** Lexicographic combination of two comparator results. *)
Definition lex (c1 c2 : comparison) : comparison :=
  match c1 with Eq => c2 | _ => c1 end.

(** A pool for which the flag holds sorts first. *)
Definition flag_first (x y : bool) : comparison :=
  match x, y with
  | true, false => Lt
  | false, true => Gt
  | _, _ => Eq
  end.

Definition isOnline (p : Pool) : bool :=
  match pool_state p with POOL_ONLINE => true | _ => false end.

(** [pool.replicas.length] *)
Definition replicasOn (p : Pool) : nat := List.length (pool_replicas p).

(** Modelled from the spec: the comparator of the sort of step 3; [Lt]
    when [a] is placed before [b].

    The four criteria are those of step 3 of the spec. Their relative rank
    is the spec's for ONLINE, replica count and free space; membership in
    [shouldNodes] ranks first, because the registry unit test 'should prefer
    pool on node preferred by user' expects a DEGRADED pool with 75 free
    bytes on a preferred node before an ONLINE pool with 100 free bytes. *)
Definition comparePools (shouldNodes : list string) (a b : Pool) : comparison :=
  lex (flag_first (includes shouldNodes (pool_node a))
                  (includes shouldNodes (pool_node b)))
 (lex (flag_first (isOnline a) (isOnline b))
 (lex (Nat.compare (replicasOn a) (replicasOn b))
      (Z.compare (freeBytes b) (freeBytes a)))).

(** The key order as the spec words it: ONLINE first, then fewer replicas,
    then more free bytes, and [shouldNodes] membership as the last
    tie-breaker. Only used to compare with [comparePools]. *)
Definition comparePools_spec_order (shouldNodes : list string) (a b : Pool)
  : comparison :=
  lex (flag_first (isOnline a) (isOnline b))
 (lex (Nat.compare (replicasOn a) (replicasOn b))
 (lex (Z.compare (freeBytes b) (freeBytes a))
      (flag_first (includes shouldNodes (pool_node a))
                  (includes shouldNodes (pool_node b))))).

(** The sort key of a pool as a tuple of numbers, larger is better:
    on a preferred node, ONLINE, fewer replicas, more free bytes. *)
Definition poolKey (shouldNodes : list string) (p : Pool) : Z * Z * Z * Z :=
  (Z.b2z (includes shouldNodes (pool_node p)),
   Z.b2z (isOnline p),
   - Z.of_nat (replicasOn p),
   freeBytes p).

(** [k1] is lexicographically at least [k2]. *)
Definition tupleGe (k1 k2 : Z * Z * Z * Z) : Prop :=
  let '(a1, a2, a3, a4) := k1 in
  let '(b1, b2, b3, b4) := k2 in
  a1 > b1 \/ (a1 = b1 /\
  (a2 > b2 \/ (a2 = b2 /\
  (a3 > b3 \/ (a3 = b3 /\ a4 >= b4))))).

(** [a] may stand before [b] in a list sorted by the comparator [cmp]. *)
Definition notAfter {A} (cmp : A -> A -> comparison) (a b : A) : Prop :=
  cmp a b <> Gt.

Definition notAfterb {A} (cmp : A -> A -> comparison) (a b : A) : bool :=
  match cmp a b with Gt => false | _ => true end.

(** Decision procedure for "sorted by [cmp]": every element may stand
    before every later one. *)
Fixpoint sortedb {A} (cmp : A -> A -> comparison) (l : list A) : bool :=
  match l with
  | [] => true
  | x :: rest => forallb (notAfterb cmp x) rest && sortedb cmp rest
  end.

(** A stable sort by a comparator ([Array.prototype.sort]): insertion of
    each element before the first element that does not precede it. *)
Fixpoint insert {A} (cmp : A -> A -> comparison) (x : A) (l : list A)
  : list A :=
  match l with
  | [] => [x]
  | y :: rest =>
      match cmp x y with
      | Gt => y :: insert cmp x rest
      | _ => x :: l
      end
  end.

Definition sort {A} (cmp : A -> A -> comparison) (l : list A) : list A :=
  fold_right (insert cmp) [] l.

(** Modelled from the spec: step 4, "greedily take pools while skipping any
    whose node already contributed". *)
Fixpoint onePerNode (seen : list string) (l : list Pool) : list Pool :=
  match l with
  | [] => []
  | p :: rest =>
      if includes seen (pool_node p)
      then onePerNode seen rest
      else p :: onePerNode (pool_node p :: seen) rest
  end.

(** Modelled from the spec: [Registry.choosePools] of [registry.js], which
    is not among the sources (only its unit tests are). Steps 1, 2 and 4
    are section 4.4 of the spec word for word; the sort of step 3 uses
    [comparePools], whose doc comment says where the unit tests fix the
    rank of the keys. *)
Definition choosePools (reg : Registry) (requiredBytes : Z)
           (mustNodes shouldNodes : list string) : list Pool :=
  onePerNode []
    (sort (comparePools shouldNodes)
          (filter (suitable requiredBytes mustNodes) (getPool reg))).

(** Modelled from the spec: [registry.getCapacity(nodeName?)] of
    [registry.js], not among the sources: it "sums [freeBytes] over
    accessible pools only, scoped by node if given". *)
Definition getCapacity (reg : Registry) (nodeName : option string) : Z :=
  fold_left (fun acc p => acc + freeBytes p)
    (filter (fun p => isPoolAccessible p
                      && match nodeName with
                         | Some n => String.eqb (pool_node p) n
                         | None => true
                         end)
            (getPool reg))
    0.

(** *** Fixtures of the registry unit tests *)

Definition testPool (name : string) (st : PoolState) (u : Z) (nrepl : nat)
  : Pool :=
  mkPool name "" st 100 u
         (repeat (mkReplica "ba5e39e9-0c0e-4973-8a3a-0dccada09cb1" "" name 0
                            REPLICA_NONE "" "ONLINE") nrepl).

(** 'should prefer pool on node preferred by user' *)
Definition regPreferred : Registry :=
  [ mkNode "node1" [testPool "pool1" POOL_ONLINE 0 0];
    mkNode "node2" [testPool "pool2" POOL_DEGRADED 25 0] ].

(** 'should prefer ONLINE pool' *)
Definition regOnline : Registry :=
  [ mkNode "node1" [testPool "pool1" POOL_DEGRADED 10 0];
    mkNode "node2" [testPool "pool2" POOL_ONLINE 25 0];
    mkNode "node3" [testPool "pool3" POOL_OFFLINE 0 0] ].

(** 'should prefer pool with fewer volumes' *)
Definition regFewer : Registry :=
  [ mkNode "node1" [testPool "pool1" POOL_ONLINE 10 2];
    mkNode "node2" [testPool "pool2" POOL_ONLINE 25 1] ].

(** 'should prefer pool with more free space' *)
Definition regFree : Registry :=
  [ mkNode "node1" [testPool "pool1" POOL_DEGRADED 10 0];
    mkNode "node2" [testPool "pool2" POOL_DEGRADED 20 0] ].

(** 'should not return any pool if no suitable pool was found' *)
Definition regNone : Registry :=
  [ mkNode "node1" [testPool "pool1" POOL_FAULTED 10 0];
    mkNode "node2" [testPool "pool2" POOL_ONLINE 26 0];
    mkNode "node3" [testPool "pool3" POOL_ONLINE 10 0] ].

(** 'should not return two pools on the same node' *)
Definition regSameNode : Registry :=
  [ mkNode "node1" [testPool "pool1" POOL_ONLINE 11 0;
                    testPool "pool2" POOL_ONLINE 10 0] ].

(** 'should get capacity of pools on all or specified nodes' *)
Definition regCapacity : Registry :=
  [ mkNode "node1" [testPool "pool1" POOL_ONLINE 10 0];
    mkNode "node2" [testPool "pool2a" POOL_DEGRADED 25 0;
                    testPool "pool2b" POOL_FAULTED 55 0;
                    testPool "pool2c" POOL_OFFLINE 99 0] ].

End Registry.

(* ------------------------------------------------------------------ *)
(** ** Volume: event handlers and the [ensure] reconciler               *)
(* ------------------------------------------------------------------ *)

Module Volume.

(** The [Volume] object. [replicas] is the JavaScript object indexed by node
    name, in insertion order; [limitBytes] is [None] when [undefined]. *)
Record Volume := mkVolume {
  uuid : string;
  replicaCount : Z;
  preferredNodes : list string;
  requiredNodes : list string;
  requiredBytes : Z;
  limitBytes : option Z;
  size : Z;
  nexus : option Nexus;
  replicas : list (string * Replica);
  state : string;
  reason : string
}.

(** The constructor, for a spec whose node lists are already sorted. *)
Definition newVolume (id : string) (count : Z) (preferred required : list string)
           (reqBytes : Z) (limit : option Z) : Volume :=
  mkVolume id (if count =? 0 then 1 else count) preferred required reqBytes
           limit 0 None [] "PENDING" "The volume is being created".

Definition set_size (v : Volume) (sz : Z) : Volume :=
  mkVolume (uuid v) (replicaCount v) (preferredNodes v) (requiredNodes v)
           (requiredBytes v) (limitBytes v) sz (nexus v) (replicas v)
           (state v) (reason v).

Definition set_replicas (v : Volume) (rs : list (string * Replica)) : Volume :=
  mkVolume (uuid v) (replicaCount v) (preferredNodes v) (requiredNodes v)
           (requiredBytes v) (limitBytes v) (size v) (nexus v) rs
           (state v) (reason v).

Definition set_nexus (v : Volume) (n : option Nexus) : Volume :=
  mkVolume (uuid v) (replicaCount v) (preferredNodes v) (requiredNodes v)
           (requiredBytes v) (limitBytes v) (size v) n (replicas v)
           (state v) (reason v).

Definition set_state (v : Volume) (st rs : string) : Volume :=
  mkVolume (uuid v) (replicaCount v) (preferredNodes v) (requiredNodes v)
           (requiredBytes v) (limitBytes v) (size v) (nexus v) (replicas v)
           st rs.

(** *** The replica map *)

(** [obj[key]] among the properties of the object's own. *)
Fixpoint lookup {A} (k : string) (m : list (string * A)) : option A :=
  match m with
  | [] => None
  | (k', a) :: rest => if String.eqb k k' then Some a else lookup k rest
  end.

(** [obj[key] = a]: in place if the key exists, appended otherwise. *)
Fixpoint assign {A} (k : string) (a : A) (m : list (string * A))
  : list (string * A) :=
  match m with
  | [] => [(k, a)]
  | (k', a') :: rest =>
      if String.eqb k k' then (k', a) :: rest else (k', a') :: assign k a rest
  end.

(** [delete obj[key]] *)
Fixpoint remove {A} (k : string) (m : list (string * A)) : list (string * A) :=
  match m with
  | [] => []
  | (k', a') :: rest =>
      if String.eqb k k' then remove k rest else (k', a') :: remove k rest
  end.

(** What [obj[key]] finds on a plain object: the object's own property,
    or else the property of that name it inherits from
    [Object.prototype], or nothing ([undefined]). *)
Inductive Found (A : Type) : Type :=
| Own (a : A)
| Inherited
| Absent.
Arguments Own {A} a.
Arguments Inherited {A}.
Arguments Absent {A}.

(** [obj[key]] with the prototype chain of a plain object. *)
Definition get {A} (k : string) (m : list (string * A)) : Found A :=
  match lookup k m with
  | Some a => Own a
  | None => if includes objectPrototypeKeys k then Inherited else Absent
  end.

(** [Object.values(obj)] and [Object.keys(obj)], in the order in which
    the properties were created. That is the order of JavaScript for keys
    that are not array indices; a node name that is one (such as "7") is
    not moved to the front here. *)
Definition values {A} (m : list (string * A)) : list A := map snd m.
Definition keys {A} (m : list (string * A)) : list string := map fst m.

(** *** Object identity and aliasing

    The volume holds references to replica and nexus objects that the
    registry also holds and mutates. An entity is identified by its place in
    the registry: a replica by node, pool and uuid, a nexus by node and
    uuid. The record kept in the volume is the content of the object when
    it was last seen: a method that mutates its object updates the record
    ([mutate]), and every handler that is given the same object again first
    takes over its current content. *)

Definition sameReplica (a b : Replica) : bool :=
  String.eqb (r_node a) (r_node b) && String.eqb (r_pool a) (r_pool b)
  && String.eqb (r_uuid a) (r_uuid b).

Definition sameNexus (a b : Nexus) : bool :=
  String.eqb (n_node a) (n_node b) && String.eqb (n_uuid a) (n_uuid b).

(** The replica object [r] seen through the volume's map. *)
Definition aliasReplica (r : Replica) (v : Volume) : Volume :=
  match lookup (r_node r) (replicas v) with
  | Some r0 =>
      if sameReplica r0 r
      then set_replicas v (assign (r_node r) r (replicas v))
      else v
  | None => v
  end.

(** The nexus object [n] seen through the volume's [nexus] field. *)
Definition aliasNexus (n : Nexus) (v : Volume) : Volume :=
  match nexus v with
  | Some n0 => if sameNexus n0 n then set_nexus v (Some n) else v
  | None => v
  end.

(** A failed [assert(...)]. *)
Definition AssertionError {A} : Result A :=
  Err (JsError "AssertionError" "The expression evaluated to a falsy value").

(** *** Handlers for the events from the node registry *)

(** [newReplica(replica)] *)
Definition newReplica (v0 : Volume) (replica : Replica) : Result Volume :=
  let v := aliasReplica replica v0 in
  if negb (String.eqb (r_uuid replica) (uuid v)) then AssertionError else
  let nodeName := r_node replica in
  match get nodeName (replicas v) with
  | Own _ | Inherited => Ok v
  | Absent => Ok (set_replicas v (assign nodeName replica (replicas v)))
  end.

(** [modReplica(replica)] *)
Definition modReplica (v0 : Volume) (replica : Replica) : Result Volume :=
  let v := aliasReplica replica v0 in
  if negb (String.eqb (r_uuid replica) (uuid v)) then AssertionError else
  let nodeName := r_node replica in
  match get nodeName (replicas v) with
  | Absent => Ok v
  | Own r0 => if sameReplica r0 replica then Ok v else AssertionError
  | Inherited => AssertionError
  end.

(** [delReplica(replica)] *)
Definition delReplica (v0 : Volume) (replica : Replica) : Result Volume :=
  let v := aliasReplica replica v0 in
  if negb (String.eqb (r_uuid replica) (uuid v)) then AssertionError else
  let nodeName := r_node replica in
  match get nodeName (replicas v) with
  | Absent => Ok v
  | Own r0 =>
      if sameReplica r0 replica
      then Ok (set_replicas v (remove nodeName (replicas v)))
      else AssertionError
  | Inherited => AssertionError
  end.

(** [newNexus(nexus)] *)
Definition newNexus (v0 : Volume) (n : Nexus) : Result Volume :=
  let v := aliasNexus n v0 in
  if negb (String.eqb (n_uuid n) (uuid v)) then AssertionError else
  match nexus v with
  | Some _ => Ok v
  | None => Ok (set_state (set_nexus v (Some n)) (n_state n) "")
  end.

(** [modNexus(nexus)] *)
Definition modNexus (v0 : Volume) (n : Nexus) : Result Volume :=
  let v := aliasNexus n v0 in
  if negb (String.eqb (n_uuid n) (uuid v)) then AssertionError else
  match nexus v with
  | None => Ok v
  | Some n0 =>
      if sameNexus n0 n then Ok (set_state v (n_state n) "") else AssertionError
  end.

(** [delNexus(nexus)] *)
Definition delNexus (v0 : Volume) (n : Nexus) : Result Volume :=
  let v := aliasNexus n v0 in
  if negb (String.eqb (n_uuid n) (uuid v)) then AssertionError else
  match nexus v with
  | None => Ok v
  | Some n0 =>
      if sameNexus n0 n
      then Ok (set_state (set_nexus v None) "PENDING" "The volume is missing nexus")
      else AssertionError
  end.

(** *** The world outside the volume

    [ensure] talks to the registry and, through pool, replica and nexus
    objects, to the storage nodes. None of those classes is among the
    sources, so what they answer is a parameter: [Env] gives the answer of
    the registry's [choosePools], the reply of a storage node to each
    request (which may depend on how many requests were sent before it, the
    first argument of each reply function), and the [toString] of the
    objects that end up in error messages. *)

Record Env := mkEnv {
  (** [registry.choosePools(requiredBytes, mustNodes, shouldNodes)] *)
  registry_choosePools : Z -> list string -> list string -> list Pool;
  (** the replica a node reports after [CreateReplica] on a pool *)
  createReplica_reply : nat -> Pool -> string -> Z -> Result Replica;
  (** the uri a node reports after [ShareReplica] *)
  shareReplica_reply : nat -> Replica -> Share -> Result string;
  (** [DestroyReplica] *)
  destroyReplica_reply : nat -> Replica -> Result unit;
  (** the state and children a node reports after [CreateNexus] *)
  createNexus_reply :
    nat -> string -> string -> Z -> list Replica -> Result (string * list Child);
  (** [AddChildNexus]: the state of the new child *)
  addChildNexus_reply : nat -> Nexus -> Replica -> Result string;
  (** [RemoveChildNexus] *)
  removeChildNexus_reply : nat -> Nexus -> Replica -> Result unit;
  (** [`${replica}`], [`${nexus}`], [`${err}`] *)
  replica_toString : Replica -> string;
  nexus_toString : Nexus -> string;
  error_toString : Exn -> string
}.

(** A request sent to a storage node. *)
Inductive Request :=
| CreateReplica (p : Pool) (id : string) (sz : Z)
| ShareReplica (r : Replica) (s : Share)
| DestroyReplica (r : Replica)
| CreateNexus (node id : string) (sz : Z) (children : list Replica)
| AddChildNexus (n : Nexus) (r : Replica)
| RemoveChildNexus (n : Nexus) (r : Replica).

(** The state a run of the reconciler threads: the volume object and the
    requests sent so far, oldest first. *)
Record St := mkSt { vol : Volume; sent : list Request }.

(** An [async] method of the volume: it reads and mutates the state and
    either returns or throws. Mutations made before a throw persist. *)
Definition M (A : Type) : Type := St -> Result A * St.

Definition ret {A} (a : A) : M A := fun s => (Ok a, s).

Definition throw {A} (e : Exn) : M A := fun s => (Err e, s).

Definition bind {A B} (m : M A) (k : A -> M B) : M B :=
  fun s =>
    match m s with
    | (Ok a, s') => k a s'
    | (Err e, s') => (Err e, s')
    end.

(** [try { m } catch (err) { h err }] *)
Definition try_catch {A} (m : M A) (h : Exn -> M A) : M A :=
  fun s =>
    match m s with
    | (Ok a, s') => (Ok a, s')
    | (Err e, s') => h e s'
    end.

(** [try { m; return Ok } catch (err) { return Err err }] *)
Definition attempt {A} (m : M A) : M (Result A) :=
  fun s => let (r, s') := m s in (Ok r, s').

Definition getVol : M Volume := fun s => (Ok (vol s), s).

Definition putVol (v : Volume) : M unit :=
  fun s => (Ok tt, mkSt v (sent s)).

(** A mutation of an object the volume refers to. *)
Definition mutate (f : Volume -> Volume) : M unit :=
  fun s => (Ok tt, mkSt (f (vol s)) (sent s)).

Definition throwError {A} (c : GrpcCode) (msg : string) : M A :=
  throw (Grpc (mkGrpcError c msg)).

Declare Scope vol_scope.
Delimit Scope vol_scope with vol.
Notation "x <- m ;; k" := (bind m (fun x => k))
  (at level 61, m at next level, right associativity) : vol_scope.
Notation "m ;;; k" := (bind m (fun _ => k))
  (at level 61, right associativity) : vol_scope.
Local Open Scope vol_scope.

(** Send a request to a storage node and wait for the reply. *)
Definition call {A} (rq : Request) (reply : nat -> Result A) : M A :=
  fun s => (reply (List.length (sent s)), mkSt (vol s) (sent s ++ [rq])).

(** An event from the registry reaches the volume's handler. *)
Definition deliver (handler : Volume -> Result Volume) : M unit :=
  fun s =>
    match handler (vol s) with
    | Ok v' => (Ok tt, mkSt v' (sent s))
    | Err e => (Err e, s)
    end.

Definition isNotFound (e : Exn) : bool :=
  match exn_code e with Some c => c =? NOT_FOUND | None => false end.

(** *** Entity methods the reconciler calls *)

(** Modelled from the spec: [pool.createReplica(uuid, size)] of [pool.js],
    not among the sources. It issues [CreateReplica]; on success the new
    replica belongs to this pool and a 'replica new' event reaches the
    volume ("this will add the replica to the cache if successful"). *)
Definition Pool_createReplica (env : Env) (p : Pool) (id : string) (sz : Z)
  : M Replica :=
  reply <- call (CreateReplica p id sz)
                (fun n => createReplica_reply env n p id sz) ;;
  let r := mkReplica id (pool_node p) (pool_name p) (r_size reply)
                     (r_share reply) (r_uri reply) (r_state reply) in
  deliver (fun v => newReplica v r) ;;;
  ret r.

(** Modelled from the spec: [replica.setShare(share)] of [replica.js], not
    among the sources: "thin over the RPC with local cache update on
    success", "the new URI is derived from the reply"; the change is
    announced by a 'replica mod' event. *)
Definition Replica_setShare (env : Env) (r : Replica) (share : Share)
  : M Replica :=
  uri <- call (ShareReplica r share)
              (fun n => shareReplica_reply env n r share) ;;
  let r' := mkReplica (r_uuid r) (r_node r) (r_pool r) (r_size r) share uri
                      (r_state r) in
  mutate (aliasReplica r') ;;;
  deliver (fun v => modReplica v r') ;;;
  ret r'.

(** Modelled from the spec: [replica.destroy()] of [replica.js], not among
    the sources: [DestroyReplica], where NOT_FOUND is swallowed; the replica
    then leaves its pool and a 'replica del' event reaches the volume. *)
Definition Replica_destroy (env : Env) (r : Replica) : M unit :=
  try_catch
    (call (DestroyReplica r) (fun n => destroyReplica_reply env n r))
    (fun e => if isNotFound e then ret tt else throw e) ;;;
  deliver (fun v => delReplica v r).

(** Modelled from the spec: [node.createNexus(uuid, size, replicas)] of
    [node.js], not among the sources: the nexus is created on that node
    with the given replicas as children, and a 'nexus new' event reaches
    the volume. *)
Definition Node_createNexus (env : Env) (node id : string) (sz : Z)
           (children : list Replica) : M Nexus :=
  reply <- call (CreateNexus node id sz children)
                (fun n => createNexus_reply env n node id sz children) ;;
  let nx := mkNexus id node sz (fst reply) (snd reply) in
  deliver (fun v => newNexus v nx) ;;;
  ret nx.

(** Modelled from the spec: [nexus.addReplica(replica)] of [nexus.js], not
    among the sources: [AddChildNexus] with the replica's uri, the child is
    appended to the cached children, and a 'nexus mod' event follows. *)
Definition Nexus_addReplica (env : Env) (nx : Nexus) (r : Replica) : M Nexus :=
  st <- call (AddChildNexus nx r) (fun n => addChildNexus_reply env n nx r) ;;
  let nx' := mkNexus (n_uuid nx) (n_node nx) (n_size nx) (n_state nx)
                     (n_children nx ++ [mkChild (r_uri r) st]) in
  mutate (aliasNexus nx') ;;;
  deliver (fun v => modNexus v nx') ;;;
  ret nx'.

(** Modelled from the spec: [nexus.removeReplica(replica)] of [nexus.js],
    not among the sources: [RemoveChildNexus] with the replica's uri, the
    child leaves the cached children, and a 'nexus mod' event follows. *)
Definition Nexus_removeReplica (env : Env) (nx : Nexus) (r : Replica)
  : M Nexus :=
  call (RemoveChildNexus nx r) (fun n => removeChildNexus_reply env n nx r) ;;;
  let nx' := mkNexus (n_uuid nx) (n_node nx) (n_size nx) (n_state nx)
               (filter (fun ch => negb (String.eqb (ch_uri ch) (r_uri r)))
                       (n_children nx)) in
  mutate (aliasNexus nx') ;;;
  deliver (fun v => modNexus v nx') ;;;
  ret nx'.

(** *** The reconciler *)

Definition MAX_SAFE_INTEGER : Z := 9007199254740991.

(** [`${share}`] *)
Definition Share_toString (s : Share) : string :=
  match s with
  | REPLICA_NONE => "REPLICA_NONE"
  | REPLICA_NVMF => "REPLICA_NVMF"
  | REPLICA_ISCSI => "REPLICA_ISCSI"
  end.

(** [this.limitBytes || this.requiredBytes] *)
Definition limitOrRequired (v : Volume) : Z :=
  match limitBytes v with
  | Some l => if l =? 0 then requiredBytes v else l
  | None => requiredBytes v
  end.

(** The pools [_createReplicas] may use: the registry's choice without the
    pools on nodes that already hold a replica of the volume. *)
Definition candidatePools (env : Env) (v : Volume) : list Pool :=
  filter (fun p => negb (includes (keys (replicas v)) (pool_node p)))
         (registry_choosePools env (requiredBytes v) (requiredNodes v)
                               (preferredNodes v)).

(** The size [_createReplicas] gives to a volume that has none yet. *)
Definition computeSize (v : Volume) (pools : list Pool) : Z :=
  Z.min (fold_left (fun acc pool => Z.min acc (freeBytes pool)) pools
                   MAX_SAFE_INTEGER)
        (limitOrRequired v).

(** The size [_createReplicas] creates the replicas with: the size of the
    volume, computed first if the volume has none. *)
Definition replicaSize (env : Env) (v : Volume) : Z :=
  if size v =? 0 then computeSize v (candidatePools env v) else size v.

(** The loop of [_createReplicas]:
    [for (i = 0; i < pools.length && count > 0; i++)]. It returns what is
    left of [count] and the error messages recorded. *)
Fixpoint createLoop (env : Env) (pools : list Pool) (count : Z)
         (errors : list string) : M (Z * list string) :=
  match pools with
  | [] => ret (count, errors)
  | pool :: rest =>
      if 0 <? count then
        v <- getVol ;;
        r <- attempt (Pool_createReplica env pool (uuid v) (size v)) ;;
        match r with
        | Err err => createLoop env rest count (errors ++ [exn_message err])
        | Ok _ => createLoop env rest (count - 1) errors
        end
      else ret (count, errors)
  end.

(** [_createReplicas(count)] *)
Definition _createReplicas (env : Env) (count : Z) : M unit :=
  v <- getVol ;;
  let pools := candidatePools env v in
  if Z.of_nat (List.length pools) <? count then
    throwError RESOURCE_EXHAUSTED
               "Cannot find suitable storage pool(s) for the volume"
  else
    (if size v =? 0 then putVol (set_size v (computeSize v pools))
     else ret tt) ;;;
    res <- createLoop env pools count [] ;;
    let (remaining, errors) := res : Z * list string in
    if 0 <? remaining then
      throwError INTERNAL
        ("Failed to create required number of replicas for volume "
         ++ quoted (uuid v) ++ ": " ++ join ". " errors)%string
    else ret tt.

(** [_scoreReplica(replica)] *)
Definition _scoreReplica (v : Volume) (replica : Replica) : Z :=
  let node := r_node replica in
  (if (0 <? Z.of_nat (List.length (requiredNodes v)))
      && includes (requiredNodes v) node then 10 else 0)
  + (if String.eqb (r_state replica) "ONLINE" then 5 else 0)
  + (if (0 <? Z.of_nat (List.length (preferredNodes v)))
        && includes (preferredNodes v) node then 2 else 0)
  + (match nexus v with
     | Some nx => if String.eqb node (n_node nx) then 1 else 0
     | None => 0
     end).

(** [_prioritizeReplicas()]: the comparator is
    [(a, b) => score(b) - score(a)]. *)
Definition _prioritizeReplicas (v : Volume) : list Replica :=
  Registry.sort (fun a b => Z.compare (_scoreReplica v b) (_scoreReplica v a))
                (values (replicas v)).

(** What is left of an array after [array.splice(start)]. *)
Definition spliceFrom {A} (start : Z) (l : list A) : list A :=
  let len := Z.of_nat (List.length l) in
  let from := if start <? 0 then Z.max (len + start) 0 else Z.min start len in
  firstn (Z.to_nat from) l.

(** The share protocol [_ensureReplicaShareProtocols] wants to set on a
    replica, if any. *)
Definition wantedShare (nexusNode : string) (replica : Replica) : option Share :=
  let local := String.eqb (r_node replica) nexusNode in
  if local && negb (Share_eqb (r_share replica) REPLICA_NONE)
  then Some REPLICA_NONE
  else if negb local && Share_eqb (r_share replica) REPLICA_NONE
       then Some REPLICA_NVMF
       else None.

(** The loop of [_ensureReplicaShareProtocols]; it returns the replicas
    with their share as it is after the loop. *)
Fixpoint shareLoop (env : Env) (nexusNode : string) (replicaSet : list Replica)
  : M (list Replica) :=
  match replicaSet with
  | [] => ret []
  | replica :: rest =>
      replica' <-
        match wantedShare nexusNode replica with
        | Some share =>
            try_catch (Replica_setShare env replica share)
              (fun err =>
                 throwError INTERNAL
                   ("Failed to set share pcol to " ++ Share_toString share
                    ++ " for replica "
                    ++ quoted (replica_toString env replica)
                    ++ ": " ++ error_toString env err)%string)
        | None => ret replica
        end ;;
      rest' <- shareLoop env nexusNode rest ;;
      ret (replica' :: rest')
  end.

(** [_ensureReplicaShareProtocols()] *)
Definition _ensureReplicaShareProtocols (env : Env) : M (list Replica) :=
  v <- getVol ;;
  match _prioritizeReplicas v with
  | [] =>
      throwError INTERNAL
        ("There are no replicas for volume " ++ quoted (uuid v))%string
  | (_ :: _) as sorted =>
      let replicaSet := spliceFrom (replicaCount v) sorted in
      match nexus v, replicaSet with
      | Some nx, _ => shareLoop env (n_node nx) replicaSet
      | None, first :: _ => shareLoop env (r_node first) replicaSet
      | None, [] => throw (TypeError "pool" "undefined")
      end
  end.

(** [Object.values(this.replicas).find((r) => r.uri == uri)] *)
Definition findByUri (v : Volume) (uri : string) : option Replica :=
  find (fun r => String.eqb (r_uri r) uri) (values (replicas v)).

(** [list.splice(list.indexOf(x), 1)] for an [x] that occurs in [list]. *)
Fixpoint removeFirst (x : string) (l : list string) : list string :=
  match l with
  | [] => []
  | y :: rest => if String.eqb y x then rest else y :: removeFirst x rest
  end.

(** First loop of [_ensureNexus]: remove the children that should not be in
    the nexus. It returns what is left of [newUris] and the nexus. *)
Fixpoint removeLoop (env : Env) (oldUris newUris : list string) (nx : Nexus)
  : M (list string * Nexus) :=
  match oldUris with
  | [] => ret (newUris, nx)
  | uri :: rest =>
      if includes newUris uri then
        removeLoop env rest (removeFirst uri newUris) nx
      else
        v <- getVol ;;
        match findByUri v uri with
        | Some replica =>
            nx' <- try_catch (Nexus_removeReplica env nx replica)
                             (fun _ => ret nx) ;;
            removeLoop env rest newUris nx'
        | None => removeLoop env rest newUris nx
        end
  end.

(** Second loop of [_ensureNexus]: add the children that are not there. *)
Fixpoint addLoop (env : Env) (newUris : list string) (nx : Nexus) : M Nexus :=
  match newUris with
  | [] => ret nx
  | uri :: rest =>
      v <- getVol ;;
      match findByUri v uri with
      | Some replica =>
          nx' <- try_catch (Nexus_addReplica env nx replica)
                   (fun err =>
                      throwError INTERNAL
                        ("Failed to add child " ++ quoted uri
                         ++ " to nexus " ++ quoted (nexus_toString env nx)
                         ++ ": "
                         ++ error_toString env err)%string) ;;
          addLoop env rest nx'
      | None => addLoop env rest nx
      end
  end.

(** [_ensureNexus(replicas)] *)
Definition _ensureNexus (env : Env) (replicaSet : list Replica) : M unit :=
  v <- getVol ;;
  match nexus v with
  | None =>
      match find (fun r => Share_eqb (r_share r) REPLICA_NONE)
                 (values (replicas v)) with
      | None =>
          throwError INTERNAL
                     "Cannot create nexus if none of the replicas is local"
      | Some localReplica =>
          nx <- Node_createNexus env (r_node localReplica) (uuid v) (size v)
                                 replicaSet ;;
          v' <- getVol ;;
          putVol (set_nexus v' (Some nx))
      end
  | Some nx =>
      let oldUris := Registry.sort String.compare (map ch_uri (n_children nx)) in
      let newUris := Registry.sort String.compare (map r_uri replicaSet) in
      res <- removeLoop env oldUris newUris nx ;;
      let (newUris', nx') := res : list string * Nexus in
      addLoop env newUris' nx' ;;;
      ret tt
  end.

(** The destroy calls of the last step of [ensure]. They are started
    together and awaited with [Promise.all] inside a [try] whose [catch]
    only logs: each one runs to its end, whether another one fails or not. *)
Fixpoint destroyAll (env : Env) (rs : list Replica) : M unit :=
  match rs with
  | [] => ret tt
  | r :: rest =>
      try_catch (Replica_destroy env r) (fun _ => ret tt) ;;;
      destroyAll env rest
  end.

(** [ensure()] *)
Definition ensure (env : Env) : M unit :=
  v <- getVol ;;
  let newReplicaCount := replicaCount v - Z.of_nat (List.length (replicas v)) in
  (if 0 <? newReplicaCount then _createReplicas env newReplicaCount
   else ret tt) ;;;
  replicaSet <- _ensureReplicaShareProtocols env ;;
  _ensureNexus env replicaSet ;;;
  v' <- getVol ;;
  match nexus v' with
  | None => throw (TypeError "children" "null")
  | Some nx =>
      let childrenUris := map ch_uri (n_children nx) in
      destroyAll env
        (filter (fun r => negb (includes childrenUris (r_uri r)))
                (values (replicas v')))
  end.

(** *** Vocabulary for what a run did *)

(** The replies of the storage nodes to [CreateReplica] requests sent to the
    pools of a list one after the other, the first of them after [n] other
    requests. *)
Fixpoint createReplies (env : Env) (n : nat) (pools : list Pool) (id : string)
         (sz : Z) : list (Result Replica) :=
  match pools with
  | [] => []
  | p :: rest =>
      createReplica_reply env n p id sz :: createReplies env (S n) rest id sz
  end.

(** The messages of the failures among some replies, in order. *)
Definition errorMessages {A} (replies : list (Result A)) : list string :=
  flat_map (fun r => match r with Err e => [exn_message e] | Ok _ => [] end)
           replies.

(** The number of successes among some replies. *)
Definition successes {A} (replies : list (Result A)) : nat :=
  List.length (filter (fun r => match r with Ok _ => true | Err _ => false end)
                      replies).

(** The replica map is well formed: every replica is filed under the name
    of its node, and no node name occurs twice. The constructor and the
    replica event handlers keep it so. *)
Definition wellFormed (v : Volume) : Prop :=
  Forall (fun kr => r_node (snd kr) = fst kr) (replicas v)
  /\ NoDup (keys (replicas v)).

(** Share protocol of a replica as a nexus on [nexusNode] needs it: none
    for a replica on that node, some protocol for a replica elsewhere. *)
Definition shareFits (nexusNode : string) (r : Replica) : Prop :=
  (r_node r = nexusNode -> r_share r = REPLICA_NONE)
  /\ (r_node r <> nexusNode ->
      r_share r = REPLICA_NVMF \/ r_share r = REPLICA_ISCSI).

(** [v'] is [v] with other replicas, at most [n] more of them. *)
Definition grown (v v' : Volume) (n : nat) : Prop :=
  v' = set_replicas v (replicas v')
  /\ (wellFormed v -> wellFormed v')
  /\ (List.length (replicas v') <= List.length (replicas v) + n)%nat.

(** Whatever [m] returns or throws, it leaves the volume in [I] if it found
    it there. *)
Definition preserves {A} (I : Volume -> Prop) (m : M A) : Prop :=
  forall s, I (vol s) -> I (vol (snd (m s))).

(** The volume has the replicas [R] and a nexus on the node [N]. *)
Definition nexusOnNode (R : list (string * Replica)) (N : string) (v : Volume)
  : Prop :=
  replicas v = R /\ exists n, nexus v = Some n /\ n_node n = N.

(** The volume has the nexus [NX] and only replicas of the list [G]. *)
Definition trimmed (G : list Replica) (NX : option Nexus) (v : Volume) : Prop :=
  nexus v = NX /\ forall a, In a (values (replicas v)) -> In a G.

(** Run an [async] method on a volume, starting with no request sent. *)
Definition run {A} (m : M A) (v : Volume) : Result A * Volume :=
  let (r, s) := m (mkSt v []) in (r, vol s).

(** The requests a run has sent. *)
Definition requests {A} (m : M A) (v : Volume) : list Request :=
  sent (snd (m (mkSt v []))).

End Volume.

(* ------------------------------------------------------------------ *)
(** ** CSI controller ([CsiServer])                                     *)
(* ------------------------------------------------------------------ *)

Module Csi.

(** *** The regular expression [PVC_RE]

    [/pvc-([0-9a-f]{8}-[0-9a-f]{4}-[0-9a-f]{4}-[0-9a-f]{4}-[0-9a-f]{12})/]
    is a sequence of single-character classes, the first four outside the
    capture group and the remaining thirty-six inside it. *)

Definition CharClass := ascii -> bool.

Definition chr (c : ascii) : CharClass := Ascii.eqb c.

(** [[0-9a-f]] *)
Definition hexDigit : CharClass :=
  fun c =>
    let n := nat_of_ascii c in
    ((48 <=? n) && (n <=? 57) || (97 <=? n) && (n <=? 102))%nat.

(** A regular expression of the shape [before(group)]. *)
Record Regex := mkRegex { before : list CharClass; group : list CharClass }.

Definition PVC_RE : Regex :=
  mkRegex
    [chr "p"; chr "v"; chr "c"; chr "-"]
    (repeat hexDigit 8 ++ [chr "-"] ++ repeat hexDigit 4 ++ [chr "-"]
     ++ repeat hexDigit 4 ++ [chr "-"] ++ repeat hexDigit 4 ++ [chr "-"]
     ++ repeat hexDigit 12).

(** Match a sequence of classes at the start of a string: the matched text
    and the rest of the string. *)
Fixpoint matchClasses (cs : list CharClass) (s : string)
  : option (string * string) :=
  match cs with
  | [] => Some (EmptyString, s)
  | c :: cs' =>
      match s with
      | EmptyString => None
      | String a s' =>
          if c a then
            match matchClasses cs' s' with
            | Some (m, rest) => Some (String a m, rest)
            | None => None
            end
          else None
      end
  end.

(** The regular expression matched at the start of a string: the captured
    group. *)
Definition matchHere (re : Regex) (s : string) : option string :=
  match matchClasses (before re) s with
  | Some (_, rest) =>
      match matchClasses (group re) rest with
      | Some (g, _) => Some g
      | None => None
      end
  | None => None
  end.

(** [str.match(re)] for a regular expression without the [g] flag: the
    leftmost match anywhere in the string; the result is [m[1]]. *)
Fixpoint str_match (re : Regex) (s : string) : option string :=
  match matchHere re s with
  | Some g => Some g
  | None =>
      match s with
      | EmptyString => None
      | String _ s' => str_match re s'
      end
  end.

(** *** Requests and replies *)

Record CapacityRange := mkCapacityRange {
  cr_requiredBytes : Z;
  cr_limitBytes : Z
}.

(** A volume capability; only [cap.accessMode.mode] is looked at.
    [accessMode] is the mode, or [None] for a capability whose access mode
    is not set: the proto loader leaves [cap.accessMode] [null] then. *)
Record VolumeCapability := mkCapability { accessMode : option string }.

(** A topology: [segments] in key order. *)
Record Topology := mkTopology { segments : list (string * string) }.

Record TopologyRequirement := mkTopologyRequirement {
  requisite : list Topology;
  preferred : list Topology
}.

(** [CreateVolumeRequest]. Fields that may be unset are options: the
    proto loader gives [null] for a message field that is not set.
    [volumeContentSource] carries the id of the source when set. *)
Record CreateVolumeRequest := mkCreateVolumeRequest {
  name : string;
  capacityRange : option CapacityRange;
  volumeCapabilities : option (list VolumeCapability);
  parameters_repl : option string;
  volumeContentSource : option string;
  accessibilityRequirements : option TopologyRequirement
}.

(** The [volume] of a [CreateVolumeResponse]. *)
Record K8sVolume := mkK8sVolume {
  capacityBytes : Z;
  volumeId : string;
  accessibleTopology : list Topology
}.

(** The second argument of [commander.ensureVolume]. *)
Record VolumeSpec := mkVolumeSpec {
  vs_requiredBytes : Z;
  vs_limitBytes : Z;
  vs_mustNodes : list string;
  vs_shouldNodes : list string;
  vs_count : Z
}.

Record ControllerPublishVolumeRequest := mkPublishRequest {
  pub_volumeId : string;
  pub_nodeId : string;
  pub_volumeCapability : option VolumeCapability;
  pub_readonly : bool
}.

Record GetCapacityRequest := mkGetCapacityRequest {
  cap_volumeCapabilities : option (list VolumeCapability);
  cap_accessibleTopology : option Topology
}.

(** What the server was made ready with ([makeReady]) and the one builtin
    whose result the handlers depend on. The operators are not among the
    sources; what they return is a parameter.
    - [parseInt]: [None] stands for [NaN];
    - [ensureVolume]: [commander.ensureVolume(uuid, spec)];
    - [getNexus], [publishNexus]: the volume operator;
    - [pools_get]: [this.pools.get()] once [syncNode] has returned. *)
Record Server := mkServer {
  parseInt : string -> option Z;
  ensureVolume : string -> VolumeSpec -> Result Nexus;
  getNexus : string -> option Nexus;
  publishNexus : string -> Result unit;
  pools_get : list Pool
}.

(** A call the handler makes on an operator. *)
Inductive OperatorCall :=
| EnsureVolume (id : string) (spec : VolumeSpec)
| PublishNexus (id : string).

(** What a handler does: the calls it made on the operators, and what it
    passed to its callback, [cb(err)] or [cb(null, resp)]. *)
Definition Handled (R : Type) : Type := Result R * list OperatorCall.

(** [return cb(err)] / [cb(null, resp)] with no operator called. *)
Definition cbErr {R} (c : GrpcCode) (msg : string) : Handled R :=
  (throwGrpc c msg, []).

(** How an [async] handler ends: it has called back, with an error or
    with a reply, or it has thrown before it called back, and the request
    is never answered. *)
Inductive Outcome (R : Type) : Type :=
| Replied (r : Result R)
| Threw (e : Exn).
Arguments Replied {R} r.
Arguments Threw {R} e.

(** [return cb(new GrpcError(c, msg))] with no operator called. *)
Definition refuse {R} (c : GrpcCode) (msg : string)
  : Outcome R * list OperatorCall :=
  (Replied (throwGrpc c msg), []).

Definition hostnameKey : string := "kubernetes.io/hostname".

(** The loop of [checkCapabilities]: the error thrown at the first
    capability that stops it, if any. Reading [cap.accessMode.mode] of a
    capability without access mode throws a [TypeError]. *)
Fixpoint checkEach (caps : list VolumeCapability) : option Exn :=
  match caps with
  | [] => None
  | cap :: rest =>
      match accessMode cap with
      | None => Some (TypeError "mode" "null")
      | Some mode =>
          if negb (String.eqb mode "SINGLE_NODE_WRITER") then
            Some (Grpc (mkGrpcError INVALID_ARGUMENT
                          ("Access mode " ++ mode ++ " not supported")))
          else checkEach rest
      end
  end.

(** [checkCapabilities(caps)]: the error it throws, if any. *)
Definition checkCapabilities (caps : option (list VolumeCapability))
  : option Exn :=
  match caps with
  | None =>
      Some (Grpc (mkGrpcError INVALID_ARGUMENT "Missing volume capabilities"))
  | Some l => checkEach l
  end.

(** The loop over [accessibilityRequirements.requisite]: the node names
    collected, or [None] at the first key that is not the hostname. *)
Fixpoint requisiteNodes (segs : list (string * string)) : option (list string) :=
  match segs with
  | [] => Some []
  | (key, value) :: rest =>
      if String.eqb key hostnameKey then
        match requisiteNodes rest with
        | Some l => Some (value :: l)
        | None => None
        end
      else None
  end.

(** The loop over [accessibilityRequirements.preferred]. *)
Definition preferredNodes (segs : list (string * string)) : list string :=
  map snd (filter (fun kv => String.eqb (fst kv) hostnameKey) segs).

(** The replica count from [args.parameters.repl]; [None] when the handler
    rejects it. *)
Definition replicaCountOf (srv : Server) (repl : option string) : option Z :=
  match repl with
  | None | Some EmptyString => Some 1
  | Some s =>
      match parseInt srv s with
      | None => None
      | Some count => if count <=? 0 then None else Some count
      end
  end.

(** [createVolume(call, cb)]. The handler starts by logging
    [args.capacityRange.requiredBytes]: without a capacity range in the
    request that throws, before any test and any callback. *)
Definition createVolume (srv : Server) (args : CreateVolumeRequest)
  : Outcome K8sVolume * list OperatorCall :=
  match capacityRange args with
  | None => (Threw (TypeError "requiredBytes" "null"), [])
  | Some range =>
  match volumeContentSource args with
  | Some _ =>
      refuse INVALID_ARGUMENT "Source for create volume is not supported"
  | None =>
  match str_match PVC_RE (name args) with
  | None =>
      refuse INVALID_ARGUMENT
             ("Expected the volume name in pvc-{uuid} format: " ++ name args)
  | Some uuid =>
  match checkCapabilities (volumeCapabilities args) with
  | Some err => (Replied (Err err), [])
  | None =>
  let must :=
    match accessibilityRequirements args with
    | Some reqs => requisiteNodes (flat_map segments (requisite reqs))
    | None => Some []
    end in
  let should :=
    match accessibilityRequirements args with
    | Some reqs => preferredNodes (flat_map segments (preferred reqs))
    | None => []
    end in
  match must with
  | None =>
      refuse INVALID_ARGUMENT
             "Volume topology other than hostname not supported"
  | Some mustNodes =>
  match replicaCountOf srv (parameters_repl args) with
  | None => refuse INVALID_ARGUMENT "Invalid replica count"
  | Some count =>
      let spec := mkVolumeSpec (cr_requiredBytes range) (cr_limitBytes range)
                               mustNodes should count in
      let calls := [EnsureVolume uuid spec] in
      match ensureVolume srv uuid spec with
      | Err (Grpc e) => (Replied (Err (Grpc e)), calls)
      | Err (JsError nm msg) =>
          (Replied
             (throwGrpc UNKNOWN
                ("Unexpected error when creating volume "
                 ++ quoted (name args) ++ ": " ++ Error_toString nm msg)),
           calls)
      | Ok nexus =>
          (Replied (Ok (mkK8sVolume (n_size nexus) uuid
                          [mkTopology [(hostnameKey, n_node nexus)]])), calls)
      end
  end end end end end end.

(** Modelled from the spec: [parseMayastorNodeId] of [common.js], not among
    the sources. "[mayastor://<node-name>]; parsed with strict schema
    check", "rejected otherwise"; input validation fails with
    INVALID_ARGUMENT. The result is the node name. *)
Definition parseMayastorNodeId (nodeId : string) : Result string :=
  let scheme := "mayastor://" in
  let node := substring (String.length scheme)
                        (String.length nodeId - String.length scheme) nodeId in
  if prefix scheme nodeId && negb (String.eqb node "")
  then Ok node
  else throwGrpc INVALID_ARGUMENT ("Invalid mayastor node ID: " ++ nodeId).

(** [controllerPublishVolume(call, cb)] *)
Definition controllerPublishVolume (srv : Server)
           (args : ControllerPublishVolumeRequest) : Handled unit :=
  match getNexus srv (pub_volumeId args) with
  | None =>
      cbErr NOT_FOUND
            ("Volume " ++ quoted (pub_volumeId args) ++ " does not exist")
  | Some nexus =>
  match parseMayastorNodeId (pub_nodeId args) with
  | Err err => (Err err, [])
  | Ok node =>
  if negb (String.eqb node (n_node nexus)) then
    cbErr INVALID_ARGUMENT
          ("Cannot publish the volume " ++ quoted (pub_volumeId args)
           ++ " on a different node " ++ quoted node
           ++ " than it was created " ++ quoted (n_node nexus))
  else if pub_readonly args then
    cbErr INVALID_ARGUMENT "readonly volumes are unsupported"
  else
  match pub_volumeCapability args with
  | None => cbErr INVALID_ARGUMENT "missing volume capability"
  | Some cap =>
  match checkCapabilities (Some [cap]) with
  | Some err => (Err err, [])
  | None =>
      let calls := [PublishNexus (n_uuid nexus)] in
      match publishNexus srv (n_uuid nexus) with
      | Err err =>
          match exn_code err with
          | Some c => if c =? ALREADY_EXISTS then (Ok tt, calls)
                      else (Err err, calls)
          | None => (Err err, calls)
          end
      | Ok _ => (Ok tt, calls)
      end
  end end end end.

(** [getCapacity(call, cb)]: the [availableCapacity] of the reply. *)
Definition getCapacity (srv : Server) (args : GetCapacityRequest)
  : Result Z :=
  match match cap_volumeCapabilities args with
        | Some caps => checkCapabilities (Some caps)
        | None => None
        end with
  | Some err => Err err
  | None =>
  match match cap_accessibleTopology args with
        | Some topo =>
            find (fun kv => String.eqb (fst kv) hostnameKey) (segments topo)
        | None => None
        end with
  | Some (_, nodeName) =>
      Ok (fold_left
            (fun acc p => if isPoolAccessible p
                          then acc + (capacity p - used p) else 0)
            (filter (fun p => String.eqb (pool_node p) nodeName)
                    (pools_get srv))
            0)
  | None =>
      Ok (fold_left (fun acc p => acc + (capacity p - used p))
                    (filter isPoolAccessible (pools_get srv))
                    0)
  end end.

(** The capacity as the spec words it: the sum of [capacity - used] over
    the accessible pools, of one node or of all. Only used to compare with
    [getCapacity]. *)
Definition accessibleCapacity (pools : list Pool) (nodeName : option string)
  : Z :=
  fold_left (fun acc p => acc + (capacity p - used p))
    (filter (fun p => isPoolAccessible p
                      && match nodeName with
                         | Some n => String.eqb (pool_node p) n
                         | None => true
                         end)
            pools)
    0.

End Csi.

(* ------------------------------------------------------------------ *)
(** ** Fixtures                                                         *)
(* ------------------------------------------------------------------ *)

Module Fixtures.

Import Volume Csi.

Definition UUID : string := "753b391c-9b04-4ce3-9c74-9d949152e547".

(** A volume as its constructor leaves it. *)
Definition freshVolume : Volume := newVolume UUID 2 [] [] 64 None.

Definition nexusOn (node st : string) : Nexus := mkNexus UUID node 64 st [].

(** A volume whose nexus runs on node1. *)
Definition attachedVolume : Volume :=
  set_state (set_nexus freshVolume (Some (nexusOn "node1" "ONLINE")))
            "ONLINE" "".

(** Value of a string of decimal digits, most significant first. *)
Fixpoint decimal (acc : Z) (s : string) : option Z :=
  match s with
  | EmptyString => Some acc
  | String c s' =>
      let n := nat_of_ascii c in
      if ((48 <=? n) && (n <=? 57))%nat
      then decimal (10 * acc + Z.of_nat (n - 48)) s'
      else None
  end.

(** A server on which every volume has a nexus on node1: the volume
    operator creates what it is asked for and [publish] answers. *)
Definition serverWith (publish : Result unit) (pools : list Pool) : Server :=
  mkServer
    (fun s => match s with EmptyString => None | _ => decimal 0 s end)
    (fun id spec => Ok (mkNexus id "node1" (vs_requiredBytes spec) "ONLINE" []))
    (fun id => Some (mkNexus id "node1" 64 "ONLINE" []))
    (fun _ => publish)
    pools.

Definition writer : VolumeCapability :=
  mkCapability (Some "SINGLE_NODE_WRITER").

(** Scenario 5 of the spec: a well-formed [CreateVolume] request. *)
Definition createRequest : CreateVolumeRequest :=
  mkCreateVolumeRequest ("pvc-" ++ UUID) (Some (mkCapacityRange 64 0))
    (Some [writer]) (Some "2") None None.

(** A request that names a content source and is wrong in every other
    respect: bad name, no capabilities, a topology key that is not the
    hostname, a replica count that is not a number. *)
Definition requestWithSource : CreateVolumeRequest :=
  mkCreateVolumeRequest "my-volume" (Some (mkCapacityRange 64 0)) None
    (Some "x")
    (Some "snapshot-1")
    (Some (mkTopologyRequirement [mkTopology [("zone", "a")]] [])).

(** The request with another capacity range, or with none. *)
Definition withCapacityRange (range : option CapacityRange)
           (args : CreateVolumeRequest) : CreateVolumeRequest :=
  mkCreateVolumeRequest (name args) range (volumeCapabilities args)
    (parameters_repl args) (volumeContentSource args)
    (accessibilityRequirements args).

(** A request without capacity range whose name is no pvc name. *)
Definition unsizedRequest : CreateVolumeRequest :=
  mkCreateVolumeRequest "my-volume" None (Some [writer]) None None None.

(** A request without capacity range that names a content source. *)
Definition unsizedRequestWithSource : CreateVolumeRequest :=
  mkCreateVolumeRequest ("pvc-" ++ UUID) None (Some [writer]) None
    (Some "snapshot-1") None.

Definition publishRequest (nodeId : string) (readonly : bool)
  : ControllerPublishVolumeRequest :=
  mkPublishRequest UUID nodeId (Some writer) readonly.

(** Pools of the capacity scenario as the pool operator lists them. *)
Definition capacityPool (name node : string) (st : PoolState) (u : Z) : Pool :=
  mkPool name node st 100 u [].

Definition capacityPools : list Pool :=
  [ capacityPool "pool1" "node1" POOL_ONLINE 10;
    capacityPool "pool2a" "node2" POOL_DEGRADED 25;
    capacityPool "pool2b" "node2" POOL_FAULTED 55;
    capacityPool "pool2c" "node2" POOL_OFFLINE 99 ].

Definition capacityOf (node : option string) : GetCapacityRequest :=
  mkGetCapacityRequest None
    (match node with
     | Some n => Some (mkTopology [(hostnameKey, n)])
     | None => None
     end).

(** Two nodes with one ONLINE pool each: 90 and 75 free bytes. *)
Definition twoNodes : Registry.Registry :=
  [ Registry.mkNode "node1" [Registry.testPool "pool1" POOL_ONLINE 10 0];
    Registry.mkNode "node2" [Registry.testPool "pool2" POOL_ONLINE 25 0] ].

Definition uriOf (share : Share) (node id : string) : string :=
  match share with
  | REPLICA_NONE => ("bdev:///" ++ id)%string
  | REPLICA_NVMF => ("nvmf://" ++ node ++ "/" ++ id)%string
  | REPLICA_ISCSI => ("iscsi://" ++ node ++ "/" ++ id)%string
  end.

(** Storage nodes that do what they are asked, except that [CreateReplica]
    fails on the nodes of [failing]. *)
Definition nodesFailingOn (failing : list string) (reg : Registry.Registry)
  : Env :=
  mkEnv
    (Registry.choosePools reg)
    (fun _ p id sz =>
       if includes failing (pool_node p)
       then throwGrpc INTERNAL ("no space on " ++ pool_node p)%string
       else Ok (mkReplica id (pool_node p) (pool_name p) sz REPLICA_NONE
                          (uriOf REPLICA_NONE (pool_node p) id) "ONLINE"))
    (fun _ r share => Ok (uriOf share (r_node r) (r_uuid r)))
    (fun _ _ => Ok tt)
    (fun _ _ _ _ children =>
       Ok ("ONLINE", map (fun r => mkChild (r_uri r) "ONLINE") children))
    (fun _ _ _ => Ok "ONLINE")
    (fun _ _ _ => Ok tt)
    (fun r => (r_uuid r ++ "@" ++ r_pool r)%string)
    n_uuid
    (fun e => Error_toString "Error" (exn_message e)).

Definition obliging : Registry.Registry -> Env := nodesFailingOn [].

Definition replicaOn (node : string) (share : Share) (st : string) : Replica :=
  mkReplica UUID node "pool" 64 share (uriOf share node UUID) st.

(** A volume with its nexus on node1, a local replica and a replica on
    node2 that is shared over iSCSI; both are children of the nexus. *)
Definition iscsiVolume : Volume :=
  mkVolume UUID 2 [] [] 64 None 64
    (Some (mkNexus UUID "node1" 64 "ONLINE"
             [mkChild (uriOf REPLICA_NONE "node1" UUID) "ONLINE";
              mkChild (uriOf REPLICA_ISCSI "node2" UUID) "ONLINE"]))
    [("node1", replicaOn "node1" REPLICA_NONE "ONLINE");
     ("node2", replicaOn "node2" REPLICA_ISCSI "ONLINE")]
    "ONLINE" "".

(** A volume without nexus that holds one replica more than it wants:
    the replica on nodeB is ONLINE, the one on nodeA is not. *)
Definition excessVolume : Volume :=
  mkVolume UUID 1 [] [] 64 None 64 None
    [("nodeA", replicaOn "nodeA" REPLICA_NONE "OFFLINE");
     ("nodeB", replicaOn "nodeB" REPLICA_NONE "ONLINE")]
    "PENDING" "".

End Fixtures.

(* ------------------------------------------------------------------ *)
(** ** CSI controller: the remaining handlers                           *)
(* ------------------------------------------------------------------ *)

Module CsiMore.

Import Common Csi.

(** [createK8sVolumeObject(nexus)] for a nexus that is there. *)
Definition createK8sVolumeObject (nexus : Nexus) : K8sVolume :=
  mkK8sVolume (n_size nexus) (n_uuid nexus)
              [mkTopology [(hostnameKey, n_node nexus)]].

(** The part of the volume operator that [deleteVolume], [listVolumes],
    [controllerUnpublishVolume] and [validateVolumeCapabilities] use. The
    operator is not among the sources; what it returns is a parameter.
    - [vo_getNexus]: [getNexus(uuid)];
    - [vo_getReplicaSet]: [getReplicaSet(uuid)];
    - [vo_destroyNexus], [vo_destroyReplica]: the outcome of the call,
      which may depend on the calls made before it, given by their number;
    - [vo_unpublishNexus]: the outcome of [unpublishNexus(uuid)];
    - [vo_errorToString]: [String(err)], as [errors.join] applies it. *)
Record VolumeOperator := mkVolumeOperator {
  vo_getNexus : string -> option Nexus;
  vo_getReplicaSet : string -> list Replica;
  vo_destroyNexus : nat -> string -> string -> Result unit;
  vo_destroyReplica : nat -> string -> string -> Result unit;
  vo_unpublishNexus : string -> Result unit;
  vo_errorToString : Exn -> string
}.

(** A call one of these handlers makes on the volume operator. *)
Inductive VolumeCall :=
| DestroyNexus (node id : string)
| DestroyReplica (node uuid : string)
| UnpublishNexus (id : string).

(** What the handler passed to its callback, with the calls it made, in
    order. *)
Definition Answered (R : Type) : Type := Result R * list VolumeCall.

(** The loop of [deleteVolume] over [replicaSet], with the [errors] pushed
    and the calls made so far. *)
Fixpoint destroyReplicas (op : VolumeOperator) (replicaSet : list Replica)
         (errors : list Exn) (calls : list VolumeCall)
  : list Exn * list VolumeCall :=
  match replicaSet with
  | [] => (errors, calls)
  | r :: rest =>
      match vo_destroyReplica op (List.length calls) (r_node r) (r_uuid r) with
      | Ok _ =>
          destroyReplicas op rest errors
                          (calls ++ [DestroyReplica (r_node r) (r_uuid r)])
      | Err err =>
          destroyReplicas op rest (errors ++ [err])
                          (calls ++ [DestroyReplica (r_node r) (r_uuid r)])
      end
  end.

(** [deleteVolume(call, cb)] *)
Definition deleteVolume (op : VolumeOperator) (volumeId : string)
  : Answered unit :=
  let nexus := vo_getNexus op volumeId in
  let replicaSet := vo_getReplicaSet op volumeId in
  let '(errors, calls) :=
    match nexus with
    | Some nx =>
        match vo_destroyNexus op 0 (n_node nx) volumeId with
        | Ok _ => ([], [DestroyNexus (n_node nx) volumeId])
        | Err err => ([err], [DestroyNexus (n_node nx) volumeId])
        end
    | None => ([], [])
    end in
  let '(errors, calls) := destroyReplicas op replicaSet errors calls in
  if (0 <? Z.of_nat (List.length errors)) then
    (throwGrpc INTERNAL
       ("Failed to delete volume " ++ quoted volumeId ++ ": "
        ++ join ". " (map (vo_errorToString op) errors)), calls)
  else (Ok tt, calls).

(** [controllerUnpublishVolume(call, cb)] *)
Definition controllerUnpublishVolume (op : VolumeOperator)
           (volumeId nodeId : string) : Answered unit :=
  match vo_getNexus op volumeId with
  | None =>
      (throwGrpc NOT_FOUND ("Volume " ++ quoted volumeId ++ " does not exist"),
       [])
  | Some nexus =>
  match parseMayastorNodeId nodeId with
  | Err err => (Err err, [])
  | Ok node =>
      (* a node other than [nexus.node] is only logged *)
      match vo_unpublishNexus op (n_uuid nexus) with
      | Err err => (Err err, [UnpublishNexus (n_uuid nexus)])
      | Ok _ => (Ok tt, [UnpublishNexus (n_uuid nexus)])
      end
  end end.

(** The reply of [validateVolumeCapabilities]. *)
Record ValidateResponse := mkValidateResponse {
  resp_confirmed : option (list VolumeCapability);
  resp_message : option string
}.

(** The [filter] of [validateVolumeCapabilities]: the capabilities that
    ask for SINGLE_NODE_WRITER, in their order, or the [TypeError] that
    reading [cap.accessMode.mode] throws at the first capability without
    access mode. *)
Fixpoint supportedCapabilities (caps : list VolumeCapability)
  : Result (list VolumeCapability) :=
  match caps with
  | [] => Ok []
  | cap :: rest =>
      match accessMode cap with
      | None => Err (TypeError "mode" "null")
      | Some mode =>
          match supportedCapabilities rest with
          | Err e => Err e
          | Ok kept =>
              Ok (if String.eqb mode "SINGLE_NODE_WRITER" then cap :: kept
                  else kept)
          end
      end
  end.

(** [validateVolumeCapabilities(call, cb)]. The filter is not inside a
    [try]: when it throws, the handler never calls back. *)
Definition validateVolumeCapabilities (op : VolumeOperator)
           (volumeId : string) (volumeCapabilities : list VolumeCapability)
  : Outcome ValidateResponse :=
  match vo_getNexus op volumeId with
  | None =>
      Replied (throwGrpc NOT_FOUND
                 ("Volume " ++ quoted volumeId ++ " does not exist"))
  | Some _ =>
      match supportedCapabilities volumeCapabilities with
      | Err e => Threw e
      | Ok caps =>
          if 0 <? Z.of_nat (List.length caps)
          then Replied (Ok (mkValidateResponse (Some caps) None))
          else Replied
                 (Ok (mkValidateResponse
                        None
                        (Some "The only supported capability is SINGLE_NODE_WRITER")))
      end
  end.

(** *** Paging of [listVolumes] *)

(** [this.nextListContextId] and [this.listContexts]. A context is the
    [volumes] array of the entries not yet returned. *)
Record Paging := mkPaging {
  nextListContextId : Z;
  listContexts : list (string * list K8sVolume)
}.

(** The state the constructor sets up. *)
Definition noPaging : Paging := mkPaging 1 [].

(** [n.toString()] of a number that holds an integer. *)
Definition Number_toString (n : Z) : string :=
  NilZero.string_of_int (Z.to_int n).

(** [n + 1] on numbers: exact up to 2^53, where the sum is rounded back to
    [n]. *)
Definition Number_succ (n : Z) : Z :=
  if n <? 9007199254740992 then n + 1 else n.

(** What [listVolumes] does: a page passed to the callback, an error
    passed to the callback, or an exception that leaves the handler
    without any callback. *)
Inductive ListOutcome :=
| Page (entries : list K8sVolume) (nextToken : option string)
| Refused (e : GrpcError)
| Thrown (e : Exn).

(** [array.splice(0, n)]: the removed elements and what is left. *)
Definition splice0 {A} (n : Z) (l : list A) : list A * list A :=
  let k := Z.to_nat (Z.min (Z.max n 0) (Z.of_nat (List.length l))) in
  (firstn k l, skipn k l).

(** The second half of [listVolumes], once [ctx] is known. *)
Definition servePage (st : Paging) (maxEntries : Z) (volumes : list K8sVolume)
  : ListOutcome * Paging :=
  let maxEntries := if maxEntries =? 0 then 1000 else maxEntries in
  let '(entries, volumes) := splice0 maxEntries volumes in
  if 0 <? Z.of_nat (List.length volumes) then
    let ctxId := nextListContextId st in
    (Page entries (Some (Number_toString ctxId)),
     mkPaging (Number_succ ctxId)
              (Volume.assign (Number_toString ctxId) volumes
                             (listContexts st)))
  else (Page entries None, st).

(** [listVolumes(call, cb)]; [nexuses] is [this.volumes.getNexus()]. An
    unset [startingToken] is the empty string, an unset [maxEntries] is 0. *)
Definition listVolumes (nexuses : list Nexus) (st : Paging)
           (maxEntries : Z) (startingToken : string)
  : ListOutcome * Paging :=
  if String.eqb startingToken "" then
    servePage st maxEntries (map createK8sVolumeObject nexuses)
  else
    let st' := mkPaging (nextListContextId st)
                        (Volume.remove startingToken (listContexts st)) in
    match Volume.lookup startingToken (listContexts st) with
    | Some volumes => servePage st' maxEntries volumes
    | None =>
        if includes objectPrototypeKeys startingToken then
          (* [ctx] is the inherited property, [ctx.volumes] is undefined *)
          (Thrown (TypeError "splice" "undefined"), st')
        else
          (Refused (mkGrpcError INVALID_ARGUMENT
                      "Paging context for list volumes is gone"), st')
    end.

(** A client that lists everything: it follows [nextToken] until a reply
    has none, for at most [fuel] requests. [nexusesAt i] is what the
    operator holds at the time of the i-th request. *)
Fixpoint listAll (fuel : nat) (nexusesAt : nat -> list Nexus) (i : nat)
         (st : Paging) (maxEntries : Z) (token : string)
         (acc : list K8sVolume) : option (list K8sVolume * Paging) :=
  match fuel with
  | O => None
  | S fuel' =>
      match listVolumes (nexusesAt i) st maxEntries token with
      | (Page entries None, st') => Some (acc ++ entries, st')
      | (Page entries (Some t), st') =>
          listAll fuel' nexusesAt (S i) st' maxEntries t (acc ++ entries)
      | _ => None
      end
  end.

(** *** Vocabulary of the properties *)

(** The capability asks for the one supported access mode. *)
Definition singleNodeWriter (cap : VolumeCapability) : bool :=
  match accessMode cap with
  | Some mode => String.eqb mode "SINGLE_NODE_WRITER"
  | None => false
  end.

(** The capability has an access mode. *)
Definition hasAccessMode (cap : VolumeCapability) : bool :=
  match accessMode cap with Some _ => true | None => false end.

(** [s] is [n] characters of the class [[0-9a-f]]. *)
Definition hexString (n : nat) (s : string) : Prop :=
  String.length s = n
  /\ Forall (fun c => hexDigit c = true) (list_ascii_of_string s).

(** [g] has the form of a uuid in lower case: groups of 8, 4, 4, 4 and 12
    hexadecimal digits with a dash between them. *)
Definition uuidShaped (g : string) : Prop :=
  exists a b c d e,
    g = (a ++ "-" ++ b ++ "-" ++ c ++ "-" ++ d ++ "-" ++ e)%string
    /\ hexString 8 a /\ hexString 4 b /\ hexString 4 c /\ hexString 4 d
    /\ hexString 12 e.

(** A topology without the segments whose key is not the hostname. *)
Definition hostnameOnly (t : Topology) : Topology :=
  mkTopology (filter (fun kv => String.eqb (fst kv) hostnameKey) (segments t)).

(** What the operator answers to a call made after [i] others. *)
Definition outcome (op : VolumeOperator) (i : nat) (c : VolumeCall)
  : Result unit :=
  match c with
  | DestroyNexus node id => vo_destroyNexus op i node id
  | DestroyReplica node uuid => vo_destroyReplica op i node uuid
  | UnpublishNexus id => vo_unpublishNexus op id
  end.

(** The errors the operator answers to a sequence of calls, the first of
    them made after [i] others. *)
Fixpoint failures (op : VolumeOperator) (i : nat) (calls : list VolumeCall)
  : list Exn :=
  match calls with
  | [] => []
  | c :: rest =>
      match outcome op i c with
      | Ok _ => failures op (S i) rest
      | Err err => err :: failures op (S i) rest
      end
  end.

(** The page size [listVolumes] works with. *)
Definition pageSize (maxEntries : Z) : Z :=
  if maxEntries =? 0 then 1000 else maxEntries.

(** Every key of [listContexts] is the decimal form of an id below
    [nextListContextId], which has not passed 2^53. *)
Definition issued (st : Paging) : Prop :=
  nextListContextId st <= 9007199254740992
  /\ forall k, In k (Volume.keys (listContexts st)) ->
               exists i, i < nextListContextId st /\ k = Number_toString i.

End CsiMore.

(* ------------------------------------------------------------------ *)
(** ** The volume: constructor, [update], and vocabulary                *)
(* ------------------------------------------------------------------ *)

Module VolumeMore.

Import Common Volume.
Local Open Scope vol_scope.

(** The [spec] argument of the constructor and of [update]. The node
    lists and [limitBytes] are [None] when [undefined]. *)
Record Spec := mkSpec {
  spec_replicaCount : Z;
  spec_preferredNodes : option (list string);
  spec_requiredNodes : option (list string);
  spec_requiredBytes : Z;
  spec_limitBytes : option Z
}.

(** [_.clone(nodes || []).sort()] *)
Definition sortedNodes (nodes : option (list string)) : list string :=
  Registry.sort String.compare
                (match nodes with Some l => l | None => [] end).

(** [new Volume(uuid, registry, spec)] *)
Definition construct (id : string) (spec : Spec) : Volume :=
  mkVolume id
           (if spec_replicaCount spec =? 0 then 1 else spec_replicaCount spec)
           (sortedNodes (spec_preferredNodes spec))
           (sortedNodes (spec_requiredNodes spec))
           (spec_requiredBytes spec)
           (spec_limitBytes spec)
           0 None [] "PENDING" "The volume is being created".

Definition set_replicaCount (v : Volume) (count : Z) : Volume :=
  mkVolume (uuid v) count (preferredNodes v) (requiredNodes v)
           (requiredBytes v) (limitBytes v) (size v) (nexus v) (replicas v)
           (state v) (reason v).

Definition set_preferredNodes (v : Volume) (nodes : list string) : Volume :=
  mkVolume (uuid v) (replicaCount v) nodes (requiredNodes v)
           (requiredBytes v) (limitBytes v) (size v) (nexus v) (replicas v)
           (state v) (reason v).

Definition set_requiredNodes (v : Volume) (nodes : list string) : Volume :=
  mkVolume (uuid v) (replicaCount v) (preferredNodes v) nodes
           (requiredBytes v) (limitBytes v) (size v) (nexus v) (replicas v)
           (state v) (reason v).

Definition set_requiredBytes (v : Volume) (n : Z) : Volume :=
  mkVolume (uuid v) (replicaCount v) (preferredNodes v) (requiredNodes v)
           n (limitBytes v) (size v) (nexus v) (replicas v)
           (state v) (reason v).

Definition set_limitBytes (v : Volume) (n : option Z) : Volume :=
  mkVolume (uuid v) (replicaCount v) (preferredNodes v) (requiredNodes v)
           (requiredBytes v) n (size v) (nexus v) (replicas v)
           (state v) (reason v).

(** [_.isEqual(a, b)] on arrays of strings. *)
Definition isEqual (a b : list string) : bool :=
  if list_eq_dec string_dec a b then true else false.

(** [a != b] on values that are a number or [undefined]. *)
Definition differ (a b : option Z) : bool :=
  match a, b with
  | Some x, Some y => negb (x =? y)
  | None, None => false
  | _, _ => true
  end.

(** [update(spec)]: whether the spec has changed, and the volume after
    the update. Both checks come before the first assignment, so an
    update that throws leaves the volume as it was. *)
Definition update (v : Volume) (spec : Spec) : Result (bool * Volume) :=
  if size v <? spec_requiredBytes spec then
    throwGrpc INVALID_ARGUMENT
      ("Extending the volume " ++ quoted (uuid v) ++ " is not supported")
  else if match spec_limitBytes spec with
          | Some limit => negb (limit =? 0) && (limit <? size v)
          | None => false
          end then
    throwGrpc INVALID_ARGUMENT
      ("Shrinking the volume " ++ quoted (uuid v) ++ " is not supported")
  else
    let c1 := negb (replicaCount v =? spec_replicaCount spec) in
    let v1 := if c1 then set_replicaCount v (spec_replicaCount spec) else v in
    let preferred := sortedNodes (spec_preferredNodes spec) in
    let c2 := negb (isEqual (preferredNodes v1) preferred) in
    let v2 := if c2 then set_preferredNodes v1 preferred else v1 in
    let required := sortedNodes (spec_requiredNodes spec) in
    let c3 := negb (isEqual (requiredNodes v2) required) in
    let v3 := if c3 then set_requiredNodes v2 required else v2 in
    let c4 := negb (requiredBytes v3 =? spec_requiredBytes spec) in
    let v4 := if c4 then set_requiredBytes v3 (spec_requiredBytes spec)
              else v3 in
    let c5 := differ (limitBytes v4) (spec_limitBytes spec) in
    let v5 := if c5 then set_limitBytes v4 (spec_limitBytes spec) else v4 in
    Ok (c1 || c2 || c3 || c4 || c5, v5).

(** *** Vocabulary of the properties *)

(** The volume with the five fields of the spec, node lists sorted, and
    everything else as it is. *)
Definition updated (v : Volume) (spec : Spec) : Volume :=
  mkVolume (uuid v) (spec_replicaCount spec)
           (sortedNodes (spec_preferredNodes spec))
           (sortedNodes (spec_requiredNodes spec))
           (spec_requiredBytes spec) (spec_limitBytes spec)
           (size v) (nexus v) (replicas v) (state v) (reason v).

(** The size of the volume is within the byte range of the spec, as
    [update] checks it: a limit of 0 is no limit. *)
Definition sizeFits (v : Volume) (spec : Spec) : Prop :=
  spec_requiredBytes spec <= size v
  /\ forall limit, spec_limitBytes spec = Some limit ->
                   limit = 0 \/ size v <= limit.

(** The node names of an optional list. *)
Definition nodesOf (nodes : option (list string)) : list string :=
  match nodes with Some l => l | None => [] end.

(** An event of the registry about a replica. *)
Inductive ReplicaEvent :=
| ReplicaNew (r : Replica)
| ReplicaMod (r : Replica)
| ReplicaDel (r : Replica).

(** The handler an event is given to. *)
Definition handle (v : Volume) (ev : ReplicaEvent) : Result Volume :=
  match ev with
  | ReplicaNew r => newReplica v r
  | ReplicaMod r => modReplica v r
  | ReplicaDel r => delReplica v r
  end.

(** A sequence of events, handled one after the other until a handler
    throws. *)
Fixpoint handleAll (v : Volume) (events : list ReplicaEvent) : Result Volume :=
  match events with
  | [] => Ok v
  | ev :: rest =>
      match handle v ev with
      | Ok v' => handleAll v' rest
      | Err e => Err e
      end
  end.

(** The four criteria of [_scoreReplica], most important first: on a
    required node, ONLINE, on a preferred node, on the node of the nexus. *)
Definition replicaKey (v : Volume) (replica : Replica) : Z * Z * Z * Z :=
  (Z.b2z (includes (requiredNodes v) (r_node replica)),
   Z.b2z (String.eqb (r_state replica) "ONLINE"),
   Z.b2z (includes (preferredNodes v) (r_node replica)),
   Z.b2z (match nexus v with
          | Some nx => String.eqb (r_node replica) (n_node nx)
          | None => false
          end)).

(** Whatever state [m] starts in, it only adds requests, and each request
    it adds is in [P]. *)
Definition sends {A} (P : Request -> Prop) (m : M A) : Prop :=
  forall s, exists extra,
    sent (snd (m s)) = sent s ++ extra /\ Forall P extra.

(** The request does not switch a replica to iSCSI. *)
Definition notIscsi (rq : Request) : Prop :=
  match rq with
  | ShareReplica _ REPLICA_ISCSI => False
  | _ => True
  end.

(** The request is about the children of an existing nexus. *)
Definition isRemoveChild (rq : Request) : Prop :=
  match rq with RemoveChildNexus _ _ => True | _ => False end.

Definition isAddChild (rq : Request) : Prop :=
  match rq with AddChildNexus _ _ => True | _ => False end.

(** The request destroys no replica. *)
Definition notDestroy (rq : Request) : Prop :=
  match rq with DestroyReplica _ => False | _ => True end.

(** The request destroys a replica of the list. *)
Definition destroysOneOf (rs : list Replica) (rq : Request) : Prop :=
  match rq with DestroyReplica r => In r rs | _ => False end.

(** Nothing is left for [ensure] to do: the volume has a nexus and as
    many replicas as it wants, at least one, every replica has the share
    protocol its place asks for, and the children of the nexus are the
    replicas. *)
Definition converged (v : Volume) : Prop :=
  exists nx,
    nexus v = Some nx
    /\ replicas v <> []
    /\ Z.of_nat (List.length (replicas v)) = replicaCount v
    /\ Forall (fun r => wantedShare (n_node nx) r = None) (values (replicas v))
    /\ Permutation (map ch_uri (n_children nx))
                   (map r_uri (values (replicas v))).

End VolumeMore.

(* ------------------------------------------------------------------ *)
(** ** Further fixtures                                                 *)
(* ------------------------------------------------------------------ *)

Module Scenarios.

Import Common Volume Csi CsiMore VolumeMore Fixtures.

(** A server whose commander fails with an error that is not a grpc
    error. *)
Definition brokenCommander : Server :=
  mkServer (decimal 0)
           (fun _ _ => Err (JsError "Error" "boom"))
           (fun _ => None) (fun _ => Ok tt) [].

(** A volume operator that knows one nexus for every volume id, on node1,
    and no replicas; all its calls succeed. *)
Definition nexusOnNode1 : VolumeOperator :=
  mkVolumeOperator
    (fun id => Some (mkNexus id "node1" 64 "ONLINE" []))
    (fun _ => [])
    (fun _ _ _ => Ok tt)
    (fun _ _ _ => Ok tt)
    (fun _ => Ok tt)
    exn_message.

(** Three nexuses on two nodes. *)
Definition threeNexuses : list Nexus :=
  [mkNexus "uuid-1" "node1" 10 "ONLINE" [];
   mkNexus "uuid-2" "node2" 20 "ONLINE" [];
   mkNexus "uuid-3" "node1" 30 "DEGRADED" []].

(** A volume of 64 bytes with its nexus on node1. *)
Definition servingVolume : Volume := set_size attachedVolume 64.

(** A spec that names two preferred nodes, not in order. *)
Definition widerSpec : Spec :=
  mkSpec 3 (Some ["nodeB"; "nodeA"]) None 64 None.

(** A volume that wants one replica and has two: its nexus on node1 uses
    the local replica, the replica on node2 is not a child of the nexus. *)
Definition overfullVolume : Volume :=
  mkVolume UUID 1 [] [] 64 None 64
    (Some (mkNexus UUID "node1" 64 "ONLINE"
             [mkChild (uriOf REPLICA_NONE "node1" UUID) "ONLINE"]))
    [("node1", replicaOn "node1" REPLICA_NONE "ONLINE");
     ("node2", replicaOn "node2" REPLICA_NVMF "ONLINE")]
    "ONLINE" "".

End Scenarios.

(* ------------------------------------------------------------------ *)
(** ** Properties of the pool selection                                 *)
(* ------------------------------------------------------------------ *)

Module RegistryProps.

Import Registry.

(** *** Sorting by a comparator *)

Section SortFacts.

Variable A : Type.
Variable cmp : A -> A -> comparison.

(** The comparator is total: of two elements, one may stand first. *)
Hypothesis cmp_total : forall x y, cmp x y = Gt -> cmp y x <> Gt.
Hypothesis cmp_trans : forall x y z,
  notAfter cmp x y -> notAfter cmp y z -> notAfter cmp x z.

Lemma insert_In (x y : A) (l : list A) :
  In y (insert cmp x l) <-> y = x \/ In y l.
Proof.
  induction l as [|z l IH]; simpl.
  - intuition.
  - destruct (cmp x z); simpl; try rewrite IH; intuition.
Qed.

Lemma sort_In (y : A) (l : list A) : In y (sort cmp l) <-> In y l.
Proof.
  induction l as [|x l IH]; simpl; [reflexivity|].
  rewrite insert_In, IH. intuition.
Qed.

Lemma insert_sorted (x : A) (l : list A) :
  StronglySorted (notAfter cmp) l ->
  StronglySorted (notAfter cmp) (insert cmp x l).
Proof.
  induction 1 as [|z l Hs IH Hz]; simpl.
  - constructor; constructor.
  - destruct (cmp x z) eqn:E.
    + constructor; [constructor; assumption|].
      assert (Hxz : notAfter cmp x z) by (unfold notAfter; congruence).
      constructor; [assumption|].
      eapply Forall_impl; [|exact Hz]. intros w Hw. eauto.
    + constructor; [constructor; assumption|].
      assert (Hxz : notAfter cmp x z) by (unfold notAfter; congruence).
      constructor; [assumption|].
      eapply Forall_impl; [|exact Hz]. intros w Hw. eauto.
    + constructor; [assumption|].
      apply Forall_forall. intros w Hw. apply insert_In in Hw.
      destruct Hw as [->|Hw].
      * apply cmp_total; assumption.
      * rewrite Forall_forall in Hz. auto.
Qed.

Lemma sort_sorted (l : list A) : StronglySorted (notAfter cmp) (sort cmp l).
Proof.
  induction l as [|x l IH]; simpl; [constructor|].
  apply insert_sorted; assumption.
Qed.

End SortFacts.

Lemma sortedb_spec {A} (cmp : A -> A -> comparison) (l : list A) :
  sortedb cmp l = true <-> StronglySorted (notAfter cmp) l.
Proof.
  induction l as [|x l IH]; simpl.
  - split; [constructor | reflexivity].
  - rewrite andb_true_iff, forallb_forall, IH. split.
    + intros [Hx Hl]. constructor; [assumption|].
      apply Forall_forall. intros y Hy. specialize (Hx y Hy).
      unfold notAfterb, notAfter in *. destruct (cmp x y); congruence.
    + intros H. inversion H as [|? ? Hl Hx]; subst. split; [|assumption].
      intros y Hy. rewrite Forall_forall in Hx. specialize (Hx y Hy).
      unfold notAfterb, notAfter in *. destruct (cmp x y); congruence.
Qed.

(** *** The comparator of [choosePools] orders pools by [poolKey] *)

Lemma comparePools_key (should : list string) (a b : Pool) :
  notAfter (comparePools should) a b
  <-> tupleGe (poolKey should a) (poolKey should b).
Proof.
  unfold notAfter, comparePools, poolKey, tupleGe, lex, flag_first.
  destruct (includes should (pool_node a)), (includes should (pool_node b)),
           (isOnline a), (isOnline b); simpl;
    destruct (Nat.compare_spec (replicasOn a) (replicasOn b));
    destruct (Z.compare_spec (freeBytes b) (freeBytes a));
    split; intros; try congruence; try lia.
Qed.

Lemma tupleGe_trans (k1 k2 k3 : Z * Z * Z * Z) :
  tupleGe k1 k2 -> tupleGe k2 k3 -> tupleGe k1 k3.
Proof.
  destruct k1 as [[[a1 a2] a3] a4], k2 as [[[b1 b2] b3] b4],
           k3 as [[[c1 c2] c3] c4].
  unfold tupleGe. lia.
Qed.

Lemma tupleGe_total (k1 k2 : Z * Z * Z * Z) : tupleGe k1 k2 \/ tupleGe k2 k1.
Proof.
  destruct k1 as [[[a1 a2] a3] a4], k2 as [[[b1 b2] b3] b4].
  unfold tupleGe. lia.
Qed.

Lemma comparePools_total (should : list string) (a b : Pool) :
  comparePools should a b = Gt -> comparePools should b a <> Gt.
Proof.
  intros Hgt. change (notAfter (comparePools should) b a).
  apply comparePools_key.
  destruct (tupleGe_total (poolKey should b) (poolKey should a)) as [H|H];
    [assumption|].
  apply comparePools_key in H. unfold notAfter in H. congruence.
Qed.

Lemma comparePools_trans (should : list string) (a b c : Pool) :
  notAfter (comparePools should) a b -> notAfter (comparePools should) b c ->
  notAfter (comparePools should) a c.
Proof.
  rewrite !comparePools_key. apply tupleGe_trans.
Qed.

(** *** One pool per node *)

Lemma onePerNode_In (seen : list string) (l : list Pool) (p : Pool) :
  In p (onePerNode seen l) -> In p l /\ ~ In (pool_node p) seen.
Proof.
  revert seen. induction l as [|q l IH]; simpl; intros seen H; [contradiction|].
  destruct (includes seen (pool_node q)) eqn:E.
  - apply IH in H. tauto.
  - destruct H as [->|H].
    + split; [now left|]. rewrite <- includes_In. congruence.
    + apply IH in H. simpl in H. tauto.
Qed.

Lemma onePerNode_NoDup (seen : list string) (l : list Pool) :
  NoDup (map pool_node (onePerNode seen l)).
Proof.
  revert seen. induction l as [|q l IH]; simpl; intros seen; [constructor|].
  destruct (includes seen (pool_node q)); [apply IH|].
  simpl. constructor; [|apply IH].
  rewrite in_map_iff. intros [p [Hn Hp]].
  apply onePerNode_In in Hp. simpl in Hp. intuition.
Qed.

Lemma onePerNode_sorted (R : Pool -> Pool -> Prop) (seen : list string)
      (l : list Pool) :
  StronglySorted R l -> StronglySorted R (onePerNode seen l).
Proof.
  intros H. revert seen. induction H as [|q l Hs IH Hq]; simpl; intros seen.
  - constructor.
  - destruct (includes seen (pool_node q)); [apply IH|].
    constructor; [apply IH|].
    apply Forall_forall. intros p Hp. apply onePerNode_In in Hp.
    rewrite Forall_forall in Hq. apply Hq. tauto.
Qed.

Lemma choosePools_suitable (reg : Registry) (b : Z) (must should : list string)
      (p : Pool) :
  In p (choosePools reg b must should) -> suitable b must p = true.
Proof.
  unfold choosePools. intros H.
  apply onePerNode_In in H. destruct H as [H _].
  apply sort_In in H. apply filter_In in H. tauto.
Qed.

(** *** The registry unit tests hold of the model *)

Example test_prefer_online :
  map pool_name (choosePools regOnline 75 [] []) = ["pool2"; "pool1"].
Proof. reflexivity. Qed.

Example test_prefer_fewer_volumes :
  map pool_name (choosePools regFewer 75 [] []) = ["pool2"; "pool1"].
Proof. reflexivity. Qed.

Example test_prefer_more_free_space :
  map pool_name (choosePools regFree 75 [] []) = ["pool1"; "pool2"].
Proof. reflexivity. Qed.

Example test_no_suitable_pool :
  choosePools regNone 75 ["node1"; "node2"] [] = [].
Proof. reflexivity. Qed.

Example test_not_two_pools_on_same_node :
  List.length (choosePools regSameNode 75 [] []) = 1%nat.
Proof. reflexivity. Qed.

Example test_node_requested_by_user :
  map pool_name (choosePools regPreferred 75 ["node2"] []) = ["pool2"].
Proof. reflexivity. Qed.

Example test_node_preferred_by_user :
  map pool_name (choosePools regPreferred 75 [] ["node2"]) = ["pool2"; "pool1"].
Proof. reflexivity. Qed.

Example test_capacity :
  getCapacity regCapacity None = 165
  /\ getCapacity regCapacity (Some "node2") = 75.
Proof. split; reflexivity. Qed.

(** *** What [choosePools] returns *)

(** C1. For every registry state and every call
    [choosePools(b, must, should)]: no two pools of the result are on the
    same node, every pool of the result has at least [b] free bytes, and if
    [must] is not empty the node of every pool of the result is in [must]. *)
Theorem choosePools_one_per_node_fits_must
        (reg : Registry) (b : Z) (must should : list string) :
  NoDup (map pool_node (choosePools reg b must should))
  /\ Forall (fun p => b <= freeBytes p) (choosePools reg b must should)
  /\ (must <> [] ->
      Forall (fun p => In (pool_node p) must) (choosePools reg b must should)).
Proof.
  split; [apply onePerNode_NoDup|]. split.
  - apply Forall_forall. intros p Hp. apply choosePools_suitable in Hp.
    unfold suitable in Hp. rewrite !andb_true_iff in Hp.
    destruct Hp as [[_ Hfree] _]. now apply Z.leb_le.
  - intros Hmust. apply Forall_forall. intros p Hp.
    apply choosePools_suitable in Hp.
    unfold suitable in Hp. rewrite !andb_true_iff in Hp.
    destruct Hp as [_ Hin]. destruct must as [|m must']; [congruence|].
    now apply includes_In.
Qed.

(** C2, as the spec words it, fails on the input of the registry unit test
    'should prefer pool on node preferred by user': the result is pool2
    (DEGRADED, on the preferred node) before pool1 (ONLINE), which is not
    sorted by a key that ranks ONLINE before membership in [shouldNodes]. *)
Lemma choosePools_preferred_node_outranks_online :
  map (fun p => (pool_name p, pool_state p))
      (choosePools regPreferred 75 [] ["node2"])
  = [("pool2", POOL_DEGRADED); ("pool1", POOL_ONLINE)]
  /\ sortedb (comparePools_spec_order ["node2"])
             (choosePools regPreferred 75 [] ["node2"]) = false.
Proof. split; reflexivity. Qed.

(** C2, amended. For every call
    [choosePools(requiredBytes, mustNodes, shouldNodes)]: no pool of the
    result is POOL_OFFLINE or POOL_FAULTED, and the result is sorted
    descending by the key tuple (node in [shouldNodes], ONLINE before
    DEGRADED, fewer replicas on the pool, more free bytes). *)
Theorem choosePools_accessible_and_sorted
        (reg : Registry) (requiredBytes : Z) (mustNodes shouldNodes : list string) :
  Forall (fun p => pool_state p <> POOL_OFFLINE /\ pool_state p <> POOL_FAULTED)
         (choosePools reg requiredBytes mustNodes shouldNodes)
  /\ StronglySorted
       (fun a b => tupleGe (poolKey shouldNodes a) (poolKey shouldNodes b))
       (choosePools reg requiredBytes mustNodes shouldNodes).
Proof.
  split.
  - apply Forall_forall. intros p Hp. apply choosePools_suitable in Hp.
    unfold suitable, isPoolAccessible in Hp. rewrite !andb_true_iff in Hp.
    destruct Hp as [[Hacc _] _].
    destruct (pool_state p); split; congruence.
  - unfold choosePools. apply onePerNode_sorted.
    assert (Hs := sort_sorted Pool (comparePools shouldNodes)
                    (comparePools_total shouldNodes)
                    (comparePools_trans shouldNodes)
                    (filter (suitable requiredBytes mustNodes) (getPool reg))).
    revert Hs. generalize (sort (comparePools shouldNodes)
                    (filter (suitable requiredBytes mustNodes) (getPool reg))).
    induction 1 as [|q l Hs IH Hq]; constructor; [assumption|].
    eapply Forall_impl; [|exact Hq].
    intros a Ha. now apply comparePools_key.
Qed.

End RegistryProps.

(* ------------------------------------------------------------------ *)
(** ** Properties of the CSI controller                                 *)
(* ------------------------------------------------------------------ *)

Module CsiProps.

Import Csi Fixtures.

(** *** What [PVC_RE] matches *)

Lemma matchClasses_split (cs : list CharClass) (s m rest : string) :
  matchClasses cs s = Some (m, rest) ->
  s = (m ++ rest)%string /\ String.length m = List.length cs.
Proof.
  revert s m rest. induction cs as [|c cs IH]; simpl; intros s m rest H.
  - inversion H; subst. split; reflexivity.
  - destruct s as [|a s]; [discriminate|].
    destruct (c a); [|discriminate].
    destruct (matchClasses cs s) as [[m' rest']|] eqn:E; [|discriminate].
    inversion H; subst. apply IH in E. destruct E as [-> Hlen].
    simpl. split; congruence.
Qed.

Lemma matchClasses_chr (a : ascii) (cs : list CharClass) (s m rest : string) :
  matchClasses (chr a :: cs) s = Some (m, rest) ->
  exists m' s', m = String a m' /\ s = String a s'
                /\ matchClasses cs s' = Some (m', rest).
Proof.
  cbn [matchClasses]. destruct s as [|b s]; [discriminate|].
  unfold chr. destruct (Ascii.eqb_spec a b) as [<-|]; [|discriminate].
  destruct (matchClasses cs s) as [[m' rest']|] eqn:E; [|discriminate].
  intros H. inversion H; subst. exists m', s. auto.
Qed.

Lemma matchClasses_pvc (s m rest : string) :
  matchClasses (before PVC_RE) s = Some (m, rest) -> m = "pvc-".
Proof.
  unfold PVC_RE, before. intros H.
  repeat (apply matchClasses_chr in H;
          destruct H as [? [? [-> [-> H]]]]).
  cbn [matchClasses] in H. inversion H. reflexivity.
Qed.

(** A match of [PVC_RE] is an occurrence of "pvc-" followed by the 36
    characters of the captured group. *)
Lemma str_match_occurrence (s g : string) :
  str_match PVC_RE s = Some g ->
  String.length g = 36%nat
  /\ exists pre post, s = (pre ++ "pvc-" ++ g ++ post)%string.
Proof.
  induction s as [|a s IH]; intros H.
  - discriminate.
  - simpl str_match in H.
    destruct (matchHere PVC_RE (String a s)) as [g'|] eqn:E.
    + inversion H; subst g'. clear H. unfold matchHere in E.
      destruct (matchClasses (before PVC_RE) (String a s)) as [[m rest]|] eqn:E1;
        [|discriminate].
      destruct (matchClasses (group PVC_RE) rest) as [[g' post]|] eqn:E2;
        [|discriminate].
      inversion E; subst g'.
      pose proof (matchClasses_pvc _ _ _ E1) as ->.
      apply matchClasses_split in E1. apply matchClasses_split in E2.
      destruct E1 as [-> _]. destruct E2 as [-> Hlen].
      split; [exact Hlen|]. exists EmptyString, post. reflexivity.
    + destruct (IH H) as [Hlen [pre [post ->]]].
      split; [exact Hlen|]. exists (String a pre), post. reflexivity.
Qed.

Example str_match_exact :
  str_match PVC_RE ("pvc-" ++ UUID) = Some UUID.
Proof. reflexivity. Qed.

Example str_match_inside :
  str_match PVC_RE ("my-pvc-" ++ UUID ++ "-copy") = Some UUID.
Proof. reflexivity. Qed.

Example str_match_upper_case :
  str_match PVC_RE "pvc-753B391C-9B04-4CE3-9C74-9D949152E547" = None.
Proof. reflexivity. Qed.

Example str_match_short : str_match PVC_RE "pvc-753b391c" = None.
Proof. reflexivity. Qed.

(** *** The node id *)

Lemma prefix_split (p s : string) :
  prefix p s = true ->
  s = (p ++ substring (String.length p) (String.length s - String.length p) s)%string.
Proof.
  revert s. induction p as [|a p IH]; intros s H.
  - simpl. rewrite Nat.sub_0_r.
    clear H. induction s as [|b s IHs]; simpl; [reflexivity|].
    now rewrite <- IHs.
  - destruct s as [|b s]; [discriminate|]. simpl in H.
    destruct (ascii_dec a b) as [->|]; [|discriminate].
    simpl. f_equal. now apply IH.
Qed.

Lemma prefix_app (p s : string) : prefix p (p ++ s) = true.
Proof.
  induction p as [|a p IH]; simpl; [destruct s; reflexivity|].
  destruct (ascii_dec a a); [assumption | congruence].
Qed.

Lemma substring_app_skip (p s : string) :
  substring (String.length p) (String.length (p ++ s) - String.length p) (p ++ s)
  = s.
Proof.
  induction p as [|a p IH]; simpl.
  - rewrite Nat.sub_0_r. induction s as [|b s IHs]; simpl; [reflexivity|].
    now rewrite IHs.
  - exact IH.
Qed.

(** The node ids [parseMayastorNodeId] accepts are exactly the strings
    [mayastor://<node-name>] with a node name that is not empty. *)
Lemma parseMayastorNodeId_form (nodeId node : string) :
  parseMayastorNodeId nodeId = Ok node
  <-> node <> "" /\ nodeId = ("mayastor://" ++ node)%string.
Proof.
  unfold parseMayastorNodeId. split.
  - destruct (prefix "mayastor://" nodeId) eqn:Hp; [|discriminate].
    apply prefix_split in Hp.
    set (rest := substring (String.length "mayastor://")
                   (String.length nodeId - String.length "mayastor://") nodeId)
      in *.
    destruct (String.eqb_spec rest "") as [He|Hne]; simpl; [discriminate|].
    intros H. inversion H; subst node. split; assumption.
  - intros [Hne ->].
    rewrite prefix_app.
    rewrite (substring_app_skip "mayastor://" node).
    destruct (String.eqb_spec node "") as [He|_]; [contradiction|reflexivity].
Qed.

Lemma parseMayastorNodeId_rejects (nodeId : string) :
  (forall node, node <> "" -> nodeId <> ("mayastor://" ++ node)%string) ->
  exists msg, parseMayastorNodeId nodeId = throwGrpc INVALID_ARGUMENT msg.
Proof.
  intros Hform.
  destruct (parseMayastorNodeId nodeId) as [node|e] eqn:E.
  - apply parseMayastorNodeId_form in E. destruct E as [Hne ->].
    exfalso. exact (Hform node Hne eq_refl).
  - unfold parseMayastorNodeId in E.
    destruct (_ && _) in E; [discriminate|].
    unfold throwGrpc in *. inversion E. eexists. reflexivity.
Qed.

(** *** CreateVolume *)

(** Scenario 5 of the spec: the reply names the uuid of the request and the
    node of the nexus, and the volume was created under that uuid. *)
Example createVolume_happy_path :
  createVolume (serverWith (Ok tt) []) createRequest
  = (Replied (Ok (mkK8sVolume 64 UUID [mkTopology [(hostnameKey, "node1")]])),
     [EnsureVolume UUID (mkVolumeSpec 64 0 [] [] 2)]).
Proof. reflexivity. Qed.

Example createVolume_bad_name :
  createVolume (serverWith (Ok tt) [])
    (mkCreateVolumeRequest "my-volume" (Some (mkCapacityRange 64 0))
                           (Some [writer]) None None None)
  = refuse INVALID_ARGUMENT
           "Expected the volume name in pvc-{uuid} format: my-volume".
Proof. reflexivity. Qed.

(** The expression is not anchored: a name that only contains a match is
    accepted, and the volume gets the uuid of the match. *)
Example createVolume_name_with_affixes :
  createVolume (serverWith (Ok tt) [])
    (mkCreateVolumeRequest ("my-pvc-" ++ UUID ++ "-copy")
                           (Some (mkCapacityRange 64 0))
                           (Some [writer]) None None None)
  = (Replied (Ok (mkK8sVolume 64 UUID [mkTopology [(hostnameKey, "node1")]])),
     [EnsureVolume UUID (mkVolumeSpec 64 0 [] [] 1)]).
Proof. reflexivity. Qed.

(** C7 fails on a request without capacity range. The name "my-volume"
    does not match [PVC_RE], yet the call does not fail with
    INVALID_ARGUMENT: the first statement of the handler, the log line
    that reads [args.capacityRange.requiredBytes], throws a TypeError
    before the name is looked at, and the handler never calls back. The
    same request with a capacity range fails with INVALID_ARGUMENT. *)
Lemma createVolume_bad_name_without_capacity_range :
  str_match PVC_RE (name unsizedRequest) = None
  /\ createVolume (serverWith (Ok tt) []) unsizedRequest
     = (Threw (TypeError "requiredBytes" "null"), [])
  /\ createVolume (serverWith (Ok tt) [])
       (withCapacityRange (Some (mkCapacityRange 64 0)) unsizedRequest)
     = refuse INVALID_ARGUMENT
              "Expected the volume name in pvc-{uuid} format: my-volume".
Proof. repeat split. Qed.

(** C9 fails on a request without capacity range. The request names a
    content source, yet the call does not fail with INVALID_ARGUMENT: the
    log line that reads [args.capacityRange.requiredBytes] comes before
    the test of [volumeContentSource] and throws a TypeError, and the
    handler never calls back. The same request with a capacity range
    fails with INVALID_ARGUMENT. *)
Lemma createVolume_content_source_without_capacity_range :
  volumeContentSource unsizedRequestWithSource = Some "snapshot-1"
  /\ createVolume (serverWith (Ok tt) []) unsizedRequestWithSource
     = (Threw (TypeError "requiredBytes" "null"), [])
  /\ createVolume (serverWith (Ok tt) [])
       (withCapacityRange (Some (mkCapacityRange 64 0))
                          unsizedRequestWithSource)
     = refuse INVALID_ARGUMENT "Source for create volume is not supported".
Proof. repeat split. Qed.

(** *** ControllerPublishVolume *)

(** C8. For every ControllerPublishVolume request on an existing volume:
    a node id that [parseMayastorNodeId] rejects, in particular one that is
    not of the form [mayastor://<node-name>], is rejected; a node name
    other than the node of the nexus fails with INVALID_ARGUMENT;
    [readonly = true] fails with INVALID_ARGUMENT; and when the request is
    valid and the publish of the nexus fails with ALREADY_EXISTS, or
    succeeds, the call succeeds. *)
Theorem controllerPublishVolume_checks
        (srv : Server) (args : ControllerPublishVolumeRequest) (nexus : Nexus) :
  getNexus srv (pub_volumeId args) = Some nexus ->
  (forall err, parseMayastorNodeId (pub_nodeId args) = Err err ->
               controllerPublishVolume srv args = (Err err, []))
  /\ ((forall node, node <> "" ->
                    pub_nodeId args <> ("mayastor://" ++ node)%string) ->
      exists msg,
        controllerPublishVolume srv args = (throwGrpc INVALID_ARGUMENT msg, []))
  /\ (forall node, parseMayastorNodeId (pub_nodeId args) = Ok node ->
                   node <> n_node nexus ->
      exists msg,
        controllerPublishVolume srv args = (throwGrpc INVALID_ARGUMENT msg, []))
  /\ (pub_readonly args = true ->
      exists msg,
        controllerPublishVolume srv args = (throwGrpc INVALID_ARGUMENT msg, []))
  /\ (pub_nodeId args = ("mayastor://" ++ n_node nexus)%string ->
      n_node nexus <> "" ->
      pub_readonly args = false ->
      pub_volumeCapability args
      = Some (mkCapability (Some "SINGLE_NODE_WRITER")) ->
      (forall err, publishNexus srv (n_uuid nexus) = Err err ->
                   exn_code err = Some ALREADY_EXISTS ->
                   controllerPublishVolume srv args
                   = (Ok tt, [PublishNexus (n_uuid nexus)]))
      /\ (publishNexus srv (n_uuid nexus) = Ok tt ->
          controllerPublishVolume srv args
          = (Ok tt, [PublishNexus (n_uuid nexus)]))).
Proof.
  intros Hnexus. unfold controllerPublishVolume, cbErr. rewrite Hnexus.
  split; [|split; [|split; [|split]]].
  - intros err Hparse. rewrite Hparse. reflexivity.
  - intros Hform. apply parseMayastorNodeId_rejects in Hform.
    destruct Hform as [msg Hparse]. rewrite Hparse. exists msg. reflexivity.
  - intros node Hparse Hnode. rewrite Hparse.
    destruct (String.eqb_spec node (n_node nexus)); [contradiction|].
    simpl. eexists. reflexivity.
  - intros Hro.
    destruct (parseMayastorNodeId (pub_nodeId args)) as [node|err] eqn:Hparse.
    + destruct (negb (String.eqb node (n_node nexus)));
        [eexists; reflexivity|].
      rewrite Hro. eexists. reflexivity.
    + unfold parseMayastorNodeId in Hparse.
      destruct (_ && _) in Hparse; [discriminate|].
      unfold throwGrpc in *. inversion Hparse. eexists. reflexivity.
  - intros Hid Hne Hro Hcap.
    assert (Hparse : parseMayastorNodeId (pub_nodeId args) = Ok (n_node nexus))
      by (apply parseMayastorNodeId_form; split; assumption).
    rewrite Hparse, String.eqb_refl, Hro, Hcap. simpl. split.
    + intros err Hpub Hcode. rewrite Hpub, Hcode. reflexivity.
    + intros Hpub. rewrite Hpub. reflexivity.
Qed.

Lemma controllerPublishVolume_checks_witness :
  controllerPublishVolume
    (serverWith (throwGrpc ALREADY_EXISTS "nexus is published") [])
    (publishRequest "mayastor://node1" false)
  = (Ok tt, [PublishNexus UUID])
  /\ (exists msg,
        controllerPublishVolume
          (serverWith (throwGrpc ALREADY_EXISTS "nexus is published") [])
          (publishRequest "mayastor://node2" false)
        = (throwGrpc INVALID_ARGUMENT msg, [])).
Proof.
  pose proof (controllerPublishVolume_checks
                (serverWith (throwGrpc ALREADY_EXISTS "nexus is published") [])
                (publishRequest "mayastor://node1" false)
                (mkNexus UUID "node1" 64 "ONLINE" []) eq_refl) as H1.
  pose proof (controllerPublishVolume_checks
                (serverWith (throwGrpc ALREADY_EXISTS "nexus is published") [])
                (publishRequest "mayastor://node2" false)
                (mkNexus UUID "node1" 64 "ONLINE" []) eq_refl) as H2.
  split.
  - destruct H1 as [_ [_ [_ [_ H1]]]].
    destruct (H1 eq_refl ltac:(discriminate) eq_refl eq_refl) as [H _].
    exact (H _ eq_refl eq_refl).
  - destruct H2 as [_ [_ [H2 _]]].
    exact (H2 "node2" eq_refl ltac:(discriminate)).
Defined.

(** *** GetCapacity *)

(** Without a hostname segment the reply is the sum over the accessible
    pools of all nodes. *)
Lemma getCapacity_all_nodes (srv : Server) (caps : option (list VolumeCapability)) :
  match caps with Some l => checkCapabilities (Some l) | None => None end = None ->
  getCapacity srv (mkGetCapacityRequest caps None)
  = Ok (accessibleCapacity (pools_get srv) None).
Proof.
  intros Hcaps. unfold getCapacity, accessibleCapacity.
  cbn [cap_volumeCapabilities cap_accessibleTopology]. rewrite Hcaps.
  do 2 f_equal. apply filter_ext. intros p. now rewrite andb_true_r.
Qed.

Example getCapacity_scenario_all_nodes :
  getCapacity (serverWith (Ok tt) capacityPools) (capacityOf None) = Ok 165.
Proof. reflexivity. Qed.

(** C6 fails on the capacity scenario of the spec: asked for node2, whose
    pools are listed as DEGRADED (75 free), FAULTED, OFFLINE, the handler
    answers 0, while the sum over the accessible pools of node2 is 75. The
    fold of the handler starts again from 0 at a pool that is not
    accessible, so only the accessible pools listed after the last
    inaccessible one are counted. *)
Lemma getCapacity_node_forgets_pools_before_inaccessible :
  getCapacity (serverWith (Ok tt) capacityPools) (capacityOf (Some "node2"))
  = Ok 0
  /\ accessibleCapacity capacityPools (Some "node2") = 75.
Proof. split; reflexivity. Qed.

End CsiProps.

(* ------------------------------------------------------------------ *)
(** ** Properties of the volume                                         *)
(* ------------------------------------------------------------------ *)

Module VolumeProps.

Import Volume Fixtures.

(** *** Nexus event handlers *)

(** C10, as stated, fails where a handler's guard applies. [delNexus] and
    [modNexus] on a volume without nexus only log a warning: the state
    stays 'PENDING' with the reason the constructor gave, not the state of
    the nexus and not 'The volume is missing nexus'. [newNexus] on a
    volume that already has a nexus leaves the state as it was. *)
Lemma nexus_handlers_guards :
  delNexus freshVolume (nexusOn "node1" "ONLINE") = Ok freshVolume
  /\ reason freshVolume = "The volume is being created"
  /\ modNexus freshVolume (nexusOn "node1" "ONLINE") = Ok freshVolume
  /\ state freshVolume = "PENDING"
  /\ newNexus attachedVolume (nexusOn "node2" "DEGRADED") = Ok attachedVolume
  /\ state attachedVolume = "ONLINE".
Proof. repeat split. Qed.

(** C10, amended. For a nexus with the uuid of the volume: after
    [newNexus] on a volume that has no nexus, and after [modNexus] for the
    nexus the volume has, the nexus is the volume's, the state of the
    volume is the state of the nexus and the reason is empty; after
    [delNexus] for the nexus the volume has, the volume has no nexus, its
    state is 'PENDING' and its reason 'The volume is missing nexus'.
    [newNexus] on a volume that has a nexus, and [modNexus] or [delNexus]
    on a volume that has none, leave state and reason as they were. *)
Theorem nexus_handlers_mirror_state (v : Volume) (n : Nexus) :
  n_uuid n = uuid v ->
  (nexus v = None ->
   exists v', newNexus v n = Ok v'
              /\ nexus v' = Some n /\ state v' = n_state n /\ reason v' = "")
  /\ (forall n0, nexus v = Some n0 -> sameNexus n0 n = true ->
      exists v', modNexus v n = Ok v'
                 /\ nexus v' = Some n /\ state v' = n_state n /\ reason v' = "")
  /\ (forall n0, nexus v = Some n0 -> sameNexus n0 n = true ->
      exists v', delNexus v n = Ok v'
                 /\ nexus v' = None /\ state v' = "PENDING"
                 /\ reason v' = "The volume is missing nexus")
  /\ (forall n0, nexus v = Some n0 ->
      exists v', newNexus v n = Ok v'
                 /\ nexus v' <> None
                 /\ state v' = state v /\ reason v' = reason v)
  /\ (nexus v = None -> modNexus v n = Ok v /\ delNexus v n = Ok v).
Proof.
  intros Huuid.
  assert (Hsame : sameNexus n n = true)
    by (unfold sameNexus; now rewrite !String.eqb_refl).
  unfold newNexus, modNexus, delNexus, aliasNexus.
  split; [|split; [|split; [|split]]].
  - intros Hnone. rewrite Hnone, Huuid, String.eqb_refl. simpl.
    rewrite Hnone. eexists. split; [reflexivity|]. simpl. auto.
  - intros n0 Hn0 Hid. rewrite Hn0, Hid. simpl.
    rewrite Huuid, String.eqb_refl, Hsame. simpl.
    eexists. split; [reflexivity|]. simpl. auto.
  - intros n0 Hn0 Hid. rewrite Hn0, Hid. simpl.
    rewrite Huuid, String.eqb_refl, Hsame. simpl.
    eexists. split; [reflexivity|]. simpl. auto.
  - intros n0 Hn0. rewrite Hn0.
    destruct (sameNexus n0 n); simpl; rewrite ?Hn0, Huuid, String.eqb_refl;
      simpl; rewrite ?Hn0; eexists; (split; [reflexivity|]); simpl;
      rewrite ?Hn0; repeat split; congruence.
  - intros Hnone. rewrite Hnone, Huuid, String.eqb_refl. simpl.
    rewrite Hnone. split; reflexivity.
Qed.

Lemma nexus_handlers_mirror_state_witness :
  n_uuid (nexusOn "node1" "DEGRADED") = uuid attachedVolume
  /\ (exists v', modNexus attachedVolume (nexusOn "node1" "DEGRADED") = Ok v'
                 /\ nexus v' = Some (nexusOn "node1" "DEGRADED")
                 /\ state v' = "DEGRADED" /\ reason v' = "")
  /\ (exists v', newNexus freshVolume (nexusOn "node1" "DEGRADED") = Ok v'
                 /\ nexus v' = Some (nexusOn "node1" "DEGRADED")
                 /\ state v' = "DEGRADED" /\ reason v' = "").
Proof.
  split; [reflexivity|]. split.
  - destruct (nexus_handlers_mirror_state attachedVolume
                (nexusOn "node1" "DEGRADED") eq_refl) as [_ [H _]].
    exact (H (nexusOn "node1" "ONLINE") eq_refl eq_refl).
  - destruct (nexus_handlers_mirror_state freshVolume
                (nexusOn "node1" "DEGRADED") eq_refl) as [H _].
    exact (H eq_refl).
Defined.

End VolumeProps.

(* ------------------------------------------------------------------ *)
(** ** Properties of the reconciler                                     *)
(* ------------------------------------------------------------------ *)

Module EnsureProps.

Import Volume Fixtures.
Local Open Scope vol_scope.

(** *** The replica map *)

Section MapFacts.

Variable A : Type.
Implicit Types (m : list (string * A)) (k : string) (a : A).

Lemma lookup_In k a m : lookup k m = Some a -> In (k, a) m.
Proof.
  induction m as [|[k' a'] m IH]; simpl; [discriminate|].
  destruct (String.eqb_spec k k') as [->|_].
  - intros H. inversion H. now left.
  - intros H. right. auto.
Qed.

Lemma lookup_None k m : lookup k m = None <-> ~ In k (keys m).
Proof.
  induction m as [|[k' a'] m IH]; simpl; [tauto|].
  destruct (String.eqb_spec k k') as [->|Hne].
  - split; [discriminate | intros H; exfalso; apply H; now left].
  - rewrite IH. split; intros H; [intros [He|Hin]; [congruence|tauto] | tauto].
Qed.

Lemma In_lookup k a m : NoDup (keys m) -> In (k, a) m -> lookup k m = Some a.
Proof.
  induction m as [|[k' a'] m IH]; simpl; [tauto|].
  intros Hnd [Heq|Hin].
  - inversion Heq; subst. now rewrite String.eqb_refl.
  - inversion Hnd as [|? ? Hk Hnd']; subst.
    destruct (String.eqb_spec k k') as [->|_]; [|auto].
    exfalso. apply Hk. unfold keys. apply in_map_iff. now exists (k', a).
Qed.

Lemma keys_assign k a m :
  keys (assign k a m)
  = match lookup k m with Some _ => keys m | None => keys m ++ [k] end.
Proof.
  induction m as [|[k' a'] m IH]; simpl; [reflexivity|].
  destruct (String.eqb_spec k k') as [->|_]; simpl; [reflexivity|].
  rewrite IH. now destruct (lookup k m).
Qed.

Lemma In_assign k a m k' a' :
  In (k', a') (assign k a m) -> (k' = k /\ a' = a) \/ In (k', a') m.
Proof.
  induction m as [|[k0 a0] m IH]; simpl.
  - intros [H|[]]. inversion H. now left.
  - destruct (String.eqb_spec k k0) as [->|_]; simpl.
    + intros [H|H]; [inversion H; now left | right; now right].
    + intros [H|H]; [right; now left|]. apply IH in H. tauto.
Qed.

Lemma In_assign_same k a m : In (k, a) (assign k a m).
Proof.
  induction m as [|[k0 a0] m IH]; simpl; [now left|].
  destruct (String.eqb_spec k k0) as [->|_]; simpl; [now left | now right].
Qed.

Lemma In_assign_other k a m k' a' :
  k' <> k -> In (k', a') m -> In (k', a') (assign k a m).
Proof.
  intros Hne. induction m as [|[k0 a0] m IH]; simpl; [tauto|].
  destruct (String.eqb_spec k k0) as [->|_]; simpl.
  - intros [H|H]; [inversion H; congruence | now right].
  - intros [H|H]; [now left | right; auto].
Qed.

Lemma assign_lookup k a m : lookup k m = Some a -> assign k a m = m.
Proof.
  induction m as [|[k0 a0] m IH]; simpl; [discriminate|].
  destruct (String.eqb_spec k k0) as [->|_].
  - intros H. inversion H. reflexivity.
  - intros H. f_equal. auto.
Qed.

Lemma length_assign k a m :
  (List.length (assign k a m) <= S (List.length m))%nat.
Proof.
  induction m as [|[k0 a0] m IH]; simpl; [lia|].
  destruct (String.eqb k k0); simpl; lia.
Qed.

Lemma In_remove k m k' a' : In (k', a') (remove k m) -> In (k', a') m.
Proof.
  induction m as [|[k0 a0] m IH]; simpl; [tauto|].
  destruct (String.eqb k k0); simpl; intuition.
Qed.

End MapFacts.

Arguments lookup_In {A}.
Arguments lookup_None {A}.
Arguments In_lookup {A}.
Arguments keys_assign {A}.
Arguments In_assign {A}.
Arguments In_assign_same {A}.
Arguments In_assign_other {A}.
Arguments assign_lookup {A}.
Arguments length_assign {A}.
Arguments In_remove {A}.

(** *** Replica handlers keep the map well formed *)

Lemma wellFormed_assign (v : Volume) (r : Replica) :
  wellFormed v ->
  wellFormed (set_replicas v (assign (r_node r) r (replicas v))).
Proof.
  intros [Hk Hnd]. split; simpl.
  - apply Forall_forall. intros [k a] Hin. apply In_assign in Hin.
    destruct Hin as [[-> ->]|Hin]; [reflexivity|].
    rewrite Forall_forall in Hk. exact (Hk _ Hin).
  - rewrite keys_assign. destruct (lookup (r_node r) (replicas v)) eqn:E;
      [assumption|].
    apply lookup_None in E.
    apply NoDup_app; [assumption | repeat constructor; simpl; tauto |].
    intros x Hx [<-|[]]. contradiction.
Qed.

Lemma set_replicas_same (v : Volume) : set_replicas v (replicas v) = v.
Proof. now destruct v. Qed.

Lemma aliasReplica_spec (r : Replica) (v : Volume) :
  aliasReplica r v = set_replicas v (replicas (aliasReplica r v))
  /\ (wellFormed v -> wellFormed (aliasReplica r v))
  /\ List.length (replicas (aliasReplica r v)) = List.length (replicas v)
  /\ (forall k a, In (k, a) (replicas (aliasReplica r v)) ->
                  (k = r_node r /\ a = r) \/ In (k, a) (replicas v)).
Proof.
  unfold aliasReplica.
  destruct (lookup (r_node r) (replicas v)) as [r0|] eqn:E;
    [destruct (sameReplica r0 r)|].
  2, 3: rewrite set_replicas_same;
    (split; [reflexivity | split; [auto | split; [reflexivity | auto]]]).
  split; [reflexivity|]. split; [apply wellFormed_assign|]. split.
  - pose proof (keys_assign (r_node r) r (replicas v)) as Hk.
    rewrite E in Hk. unfold keys in Hk.
    apply (f_equal (@List.length string)) in Hk.
    now rewrite !length_map in Hk.
  - intros k a. apply In_assign.
Qed.

Lemma wellFormed_remove (v : Volume) (k : string) :
  wellFormed v -> wellFormed (set_replicas v (remove k (replicas v))).
Proof.
  intros [Hk Hnd]. split; cbn [replicas set_replicas].
  - apply Forall_forall. intros kr Hin. destruct kr as [k' a].
    apply In_remove in Hin. rewrite Forall_forall in Hk. exact (Hk _ Hin).
  - clear Hk. induction (replicas v) as [|[k0 a0] m IH]; simpl; [constructor|].
    inversion Hnd as [|? ? Hnot Hnd']; subst.
    destruct (String.eqb k k0); [auto|]. simpl. constructor; [|auto].
    intros Hin. apply Hnot. unfold keys in *. apply in_map_iff in Hin.
    destruct Hin as [[k1 a1] [Heq Hin]]. simpl in Heq. subst k1.
    apply In_remove in Hin. apply in_map_iff. now exists (k0, a1).
Qed.

(** The volume's replica map is well formed from the constructor on: the
    three replica handlers keep it so. *)
Lemma newVolume_wellFormed (id : string) (count : Z)
      (preferred required : list string) (reqBytes : Z) (limit : option Z) :
  wellFormed (newVolume id count preferred required reqBytes limit).
Proof. split; constructor. Qed.

Lemma replica_handlers_keep_wellFormed (v v' : Volume) (r : Replica) :
  wellFormed v ->
  newReplica v r = Ok v' \/ modReplica v r = Ok v' \/ delReplica v r = Ok v' ->
  wellFormed v'.
Proof.
  intros Hwf. destruct (aliasReplica_spec r v) as [_ [Wa _]].
  specialize (Wa Hwf). unfold newReplica, modReplica, delReplica, get.
  set (va := aliasReplica r v) in *.
  intros [H|[H|H]]; destruct (negb _); try discriminate;
    (destruct (lookup (r_node r) (replicas va));
     [try destruct (sameReplica _ _)
     |destruct (includes objectPrototypeKeys (r_node r))]);
    try discriminate; inversion H; subst v'; auto.
  - now apply wellFormed_assign.
  - now apply wellFormed_remove.
Qed.

Lemma grown_refl (v : Volume) : grown v v 0.
Proof.
  split; [symmetry; apply set_replicas_same|]. split; [auto | lia].
Qed.

Lemma grown_trans (v1 v2 v3 : Volume) (n m : nat) :
  grown v1 v2 n -> grown v2 v3 m -> grown v1 v3 (n + m).
Proof.
  intros [E1 [W1 L1]] [E2 [W2 L2]]. split; [|split; [auto | lia]].
  rewrite E2 at 1. rewrite E1 at 1. reflexivity.
Qed.

Lemma grown_weaken (v v' : Volume) (n m : nat) :
  (n <= m)%nat -> grown v v' n -> grown v v' m.
Proof. intros Hle [E [W L]]. split; [|split]; auto; lia. Qed.

Lemma newReplica_grown (v : Volume) (r : Replica) :
  r_uuid r = uuid v ->
  exists v', newReplica v r = Ok v' /\ grown v v' 1.
Proof.
  intros Huuid. unfold newReplica, get.
  destruct (aliasReplica_spec r v) as [Ea [Wa [La _]]].
  set (va := aliasReplica r v) in *.
  assert (Hu : uuid va = uuid v) by (rewrite Ea; reflexivity).
  rewrite Hu, Huuid, String.eqb_refl. cbn [negb].
  destruct (lookup (r_node r) (replicas va)) eqn:E;
    [|destruct (includes objectPrototypeKeys (r_node r))]; eexists;
    (split; [reflexivity|]).
  - split; [exact Ea|]. split; [exact Wa | lia].
  - split; [exact Ea|]. split; [exact Wa | lia].
  - split; [rewrite Ea at 1; reflexivity|]. split.
    + intros Hw. apply (wellFormed_assign va r). auto.
    + simpl. pose proof (length_assign (r_node r) r (replicas va)). lia.
Qed.

(** *** Creating replicas *)

Lemma Pool_createReplica_step (env : Env) (p : Pool) (sz : Z) (s : St) :
  let id := uuid (vol s) in
  let sent' := sent s ++ [CreateReplica p id sz] in
  match createReplica_reply env (List.length (sent s)) p id sz with
  | Err e => Pool_createReplica env p id sz s = (Err e, mkSt (vol s) sent')
  | Ok _ =>
      exists r v', Pool_createReplica env p id sz s = (Ok r, mkSt v' sent')
                   /\ grown (vol s) v' 1
  end.
Proof.
  intros id sent'. unfold Pool_createReplica, bind, call, deliver, ret.
  destruct (createReplica_reply env (List.length (sent s)) p id sz)
    as [reply|e]; [|reflexivity].
  cbn [vol sent].
  match goal with
  | |- context [newReplica (vol s) ?r] =>
      destruct (newReplica_grown (vol s) r eq_refl) as [v' [Hn Hg]];
      exists r, v'; rewrite Hn
  end.
  split; [reflexivity | assumption].
Qed.

Lemma successes_firstn_le {A} (k : nat) (l : list (Result A)) :
  (successes (firstn k l) <= successes l)%nat.
Proof.
  revert k. induction l as [|[a|e] l IH]; intros [|k]; simpl;
    unfold successes in *; simpl; try lia;
    specialize (IH k); lia.
Qed.

Lemma createLoop_spec (env : Env) (pools : list Pool) :
  forall (count : Z) (errors : list string) (s : St),
  exists attempted rest s',
    pools = attempted ++ rest
    /\ createLoop env pools count errors s
       = (Ok (count
              - Z.of_nat (successes (createReplies env (List.length (sent s))
                                       attempted (uuid (vol s)) (size (vol s)))),
              errors
              ++ errorMessages (createReplies env (List.length (sent s))
                                  attempted (uuid (vol s)) (size (vol s)))),
          s')
    /\ sent s'
       = sent s ++ map (fun p => CreateReplica p (uuid (vol s)) (size (vol s)))
                       attempted
    /\ (forall k, (k < List.length attempted)%nat ->
          Z.of_nat (successes (firstn k (createReplies env (List.length (sent s))
                                 attempted (uuid (vol s)) (size (vol s)))))
          < count)
    /\ (rest = []
        \/ count
           - Z.of_nat (successes (createReplies env (List.length (sent s))
                                    attempted (uuid (vol s)) (size (vol s))))
           <= 0)
    /\ grown (vol s) (vol s')
             (successes (createReplies env (List.length (sent s))
                           attempted (uuid (vol s)) (size (vol s))))
    /\ (0 <= count ->
        Z.of_nat (successes (createReplies env (List.length (sent s))
                               attempted (uuid (vol s)) (size (vol s))))
        <= count).
Proof.
  induction pools as [|p ps IH]; intros count errors s.
  - exists [], [], s. cbn. rewrite Z.sub_0_r, !app_nil_r.
    split; [reflexivity|]. split; [reflexivity|]. split; [reflexivity|].
    split; [intros; lia|]. split; [now left|].
    split; [apply grown_refl | auto].
  - cbn [createLoop]. destruct (0 <? count) eqn:Hc.
    + apply Z.ltb_lt in Hc.
      unfold bind at 1, getVol. unfold bind at 1, attempt.
      pose proof (Pool_createReplica_step env p (size (vol s)) s) as Hstep.
      cbv zeta in Hstep.
      destruct (createReplica_reply env (List.length (sent s)) p (uuid (vol s))
                                    (size (vol s))) as [reply|e] eqn:Hr.
      * destruct Hstep as [r [v1 [Hstep [Eg [Wg Lg]]]]]. rewrite Hstep.
        set (s1 := mkSt v1 (sent s ++ [CreateReplica p (uuid (vol s))
                                                      (size (vol s))])).
        destruct (IH (count - 1) errors s1)
          as [att [rest [s' [Hp [Hl [Hs [Hk [Hrest [Hgr Hbound]]]]]]]]].
        assert (Hu : uuid (vol s1) = uuid (vol s))
          by (simpl; rewrite Eg; reflexivity).
        assert (Hz : size (vol s1) = size (vol s))
          by (simpl; rewrite Eg; reflexivity).
        assert (Hn : List.length (sent s1) = S (List.length (sent s)))
          by (simpl; rewrite length_app; simpl; lia).
        rewrite Hu, Hz, Hn in *.
        exists (p :: att), rest, s'. cbn [createReplies]. rewrite Hr.
        set (replies := createReplies env (S (List.length (sent s))) att
                          (uuid (vol s)) (size (vol s))) in *.
        assert (Hsucc : successes (Ok reply :: replies) = S (successes replies))
          by reflexivity.
        rewrite Hsucc.
        split; [simpl; congruence|]. split.
        { rewrite Hl. do 3 f_equal. lia. }
        split.
        { rewrite Hs. simpl. now rewrite <- app_assoc. }
        split.
        { intros [|k] Hlt; [simpl; lia|].
          simpl in Hlt. cbn [firstn].
          change (successes (Ok reply :: firstn k replies))
            with (S (successes (firstn k replies))).
          specialize (Hk k ltac:(lia)). lia. }
        split.
        { destruct Hrest as [->|Hle]; [now left | right; lia]. }
        split.
        { apply (grown_trans (vol s) v1 (vol s') 1 (successes replies));
            [exact (conj Eg (conj Wg Lg)) | exact Hgr]. }
        intros _. specialize (Hbound ltac:(lia)). lia.
      * rewrite Hstep.
        set (s1 := mkSt (vol s) (sent s ++ [CreateReplica p (uuid (vol s))
                                                           (size (vol s))])).
        destruct (IH count (errors ++ [exn_message e]) s1)
          as [att [rest [s' [Hp [Hl [Hs [Hk [Hrest [Hgr Hbound]]]]]]]]].
        assert (Hn : List.length (sent s1) = S (List.length (sent s)))
          by (simpl; rewrite length_app; simpl; lia).
        rewrite Hn in *. cbn [vol s1] in *.
        exists (p :: att), rest, s'. cbn [createReplies]. rewrite Hr.
        set (replies := createReplies env (S (List.length (sent s))) att
                          (uuid (vol s)) (size (vol s))) in *.
        assert (Hsucc : successes (@Err Replica e :: replies) = successes replies)
          by reflexivity.
        rewrite Hsucc.
        split; [simpl; congruence|]. split.
        { rewrite Hl. cbn [errorMessages flat_map]. simpl app.
          now rewrite <- app_assoc. }
        split.
        { rewrite Hs. simpl. now rewrite <- app_assoc. }
        split.
        { intros [|k] Hlt; [simpl; lia|].
          simpl in Hlt. cbn [firstn].
          change (successes (@Err Replica e :: firstn k replies))
            with (successes (firstn k replies)).
          apply Hk. lia. }
        split; [assumption|]. split; assumption.
    + apply Z.ltb_ge in Hc.
      exists [], (p :: ps), s. cbn. rewrite Z.sub_0_r, !app_nil_r.
      split; [reflexivity|]. split; [reflexivity|]. split; [reflexivity|].
      split; [intros; lia|]. split; [right; lia|].
      split; [apply grown_refl | auto].
Qed.

(** What a run of [_createReplicas] with enough candidate pools does. *)
Lemma createReplicas_enough (env : Env) (count : Z) (s : St) :
  count <= Z.of_nat (List.length (candidatePools env (vol s))) ->
  exists attempted rest s',
    candidatePools env (vol s) = attempted ++ rest
    /\ sent s'
       = sent s ++ map (fun p => CreateReplica p (uuid (vol s))
                                               (replicaSize env (vol s)))
                       attempted
    /\ (forall k, (k < List.length attempted)%nat ->
          Z.of_nat (successes (firstn k
                     (createReplies env (List.length (sent s)) attempted
                        (uuid (vol s)) (replicaSize env (vol s)))))
          < count)
    /\ (grown (set_size (vol s) (replicaSize env (vol s))) (vol s')
               (successes (createReplies env (List.length (sent s)) attempted
                             (uuid (vol s)) (replicaSize env (vol s))))
        /\ (0 <= count ->
            Z.of_nat (successes (createReplies env (List.length (sent s))
                                   attempted (uuid (vol s))
                                   (replicaSize env (vol s))))
            <= count))
    /\ ((count <= Z.of_nat (successes
                     (createReplies env (List.length (sent s)) attempted
                        (uuid (vol s)) (replicaSize env (vol s))))
         /\ _createReplicas env count s = (Ok tt, s'))
        \/ (rest = []
            /\ Z.of_nat (successes
                  (createReplies env (List.length (sent s)) attempted
                     (uuid (vol s)) (replicaSize env (vol s))))
               < count
            /\ _createReplicas env count s
               = (throwGrpc INTERNAL
                    ("Failed to create required number of replicas for volume "
                     ++ quoted (uuid (vol s)) ++ ": "
                     ++ join ". "
                          (errorMessages
                             (createReplies env (List.length (sent s)) attempted
                                (uuid (vol s)) (replicaSize env (vol s)))))%string,
                  s'))).
Proof.
  intros Henough.
  set (pools := candidatePools env (vol s)).
  set (s0 := mkSt (set_size (vol s) (replicaSize env (vol s))) (sent s)).
  destruct (createLoop_spec env pools count [] s0)
    as [att [rest [s' [Hp [Hl [Hs [Hk [Hrest [Hgr Hbound]]]]]]]]].
  cbn [s0 vol sent uuid size set_size] in Hl, Hs, Hk, Hrest, Hgr, Hbound.
  assert (Heq : _createReplicas env count s
                = match createLoop env pools count [] s0 with
                  | (Ok (remaining, errors), s1) =>
                      if 0 <? remaining
                      then (throwGrpc INTERNAL
                              ("Failed to create required number of replicas for volume "
                               ++ quoted (uuid (vol s)) ++ ": "
                               ++ join ". " errors)%string, s1)
                      else (Ok tt, s1)
                  | (Err e, s1) => (Err e, s1)
                  end).
  { unfold _createReplicas. unfold bind at 1, getVol.
    apply Z.ltb_ge in Henough. rewrite Henough. fold pools.
    assert (Hs0 : (if size (vol s) =? 0
                   then putVol (set_size (vol s) (computeSize (vol s) pools))
                   else ret tt) s = (Ok tt, s0)).
    { unfold s0, replicaSize. fold pools.
      destruct (size (vol s) =? 0) eqn:Hz; [reflexivity|].
      unfold ret. f_equal. destruct s as [v snt]. simpl. f_equal.
      now destruct v. }
    unfold bind at 1. rewrite Hs0. unfold bind at 1.
    destruct (createLoop env pools count [] s0) as [[[remaining errs]|e] s1];
      [|reflexivity].
    destruct (0 <? remaining); reflexivity. }
  rewrite Heq, Hl. cbn [app].
  exists att, rest, s'.
  split; [exact Hp|]. split; [exact Hs|]. split; [exact Hk|].
  split; [exact (conj Hgr Hbound)|].
  set (succ := successes _) in *.
  destruct (0 <? count - Z.of_nat succ) eqn:Hleft.
  - apply Z.ltb_lt in Hleft. right.
    destruct Hrest as [->|Hle]; [|lia].
    split; [reflexivity|]. split; [lia|]. reflexivity.
  - apply Z.ltb_ge in Hleft. left. split; [lia | reflexivity].
Qed.

(** A run of [_createReplicas] with too few candidate pools. *)
Lemma createReplicas_few (env : Env) (count : Z) (s : St) :
  Z.of_nat (List.length (candidatePools env (vol s))) < count ->
  _createReplicas env count s
  = (throwGrpc RESOURCE_EXHAUSTED
               "Cannot find suitable storage pool(s) for the volume", s).
Proof.
  intros Hfew. unfold _createReplicas. unfold bind at 1, getVol.
  apply Z.ltb_lt in Hfew. rewrite Hfew. reflexivity.
Qed.

(** The registry's choice for a volume with a replica on node1 holds
    the pools of node1 and node2; only the pool of node2 is a candidate. *)
Example candidatePools_skip_used_nodes :
  let v := set_replicas freshVolume
             [("node1", replicaOn "node1" REPLICA_NONE "ONLINE")] in
  map pool_node
      (registry_choosePools (obliging twoNodes) (requiredBytes v)
                            (requiredNodes v) (preferredNodes v))
  = ["node1"; "node2"]
  /\ map pool_node (candidatePools (obliging twoNodes) v) = ["node2"].
Proof. split; reflexivity. Qed.

(** C4. When [_createReplicas] must create [count] replicas, the
    candidates are the pools that [registry.choosePools(requiredBytes,
    requiredNodes, preferredNodes)] returns, in its order, without those
    on a node that is a key of [replicas]. With fewer than [count]
    candidates it fails with RESOURCE_EXHAUSTED, sends no request and
    leaves the volume as it was. Otherwise it sends a [CreateReplica] to
    candidates in order (a prefix [attempted] of the candidates), each one
    only while fewer than [count] creates have succeeded; it returns once
    [count] creates succeeded; and if the candidates run out before that,
    it fails with INTERNAL and a message that ends with the messages of
    all failed creates joined by ". ". *)
Theorem createReplicas_outcome (env : Env) (count : Z) (s : St) :
  (Z.of_nat (List.length
       (filter (fun p => negb (includes (keys (replicas (vol s))) (pool_node p)))
                (registry_choosePools env (requiredBytes (vol s))
                                      (requiredNodes (vol s))
                                      (preferredNodes (vol s)))))
   < count ->
   _createReplicas env count s
   = (throwGrpc RESOURCE_EXHAUSTED
                "Cannot find suitable storage pool(s) for the volume", s))
  /\ (count
      <= Z.of_nat (List.length
           (filter (fun p => negb (includes (keys (replicas (vol s))) (pool_node p)))
                    (registry_choosePools env (requiredBytes (vol s))
                                          (requiredNodes (vol s))
                                          (preferredNodes (vol s))))) ->
      exists attempted rest s',
        (filter (fun p => negb (includes (keys (replicas (vol s))) (pool_node p)))
                 (registry_choosePools env (requiredBytes (vol s))
                                       (requiredNodes (vol s))
                                       (preferredNodes (vol s))))
        = attempted ++ rest
        /\ sent s'
           = sent s ++ map (fun p => CreateReplica p (uuid (vol s))
                                                   (replicaSize env (vol s)))
                           attempted
        /\ (forall k, (k < List.length attempted)%nat ->
              Z.of_nat (successes (firstn k
                         (createReplies env (List.length (sent s)) attempted
                            (uuid (vol s)) (replicaSize env (vol s)))))
              < count)
        /\ ((count <= Z.of_nat (successes
                         (createReplies env (List.length (sent s)) attempted
                            (uuid (vol s)) (replicaSize env (vol s))))
             /\ _createReplicas env count s = (Ok tt, s'))
            \/ (rest = []
                /\ Z.of_nat (successes
                      (createReplies env (List.length (sent s)) attempted
                         (uuid (vol s)) (replicaSize env (vol s))))
                   < count
                /\ _createReplicas env count s
                   = (throwGrpc INTERNAL
                        ("Failed to create required number of replicas for volume "
                         ++ quoted (uuid (vol s)) ++ ": "
                         ++ join ". "
                              (errorMessages
                                 (createReplies env (List.length (sent s))
                                    attempted (uuid (vol s))
                                    (replicaSize env (vol s)))))%string,
                      s')))).
Proof.
  change (filter (fun p => negb (includes (keys (replicas (vol s))) (pool_node p)))
               (registry_choosePools env (requiredBytes (vol s))
                                     (requiredNodes (vol s))
                                     (preferredNodes (vol s))))
    with (candidatePools env (vol s)).
  split.
  - apply createReplicas_few.
  - intros Henough.
    destruct (createReplicas_enough env count s Henough)
      as [att [rest [s' [Hp [Hs [Hk [_ Hres]]]]]]].
    exists att, rest, s'. auto.
Qed.

Lemma fold_min_bounds (pools : list Pool) (acc : Z) :
  let m := fold_left (fun acc pool => Z.min acc (freeBytes pool)) pools acc in
  m <= acc
  /\ (forall q, In q pools -> m <= freeBytes q)
  /\ (m = acc \/ exists p, In p pools /\ m = freeBytes p).
Proof.
  revert acc. induction pools as [|p ps IH]; intros acc; simpl.
  - split; [lia|]. split; [tauto | now left].
  - destruct (IH (Z.min acc (freeBytes p))) as [Hle [Hall Hex]].
    split; [lia|]. split.
    + intros q [<-|Hq]; [lia | auto].
    + destruct Hex as [Heq|[p' [Hin Heq]]].
      * destruct (Z.min_spec acc (freeBytes p)) as [[_ E]|[_ E]];
          [left; congruence | right; exists p; split; [now left | congruence]].
      * right. exists p'. split; [now right | assumption].
Qed.

(** With safe-integer free space, [computeSize] is the minimum of the
    least free space among the pools and the byte limit. *)
Lemma computeSize_min (v : Volume) (pools : list Pool) :
  pools <> [] ->
  Forall (fun p => freeBytes p <= MAX_SAFE_INTEGER) pools ->
  exists p, In p pools
            /\ (forall q, In q pools -> freeBytes p <= freeBytes q)
            /\ computeSize v pools = Z.min (freeBytes p) (limitOrRequired v).
Proof.
  intros Hne Hsafe. unfold computeSize.
  destruct (fold_min_bounds pools MAX_SAFE_INTEGER) as [Hle [Hall Hex]].
  cbv zeta in *. rewrite Forall_forall in Hsafe.
  destruct Hex as [Heq|[p [Hin Heq]]].
  - destruct pools as [|p ps]; [congruence|]. exists p.
    assert (Hp : In p (p :: ps)) by now left.
    pose proof (Hsafe p Hp) as Hsp. pose proof (Hall p Hp) as Hap.
    assert (Hfp : freeBytes p = MAX_SAFE_INTEGER) by lia.
    split; [assumption|]. split.
    + intros q Hq. specialize (Hall q Hq). lia.
    + f_equal. lia.
  - exists p. split; [assumption|]. split.
    + intros q Hq. rewrite <- Heq. auto.
    + now rewrite Heq.
Qed.

(** C5. During replica replenishment with enough candidate pools (whose
    free space is a safe integer): a volume whose size is not set yet
    ([size = 0]) gets the minimum of the least free space among the
    candidate pools and of [limitBytes] if that is set (defined and not 0),
    [requiredBytes] otherwise; a size that is set is left as it is. This
    holds whether the creates then succeed or not. *)
Theorem createReplicas_fixes_size (env : Env) (count : Z) (s : St) :
  0 < count ->
  count <= Z.of_nat (List.length (candidatePools env (vol s))) ->
  Forall (fun p => freeBytes p <= MAX_SAFE_INTEGER) (candidatePools env (vol s)) ->
  (size (vol s) = 0 ->
   exists p,
     In p (candidatePools env (vol s))
     /\ (forall q, In q (candidatePools env (vol s)) ->
                   freeBytes p <= freeBytes q)
     /\ size (vol (snd (_createReplicas env count s)))
        = Z.min (freeBytes p)
                (match limitBytes (vol s) with
                 | Some l => if l =? 0 then requiredBytes (vol s) else l
                 | None => requiredBytes (vol s)
                 end))
  /\ (size (vol s) <> 0 ->
      size (vol (snd (_createReplicas env count s))) = size (vol s)).
Proof.
  intros Hpos Henough Hsafe.
  destruct (createReplicas_enough env count s Henough)
    as [att [rest [s' [Hp [_ [_ [[[Hg _] _] Hres]]]]]]].
  assert (Hsnd : snd (_createReplicas env count s) = s')
    by (destruct Hres as [[_ ->]|[_ [_ ->]]]; reflexivity).
  rewrite Hsnd.
  assert (Hsize : size (vol s') = replicaSize env (vol s))
    by (rewrite Hg; reflexivity).
  rewrite Hsize. unfold replicaSize. split.
  - intros Hz. rewrite Hz. simpl.
    assert (Hne : candidatePools env (vol s) <> []).
    { intros E. rewrite E in Henough. simpl in Henough. lia. }
    destruct (computeSize_min (vol s) _ Hne Hsafe) as [p [Hin [Hmin Heq]]].
    exists p. split; [assumption|]. split; [assumption|]. exact Heq.
  - intros Hnz. destruct (Z.eqb_spec (size (vol s)) 0); [contradiction|].
    reflexivity.
Qed.

(** *** Share protocols *)

Lemma lookup_assign_same {A} (k : string) (a : A) (m : list (string * A)) :
  lookup k (assign k a m) = Some a.
Proof.
  induction m as [|[k0 a0] m IH]; simpl.
  - now rewrite String.eqb_refl.
  - destruct (String.eqb_spec k k0) as [->|Hne]; simpl.
    + now rewrite String.eqb_refl.
    + destruct (String.eqb_spec k k0); [contradiction | assumption].
Qed.

Lemma In_assign_inv {A} (k : string) (a : A) (m : list (string * A))
      (k' : string) (a' : A) :
  k' <> k -> In (k', a') (assign k a m) -> In (k', a') m.
Proof.
  intros Hne Hin. apply In_assign in Hin. destruct Hin as [[-> _]|Hin];
    [contradiction | assumption].
Qed.

Lemma wellFormed_unique (v : Volume) (k : string) (a b : Replica) :
  wellFormed v -> In (k, a) (replicas v) -> In (k, b) (replicas v) -> a = b.
Proof.
  intros [_ Hnd] Ha Hb.
  apply (In_lookup k a _ Hnd) in Ha. apply (In_lookup k b _ Hnd) in Hb.
  congruence.
Qed.

Lemma sameReplica_refl (r : Replica) : sameReplica r r = true.
Proof. unfold sameReplica. now rewrite !String.eqb_refl. Qed.

Lemma sameReplica_setShare (r : Replica) (sh : Share) (uri : string) :
  sameReplica r (mkReplica (r_uuid r) (r_node r) (r_pool r) (r_size r) sh uri
                           (r_state r)) = true.
Proof. unfold sameReplica. simpl. now rewrite !String.eqb_refl. Qed.

(** A replica whose record the volume already holds is not news. *)
Lemma aliasReplica_known (r : Replica) (v : Volume) :
  lookup (r_node r) (replicas v) = Some r -> aliasReplica r v = v.
Proof.
  intros Hlk. unfold aliasReplica. rewrite Hlk, sameReplica_refl.
  rewrite (assign_lookup _ _ _ Hlk). apply set_replicas_same.
Qed.

(** A successful [setShare] on a replica of the volume puts the replica
    with its new share in the volume's map, in place of the old record. *)
Lemma Replica_setShare_ok (env : Env) (r r' : Replica) (sh : Share) (s s' : St) :
  wellFormed (vol s) ->
  In (r_node r, r) (replicas (vol s)) ->
  Replica_setShare env r sh s = (Ok r', s') ->
  (exists uri, r' = mkReplica (r_uuid r) (r_node r) (r_pool r) (r_size r) sh
                              uri (r_state r))
  /\ vol s' = set_replicas (vol s) (assign (r_node r) r' (replicas (vol s))).
Proof.
  intros Hwf Hin. unfold Replica_setShare, bind, call, mutate, deliver, ret.
  destruct (shareReplica_reply env (List.length (sent s)) r sh) as [uri|e];
    [|discriminate].
  cbn [vol sent].
  set (r1 := mkReplica (r_uuid r) (r_node r) (r_pool r) (r_size r) sh uri
                       (r_state r)).
  assert (Hlk : lookup (r_node r1) (replicas (vol s)) = Some r)
    by (apply In_lookup; [apply Hwf | exact Hin]).
  assert (Hal : aliasReplica r1 (vol s)
                = set_replicas (vol s) (assign (r_node r) r1 (replicas (vol s)))).
  { unfold aliasReplica. rewrite Hlk.
    now rewrite (sameReplica_setShare r sh uri : sameReplica r r1 = true). }
  rewrite Hal.
  set (va := set_replicas (vol s) (assign (r_node r) r1 (replicas (vol s)))).
  assert (Hlk1 : lookup (r_node r1) (replicas va) = Some r1)
    by apply lookup_assign_same.
  assert (Hmod : forall v1, modReplica va r1 = Ok v1 -> v1 = va).
  { intros v1. unfold modReplica, get.
    rewrite (aliasReplica_known r1 va Hlk1).
    destruct (negb _); [discriminate|].
    rewrite Hlk1, sameReplica_refl. intros H. now inversion H. }
  destruct (modReplica va r1) as [v1|e] eqn:E; [|discriminate].
  intros H. inversion H; subst r' s'. cbn [vol].
  split; [exists uri; reflexivity | now apply Hmod].
Qed.

Lemma wantedShare_fits (node : string) (r : Replica) (uri : string) :
  match wantedShare node r with
  | Some sh =>
      shareFits node (mkReplica (r_uuid r) (r_node r) (r_pool r) (r_size r) sh
                                uri (r_state r))
  | None => shareFits node r
  end.
Proof.
  unfold wantedShare, shareFits.
  destruct (String.eqb_spec (r_node r) node) as [Heq|Hne];
    destruct (r_share r) eqn:Hs; simpl; split; intros; try congruence; auto.
Qed.

(** One turn of the loop of [_ensureReplicaShareProtocols]. *)
Lemma share_step (env : Env) (node : string) (r r' : Replica) (s s' : St) :
  wellFormed (vol s) ->
  In (r_node r, r) (replicas (vol s)) ->
  match wantedShare node r with
  | Some share =>
      try_catch (Replica_setShare env r share)
        (fun err =>
           throwError INTERNAL
             ("Failed to set share pcol to " ++ Share_toString share
              ++ " for replica " ++ quoted (replica_toString env r)
              ++ ": " ++ error_toString env err)%string)
  | None => ret r
  end s = (Ok r', s') ->
  shareFits node r' /\ r_node r' = r_node r
  /\ vol s' = set_replicas (vol s) (assign (r_node r) r' (replicas (vol s))).
Proof.
  intros Hwf Hin. pose proof (wantedShare_fits node r) as Hfit.
  destruct (wantedShare node r) as [sh|].
  - unfold try_catch.
    destruct (Replica_setShare env r sh s) as [[r1|e] s1] eqn:E;
      [|discriminate].
    intros H. inversion H; subst r1 s1.
    apply (Replica_setShare_ok env r r' sh s s' Hwf Hin) in E.
    destruct E as [[uri ->] Hv]. split; [apply Hfit|].
    split; [reflexivity | exact Hv].
  - intros H. inversion H; subst r' s'. split; [exact (Hfit "")|].
    split; [reflexivity|].
    rewrite (assign_lookup (r_node r) r (replicas (vol s))).
    + symmetry. apply set_replicas_same.
    + apply In_lookup; [apply Hwf | exact Hin].
Qed.

Lemma shareLoop_fits (env : Env) (node : string) :
  forall (rs : list Replica) (s : St) (rs' : list Replica) (s' : St),
  wellFormed (vol s) ->
  NoDup (map r_node rs) ->
  (forall r, In r rs -> In (r_node r, r) (replicas (vol s))) ->
  shareLoop env node rs s = (Ok rs', s') ->
  wellFormed (vol s')
  /\ vol s' = set_replicas (vol s) (replicas (vol s'))
  /\ (forall k a, In (k, a) (replicas (vol s')) ->
                  (In k (map r_node rs) /\ shareFits node a)
                  \/ (~ In k (map r_node rs) /\ In (k, a) (replicas (vol s)))).
Proof.
  induction rs as [|r rest IH]; intros s rs' s' Hwf Hnd Hin.
  - simpl. unfold ret. intros H. inversion H; subst.
    split; [assumption|]. split; [symmetry; apply set_replicas_same|].
    intros k a Hka. right. simpl. tauto.
  - cbn [shareLoop]. unfold bind at 1.
    match goal with
    | |- context [match ?step s with _ => _ end] =>
        destruct (step s) as [[r1|e] s1] eqn:Estep; [|discriminate]
    end.
    apply (share_step env node r r1 s s1 Hwf (Hin r (or_introl eq_refl)))
      in Estep.
    destruct Estep as [Hfit [Hnode Hv1]].
    assert (Hwf1 : wellFormed (vol s1)).
    { rewrite Hv1, <- Hnode. now apply wellFormed_assign. }
    assert (Hr1 : In (r_node r, r1) (replicas (vol s1))).
    { rewrite Hv1. cbn [replicas set_replicas]. apply In_assign_same. }
    inversion Hnd as [|? ? Hnotin Hnd']; subst.
    assert (Hin1 : forall r2, In r2 rest ->
                              In (r_node r2, r2) (replicas (vol s1))).
    { intros r2 Hr2. rewrite Hv1. cbn [replicas set_replicas].
      apply In_assign_other; [|apply Hin; now right].
      intros Heq. apply Hnotin. rewrite <- Heq. now apply in_map. }
    unfold bind at 1.
    destruct (shareLoop env node rest s1) as [[rest'|e] s2] eqn:Erest;
      [|discriminate].
    unfold ret. intros H. inversion H; subst rs' s'.
    destruct (IH s1 rest' s2 Hwf1 Hnd' Hin1 Erest) as [Hwf2 [Hv2 Hcl]].
    split; [assumption|]. split.
    { rewrite Hv2 at 1. rewrite Hv1. reflexivity. }
    intros k a Hka. destruct (Hcl k a Hka) as [[Hk Hf]|[Hk Hold]].
    + left. split; [now right | assumption].
    + destruct (String.eqb_spec k (r_node r)) as [->|Hne].
      * left. split; [now left|].
        now rewrite (wellFormed_unique (vol s1) (r_node r) a r1 Hwf1 Hold Hr1).
      * right. split.
        -- simpl. intros [Heq|Hk']; [congruence | contradiction].
        -- rewrite Hv1 in Hold. cbn [replicas set_replicas] in Hold.
           now apply In_assign_inv in Hold.
Qed.

(** *** Sorting keeps the elements *)

Lemma insert_perm {A} (cmp : A -> A -> comparison) (x : A) (l : list A) :
  Permutation (Registry.insert cmp x l) (x :: l).
Proof.
  induction l as [|y l IH]; simpl; [reflexivity|].
  destruct (cmp x y); try reflexivity.
  rewrite IH. apply perm_swap.
Qed.

Lemma sort_perm {A} (cmp : A -> A -> comparison) (l : list A) :
  Permutation (Registry.sort cmp l) l.
Proof.
  induction l as [|x l IH]; simpl; [reflexivity|].
  rewrite insert_perm. now constructor.
Qed.

Lemma spliceFrom_all {A} (n : Z) (l : list A) :
  Z.of_nat (List.length l) <= n -> spliceFrom n l = l.
Proof.
  intros Hle. unfold spliceFrom.
  destruct (n <? 0) eqn:E; [apply Z.ltb_lt in E; lia|].
  rewrite Z.min_r by lia. rewrite Nat2Z.id. apply firstn_all.
Qed.

Lemma wellFormed_nodes (v : Volume) :
  wellFormed v -> map r_node (values (replicas v)) = keys (replicas v).
Proof.
  intros [Hk _]. unfold values, keys. rewrite map_map.
  apply map_ext_in. intros kr Hkr. rewrite Forall_forall in Hk. auto.
Qed.

Lemma wellFormed_In_values (v : Volume) (r : Replica) :
  wellFormed v -> In r (values (replicas v)) -> In (r_node r, r) (replicas v).
Proof.
  intros [Hk _] Hr. unfold values in Hr. apply in_map_iff in Hr.
  destruct Hr as [[k a] [Heq Hin]]. simpl in Heq. subst a.
  rewrite Forall_forall in Hk. specialize (Hk _ Hin). simpl in Hk.
  now rewrite Hk.
Qed.

(** [_ensureReplicaShareProtocols] on a volume without excess replicas:
    afterwards the share of every replica of the volume fits the node of
    the nexus, or the node of the most preferred replica if there is no
    nexus yet. *)
Lemma ensureReplicaShareProtocols_fits
      (env : Env) (s : St) (rs' : list Replica) (s' : St) :
  wellFormed (vol s) ->
  Z.of_nat (List.length (replicas (vol s))) <= replicaCount (vol s) ->
  _ensureReplicaShareProtocols env s = (Ok rs', s') ->
  exists node,
    (forall nx, nexus (vol s) = Some nx -> node = n_node nx)
    /\ wellFormed (vol s')
    /\ vol s' = set_replicas (vol s) (replicas (vol s'))
    /\ Forall (shareFits node) (values (replicas (vol s'))).
Proof.
  intros Hwf Hlen. unfold _ensureReplicaShareProtocols.
  unfold bind at 1, getVol.
  pose proof (sort_perm
                (fun a b => Z.compare (_scoreReplica (vol s) b)
                                      (_scoreReplica (vol s) a))
                (values (replicas (vol s)))) as Hperm.
  fold (_prioritizeReplicas (vol s)) in Hperm.
  destruct (_prioritizeReplicas (vol s)) as [|r0 tl] eqn:Esort;
    [discriminate|].
  cbv zeta. rewrite spliceFrom_all.
  2:{ rewrite (Permutation_length Hperm). unfold values.
      now rewrite length_map. }
  assert (Hnd : NoDup (map r_node (r0 :: tl))).
  { apply (Permutation_NoDup (l := map r_node (values (replicas (vol s))))).
    - apply Permutation_map. now symmetry.
    - rewrite wellFormed_nodes by assumption. apply Hwf. }
  assert (Hin : forall r, In r (r0 :: tl) ->
                          In (r_node r, r) (replicas (vol s))).
  { intros r Hr. apply wellFormed_In_values; [assumption|].
    eapply Permutation_in; eassumption. }
  assert (Hall : forall k a, In (k, a) (replicas (vol s)) ->
                             In k (map r_node (r0 :: tl))).
  { intros k a Hka.
    assert (Ha : In a (r0 :: tl)).
    { eapply Permutation_in; [symmetry; eassumption|].
      unfold values. apply in_map_iff. now exists (k, a). }
    destruct Hwf as [Hk _]. rewrite Forall_forall in Hk.
    specialize (Hk _ Hka). simpl in Hk. rewrite <- Hk. now apply in_map. }
  set (node := match nexus (vol s) with
               | Some nx => n_node nx
               | None => r_node r0
               end).
  assert (Hloop : shareLoop env node (r0 :: tl) s = (Ok rs', s') ->
                  exists node0,
                    (forall nx, nexus (vol s) = Some nx -> node0 = n_node nx)
                    /\ wellFormed (vol s')
                    /\ vol s' = set_replicas (vol s) (replicas (vol s'))
                    /\ Forall (shareFits node0) (values (replicas (vol s')))).
  { intros Hrun.
    destruct (shareLoop_fits env node _ s rs' s' Hwf Hnd Hin Hrun)
      as [Hwf' [Hv' Hcl]].
    exists node. split.
    { intros nx Hnx. unfold node. now rewrite Hnx. }
    split; [assumption|]. split; [assumption|].
    apply Forall_forall. intros a Ha. unfold values in Ha.
    apply in_map_iff in Ha. destruct Ha as [[k a'] [Heq Hka]].
    simpl in Heq. subst a'.
    destruct (Hcl k a Hka) as [[_ Hf]|[Hnot Hold]]; [assumption|].
    exfalso. apply Hnot. eapply Hall. eassumption. }
  unfold node in Hloop. destruct (nexus (vol s)); exact Hloop.
Qed.

(** *** Invariants of the volume along a computation *)

Section Preserves.

Variable I : Volume -> Prop.

Lemma preserves_ret {A} (a : A) : preserves I (ret a).
Proof. intros s H. exact H. Qed.

Lemma preserves_throw {A} (e : Exn) : preserves I (@throw A e).
Proof. intros s H. exact H. Qed.

Lemma preserves_throwError {A} (c : GrpcCode) (msg : string) :
  preserves I (@throwError A c msg).
Proof. intros s H. exact H. Qed.

Lemma preserves_call {A} (rq : Request) (reply : nat -> Result A) :
  preserves I (call rq reply).
Proof. intros s H. exact H. Qed.

Lemma preserves_bind {A B} (m : M A) (k : A -> M B) :
  preserves I m -> (forall a, preserves I (k a)) -> preserves I (bind m k).
Proof.
  intros Hm Hk s H. unfold bind. specialize (Hm s H).
  destruct (m s) as [[a|e] s1]; simpl in *; [apply Hk; assumption | assumption].
Qed.

Lemma preserves_getVol {B} (k : Volume -> M B) :
  (forall v, preserves I (k v)) -> preserves I (bind getVol k).
Proof. intros Hk s H. unfold bind, getVol. now apply Hk. Qed.

Lemma preserves_try_catch {A} (m : M A) (h : Exn -> M A) :
  preserves I m -> (forall e, preserves I (h e)) ->
  preserves I (try_catch m h).
Proof.
  intros Hm Hh s H. unfold try_catch. specialize (Hm s H).
  destruct (m s) as [[a|e] s1]; simpl in *; [assumption | apply Hh; assumption].
Qed.

Lemma preserves_mutate (f : Volume -> Volume) :
  (forall v, I v -> I (f v)) -> preserves I (mutate f).
Proof. intros Hf s H. now apply Hf. Qed.

Lemma preserves_deliver (handler : Volume -> Result Volume) :
  (forall v v', I v -> handler v = Ok v' -> I v') ->
  preserves I (deliver handler).
Proof.
  intros Hh s H. unfold deliver.
  destruct (handler (vol s)) as [v'|e] eqn:E; simpl; eauto.
Qed.

End Preserves.

(** *** The nexus stays on its node *)

Lemma sameNexus_node (a b : Nexus) : sameNexus a b = true -> n_node a = n_node b.
Proof.
  unfold sameNexus. rewrite andb_true_iff. intros [H _].
  now apply String.eqb_eq.
Qed.

Lemma modNexus_nexusOnNode (R : list (string * Replica)) (N : string)
      (nx : Nexus) (v v' : Volume) :
  nexusOnNode R N v -> modNexus v nx = Ok v' -> nexusOnNode R N v'.
Proof.
  intros [HR [n [Hn HN]]]. unfold modNexus, aliasNexus. rewrite Hn.
  destruct (sameNexus n nx) eqn:Es.
  - cbn [uuid set_nexus nexus]. destruct (negb _); [discriminate|].
    destruct (sameNexus nx nx); [|discriminate].
    intros H. inversion H; subst v'. split; [exact HR|].
    exists nx. split; [reflexivity|]. apply sameNexus_node in Es. congruence.
  - destruct (negb _); [discriminate|]. rewrite Hn, Es. discriminate.
Qed.

Lemma aliasNexus_nexusOnNode (R : list (string * Replica)) (N : string)
      (nx : Nexus) (v : Volume) :
  nexusOnNode R N v -> nexusOnNode R N (aliasNexus nx v).
Proof.
  intros [HR [n [Hn HN]]]. unfold aliasNexus. rewrite Hn.
  destruct (sameNexus n nx) eqn:Es.
  - split; [exact HR|]. exists nx. split; [reflexivity|].
    apply sameNexus_node in Es. congruence.
  - split; [exact HR|]. exists n. auto.
Qed.

Lemma Nexus_removeReplica_preserves (env : Env) (R : list (string * Replica))
      (N : string) (nx : Nexus) (r : Replica) :
  preserves (nexusOnNode R N) (Nexus_removeReplica env nx r).
Proof.
  unfold Nexus_removeReplica.
  apply preserves_bind; [apply preserves_call|]. intros _.
  apply preserves_bind;
    [apply preserves_mutate; intros v; apply aliasNexus_nexusOnNode|].
  intros _. apply preserves_bind; [|intros; apply preserves_ret].
  apply preserves_deliver. intros v v' Hv. apply modNexus_nexusOnNode. exact Hv.
Qed.

Lemma Nexus_addReplica_preserves (env : Env) (R : list (string * Replica))
      (N : string) (nx : Nexus) (r : Replica) :
  preserves (nexusOnNode R N) (Nexus_addReplica env nx r).
Proof.
  unfold Nexus_addReplica.
  apply preserves_bind; [apply preserves_call|]. intros st.
  apply preserves_bind;
    [apply preserves_mutate; intros v; apply aliasNexus_nexusOnNode|].
  intros _. apply preserves_bind; [|intros; apply preserves_ret].
  apply preserves_deliver. intros v v' Hv. apply modNexus_nexusOnNode. exact Hv.
Qed.

Lemma removeLoop_preserves (env : Env) (R : list (string * Replica)) (N : string) :
  forall oldUris newUris nx,
    preserves (nexusOnNode R N) (removeLoop env oldUris newUris nx).
Proof.
  induction oldUris as [|uri rest IH]; intros newUris nx; cbn [removeLoop].
  - apply preserves_ret.
  - destruct (includes newUris uri); [apply IH|].
    apply preserves_getVol. intros v.
    destruct (findByUri v uri) as [replica|]; [|now apply IH].
    apply preserves_bind; [|intros; apply IH].
    apply preserves_try_catch;
      [apply Nexus_removeReplica_preserves | intros; apply preserves_ret].
Qed.

Lemma addLoop_preserves (env : Env) (R : list (string * Replica)) (N : string) :
  forall newUris nx, preserves (nexusOnNode R N) (addLoop env newUris nx).
Proof.
  induction newUris as [|uri rest IH]; intros nx; cbn [addLoop].
  - apply preserves_ret.
  - apply preserves_getVol. intros v.
    destruct (findByUri v uri) as [replica|]; [|now apply IH].
    apply preserves_bind; [|intros; apply IH].
    apply preserves_try_catch;
      [apply Nexus_addReplica_preserves | intros; apply preserves_throwError].
Qed.

Lemma shareFits_local (node : string) (r : Replica) :
  shareFits node r -> r_share r = REPLICA_NONE -> r_node r = node.
Proof.
  intros [_ Hremote] Hnone.
  destruct (String.eqb_spec (r_node r) node) as [|Hne]; [assumption|].
  destruct (Hremote Hne); congruence.
Qed.

(** After [_ensureNexus] the volume has a nexus on the node the share
    protocols were set for, and the replicas it had. *)
Lemma ensureNexus_node (env : Env) (rs : list Replica) (s s' : St)
      (node : string) :
  Forall (shareFits node) (values (replicas (vol s))) ->
  (forall nx, nexus (vol s) = Some nx -> node = n_node nx) ->
  _ensureNexus env rs s = (Ok tt, s') ->
  nexusOnNode (replicas (vol s)) node (vol s').
Proof.
  intros Hfit Hnode. unfold _ensureNexus. unfold bind at 1, getVol.
  destruct (nexus (vol s)) as [nx|] eqn:Hnx.
  - intros Hrun.
    assert (Hpres : preserves (nexusOnNode (replicas (vol s)) node)
              (bind (removeLoop env
                       (Registry.sort String.compare (map ch_uri (n_children nx)))
                       (Registry.sort String.compare (map r_uri rs)) nx)
                    (fun res =>
                       let (newUris', nx') := res : list string * Nexus in
                       bind (addLoop env newUris' nx') (fun _ => ret tt)))).
    { apply preserves_bind; [apply removeLoop_preserves|].
      intros [newUris' nx'].
      apply preserves_bind; [apply addLoop_preserves|].
      intros; apply preserves_ret. }
    specialize (Hpres s). rewrite Hrun in Hpres. apply Hpres.
    split; [reflexivity|]. exists nx. split; [assumption|].
    symmetry. now apply Hnode.
  - destruct (find (fun r => Share_eqb (r_share r) REPLICA_NONE)
                   (values (replicas (vol s)))) as [localReplica|] eqn:Hfind;
      [|discriminate].
    apply find_some in Hfind. destruct Hfind as [Hin Hshare].
    assert (Hlocal : r_node localReplica = node).
    { rewrite Forall_forall in Hfit. apply shareFits_local; [auto|].
      destruct (r_share localReplica); simpl in Hshare; congruence. }
    unfold Node_createNexus, bind, call, deliver, ret, getVol, putVol.
    destruct (createNexus_reply env _ _ _ _ _) as [reply|e]; [|discriminate].
    cbn [vol sent]. unfold newNexus, aliasNexus. rewrite Hnx.
    cbn [n_uuid]. rewrite String.eqb_refl. cbn [negb]. rewrite Hnx.
    cbn [vol sent]. intros H. inversion H; subst s'. cbn [vol].
    split; [reflexivity|]. eexists. split; [reflexivity|]. exact Hlocal.
Qed.

(** *** Trimming *)

Lemma delReplica_trimmed (G : list Replica) (NX : option Nexus)
      (r : Replica) (v v' : Volume) :
  In r G -> trimmed G NX v -> delReplica v r = Ok v' -> trimmed G NX v'.
Proof.
  intros Hr [Hnx Hsub]. unfold delReplica, get.
  destruct (aliasReplica_spec r v) as [Ea [_ [_ Hcl]]].
  set (va := aliasReplica r v) in *.
  assert (Hva : trimmed G NX va).
  { split; [rewrite Ea; exact Hnx|].
    intros a Ha. unfold values in Ha. apply in_map_iff in Ha.
    destruct Ha as [[k a'] [Heq Hka]]. simpl in Heq. subst a'.
    destruct (Hcl k a Hka) as [[_ ->]|Hold]; [assumption|].
    apply Hsub. unfold values. apply in_map_iff. now exists (k, a). }
  destruct (negb _); [discriminate|].
  destruct (lookup (r_node r) (replicas va)) as [r0|].
  - destruct (sameReplica r0 r); [|discriminate].
    intros H. inversion H; subst v'. destruct Hva as [Hn Hs].
    split; [exact Hn|]. cbn [replicas set_replicas].
    intros a Ha. unfold values in Ha. apply in_map_iff in Ha.
    destruct Ha as [[k a'] [Heq Hka]]. simpl in Heq. subst a'.
    apply In_remove in Hka. apply Hs. unfold values. apply in_map_iff.
    now exists (k, a).
  - destruct (includes objectPrototypeKeys (r_node r)); [discriminate|].
    intros H. inversion H; subst v'. exact Hva.
Qed.

Lemma destroyAll_preserves (env : Env) (G : list Replica) (NX : option Nexus) :
  forall rs, (forall r, In r rs -> In r G) ->
             preserves (trimmed G NX) (destroyAll env rs).
Proof.
  induction rs as [|r rest IH]; intros Hsub; cbn [destroyAll].
  - apply preserves_ret.
  - apply preserves_bind; [|intros; apply IH; intros; apply Hsub; now right].
    apply preserves_try_catch; [|intros; apply preserves_ret].
    unfold Replica_destroy.
    apply preserves_bind.
    + apply preserves_try_catch; [apply preserves_call|].
      intros e. destruct (isNotFound e);
        [apply preserves_ret | apply preserves_throw].
    + intros _. apply preserves_deliver. intros v v' Hv.
      apply delReplica_trimmed; [apply Hsub; now left | exact Hv].
Qed.

(** *** What [ensure] leaves behind *)

(** C3, as stated, fails for a replica that is already shared over iSCSI:
    the volume has its nexus on node1, a replica on node1 with share
    REPLICA_NONE and a replica on node2 with share REPLICA_ISCSI, both
    children of the nexus. [ensure] returns successfully without sending
    one request, and the replica on node2 keeps REPLICA_ISCSI. *)
Lemma ensure_keeps_iscsi_share :
  run (ensure (obliging twoNodes)) iscsiVolume = (Ok tt, iscsiVolume)
  /\ requests (ensure (obliging twoNodes)) iscsiVolume = []
  /\ option_map n_node (nexus iscsiVolume) = Some "node1"
  /\ option_map r_share (lookup "node2" (replicas iscsiVolume))
     = Some REPLICA_ISCSI.
Proof. repeat split. Qed.

(** C3, amended. For every volume whose replica map is well formed and
    holds no more than [replicaCount] replicas when [ensure] starts:
    whenever [ensure] returns successfully, the volume has a nexus, each
    replica of the volume on the node of the nexus has share REPLICA_NONE,
    and each replica on any other node has share REPLICA_NVMF or
    REPLICA_ISCSI. *)
Theorem ensure_share_protocols (env : Env) (s s' : St) :
  wellFormed (vol s) ->
  Z.of_nat (List.length (replicas (vol s))) <= replicaCount (vol s) ->
  ensure env s = (Ok tt, s') ->
  exists nx,
    nexus (vol s') = Some nx
    /\ Forall (shareFits (n_node nx)) (values (replicas (vol s'))).
Proof.
  intros Hwf Hlen. unfold ensure. unfold bind at 1, getVol.
  set (missing := replicaCount (vol s) - Z.of_nat (List.length (replicas (vol s)))).
  (* replenish *)
  unfold bind at 1.
  destruct ((if 0 <? missing then _createReplicas env missing else ret tt) s)
    as [[[]|e] s1] eqn:E1; [|discriminate].
  assert (H1 : wellFormed (vol s1)
               /\ Z.of_nat (List.length (replicas (vol s1)))
                  <= replicaCount (vol s1)
               /\ nexus (vol s1) = nexus (vol s)).
  { destruct (0 <? missing) eqn:Hm.
    - apply Z.ltb_lt in Hm.
      pose proof (createReplicas_few env missing s) as Hfew.
      destruct (Z.le_gt_cases missing
                  (Z.of_nat (List.length (candidatePools env (vol s)))))
        as [Henough|Hlt].
      + destruct (createReplicas_enough env missing s Henough)
          as [att [rest [s2 [_ [_ [_ [[[Eg [Wg Lg]] Hb] Hres]]]]]]].
        assert (s2 = s1)
          by (destruct Hres as [[_ Hr]|[_ [_ Hr]]]; rewrite Hr in E1;
              inversion E1; reflexivity).
        subst s2. specialize (Hb ltac:(lia)).
        split; [apply Wg; exact Hwf|]. rewrite Eg.
        cbn [replicaCount nexus set_replicas set_size replicas] in *.
        split; [unfold missing in Hb; lia | reflexivity].
      + rewrite (Hfew ltac:(lia)) in E1. discriminate.
    - unfold ret in E1. inversion E1; subst s1. auto. }
  destruct H1 as [Hwf1 [Hlen1 Hnx1]].
  (* share protocols *)
  unfold bind at 1.
  destruct (_ensureReplicaShareProtocols env s1) as [[rs|e] s2] eqn:E2;
    [|discriminate].
  destruct (ensureReplicaShareProtocols_fits env s1 rs s2 Hwf1 Hlen1 E2)
    as [node [Hnode [Hwf2 [Hv2 Hfit2]]]].
  assert (Hnode2 : forall nx, nexus (vol s2) = Some nx -> node = n_node nx).
  { intros nx. rewrite Hv2. cbn [nexus set_replicas]. apply Hnode. }
  (* nexus *)
  unfold bind at 1.
  destruct (_ensureNexus env rs s2) as [[[]|e] s3] eqn:E3; [|discriminate].
  destruct (ensureNexus_node env rs s2 s3 node Hfit2 Hnode2 E3)
    as [HR3 [nx [Hnx3 HN3]]].
  (* trim *)
  unfold bind at 1, getVol. rewrite Hnx3.
  intros E4.
  set (G := values (replicas (vol s3))).
  pose proof (destroyAll_preserves env G (Some nx)
                (filter (fun r => negb (includes (map ch_uri (n_children nx))
                                                 (r_uri r))) G)
                (fun r Hr => proj1 (proj1 (filter_In _ _ _) Hr)) s3) as Hpres.
  fold G in E4. rewrite E4 in Hpres. cbn [snd] in Hpres.
  destruct Hpres as [Hnx4 Hsub]; [split; [assumption | auto]|].
  exists nx. split; [assumption|]. rewrite HN3.
  apply Forall_forall. intros a Ha. apply Hsub in Ha.
  unfold G in Ha. rewrite HR3 in Ha.
  rewrite Forall_forall in Hfit2. auto.
Qed.

Lemma ensure_share_protocols_witness :
  wellFormed freshVolume
  /\ exists nx,
       nexus (vol (snd (ensure (obliging twoNodes) (mkSt freshVolume []))))
       = Some nx
       /\ Forall (shareFits (n_node nx))
                 (values (replicas (vol (snd (ensure (obliging twoNodes)
                                                     (mkSt freshVolume [])))))).
Proof.
  assert (Hwf : wellFormed freshVolume) by (split; constructor).
  split; [exact Hwf|].
  refine (ensure_share_protocols (obliging twoNodes) (mkSt freshVolume [])
            (snd (ensure (obliging twoNodes) (mkSt freshVolume []))) Hwf _ _).
  - vm_compute. discriminate.
  - vm_compute. reflexivity.
Defined.

Lemma createReplicas_fixes_size_witness :
  size freshVolume = 0
  /\ exists p,
       In p (candidatePools (obliging twoNodes) freshVolume)
       /\ (forall q, In q (candidatePools (obliging twoNodes) freshVolume) ->
                     freeBytes p <= freeBytes q)
       /\ size (vol (snd (_createReplicas (obliging twoNodes) 2
                                         (mkSt freshVolume []))))
          = Z.min (freeBytes p) 64.
Proof.
  split; [reflexivity|].
  refine (proj1 (createReplicas_fixes_size (obliging twoNodes) 2
                   (mkSt freshVolume []) eq_refl _ _) eq_refl).
  - vm_compute. discriminate.
  - repeat constructor; vm_compute; discriminate.
Defined.

(** *** Runs of the reconciler on the fixtures *)

(** Scenario 5 of the spec: two replicas, one per node, and the nexus on
    the node of the first one. *)
Example ensure_creates_volume :
  fst (run (ensure (obliging twoNodes)) freshVolume) = Ok tt
  /\ map (fun kr => (fst kr, r_share (snd kr)))
         (replicas (snd (run (ensure (obliging twoNodes)) freshVolume)))
     = [("node1", REPLICA_NONE); ("node2", REPLICA_NVMF)]
  /\ option_map n_node (nexus (snd (run (ensure (obliging twoNodes))
                                        freshVolume)))
     = Some "node1"
  /\ size (snd (run (ensure (obliging twoNodes)) freshVolume)) = 64.
Proof. repeat split. Qed.

Example createReplicas_exhausted :
  run (_createReplicas (obliging twoNodes) 3) freshVolume
  = (throwGrpc RESOURCE_EXHAUSTED
               "Cannot find suitable storage pool(s) for the volume",
     freshVolume)
  /\ requests (_createReplicas (obliging twoNodes) 3) freshVolume = [].
Proof. split; reflexivity. Qed.

Example createReplicas_joins_messages :
  fst (run (_createReplicas (nodesFailingOn ["node1"; "node2"] twoNodes) 2)
           freshVolume)
  = throwGrpc INTERNAL
      ("Failed to create required number of replicas for volume "
       ++ quoted UUID ++ ": no space on node1. no space on node2")
  /\ List.length (requests (_createReplicas
                              (nodesFailingOn ["node1"; "node2"] twoNodes) 2)
                           freshVolume) = 2%nat.
Proof. split; reflexivity. Qed.

Example createReplicas_tries_next_pool :
  fst (run (_createReplicas (nodesFailingOn ["node1"] twoNodes) 1) freshVolume)
  = Ok tt
  /\ keys (replicas (snd (run (_createReplicas
                                 (nodesFailingOn ["node1"] twoNodes) 1)
                              freshVolume))) = ["node2"]
  /\ List.length (requests (_createReplicas
                              (nodesFailingOn ["node1"] twoNodes) 1)
                           freshVolume) = 2%nat.
Proof. repeat split. Qed.

Example createReplicas_stops_when_done :
  fst (run (_createReplicas (obliging twoNodes) 1) freshVolume) = Ok tt
  /\ keys (replicas (snd (run (_createReplicas (obliging twoNodes) 1)
                              freshVolume))) = ["node1"]
  /\ List.length (requests (_createReplicas (obliging twoNodes) 1) freshVolume)
     = 1%nat.
Proof. repeat split. Qed.

(** With an excess replica and no nexus, [_ensureNexus] takes the first
    replica whose share is REPLICA_NONE, which need not be the one the
    share protocols were set for: here the nexus is created on nodeA, the
    node of the excess replica, and the replica on nodeB, its only child,
    keeps REPLICA_NONE. The volumes of [ensure_share_protocols] have no
    excess replica. *)
Example ensure_excess_replica_hosts_nexus :
  fst (run (ensure (obliging twoNodes)) excessVolume) = Ok tt
  /\ option_map n_node (nexus (snd (run (ensure (obliging twoNodes))
                                        excessVolume)))
     = Some "nodeA"
  /\ option_map r_share
       (lookup "nodeB" (replicas (snd (run (ensure (obliging twoNodes))
                                           excessVolume))))
     = Some REPLICA_NONE.
Proof. repeat split. Qed.

End EnsureProps.

(* ------------------------------------------------------------------ *)
(** ** Properties of the remaining CSI handlers                        *)
(* ------------------------------------------------------------------ *)

Module CsiMoreProps.

Import Common Csi CsiMore Fixtures Scenarios.

(** *** Capabilities *)

Lemma checkEach_all (l : list VolumeCapability) :
  checkEach l = None <-> forallb singleNodeWriter l = true.
Proof.
  unfold singleNodeWriter. induction l as [|cap l IH]; simpl; [tauto|].
  destruct (accessMode cap) as [mode|]; simpl; [|split; discriminate].
  destruct (String.eqb mode "SINGLE_NODE_WRITER"); simpl;
    [exact IH | split; discriminate].
Qed.

Lemma checkCapabilities_all (l : list VolumeCapability) :
  checkCapabilities (Some l) = None <-> forallb singleNodeWriter l = true.
Proof. apply checkEach_all. Qed.

(** The loop stops at the first capability that does not ask for
    SINGLE_NODE_WRITER. *)
Lemma checkEach_stops (before rest : list VolumeCapability) cap :
  forallb singleNodeWriter before = true ->
  singleNodeWriter cap = false ->
  checkEach (before ++ cap :: rest)
  = Some match accessMode cap with
         | Some mode =>
             Grpc (mkGrpcError INVALID_ARGUMENT
                     ("Access mode " ++ mode ++ " not supported"))
         | None => TypeError "mode" "null"
         end.
Proof.
  unfold singleNodeWriter. intros Hb Hc.
  induction before as [|c before IH]; simpl in *.
  - destruct (accessMode cap) as [mode|]; [|reflexivity].
    rewrite Hc. reflexivity.
  - destruct (accessMode c) as [m|]; [|discriminate].
    apply andb_prop in Hb. destruct Hb as [-> Hb]. simpl. auto.
Qed.

Lemma checkEach_error (l : list VolumeCapability) err :
  checkEach l = Some err ->
  (exists msg, err = Grpc (mkGrpcError INVALID_ARGUMENT msg))
  \/ (err = TypeError "mode" "null" /\ forallb hasAccessMode l = false).
Proof.
  unfold hasAccessMode. induction l as [|cap l IH]; simpl; [discriminate|].
  destruct (accessMode cap) as [mode|].
  - destruct (String.eqb mode "SINGLE_NODE_WRITER"); simpl.
    + intros H. destruct (IH H) as [Hg|[He Hl]]; [left | right]; auto.
    + intros H. inversion H. left. eexists. reflexivity.
  - intros H. inversion H. right. auto.
Qed.

Lemma checkCapabilities_error (caps : option (list VolumeCapability)) err :
  checkCapabilities caps = Some err ->
  (exists msg, err = Grpc (mkGrpcError INVALID_ARGUMENT msg))
  \/ (err = TypeError "mode" "null"
      /\ exists l, caps = Some l /\ forallb hasAccessMode l = false).
Proof.
  destruct caps as [l|]; simpl.
  - intros H. destruct (checkEach_error l err H) as [Hg|[He Hl]];
      [left; exact Hg | right; split; [exact He | exists l; auto]].
  - intros H. inversion H. left. eexists. reflexivity.
Qed.

(** X1. [checkCapabilities] lets a list of capabilities pass exactly when
    every entry asks for SINGLE_NODE_WRITER (so the empty list passes).
    Without a list it throws INVALID_ARGUMENT. Otherwise what it throws is
    decided by the first entry that does not ask for SINGLE_NODE_WRITER:
    an INVALID_ARGUMENT error that names the access mode of that entry,
    or, when that entry has no access mode, the TypeError of reading
    [cap.accessMode.mode]. *)
Theorem checkCapabilities_passes_iff_all_single_node_writer :
  forall caps : option (list VolumeCapability),
    (checkCapabilities caps = None
     <-> exists l, caps = Some l /\ forallb singleNodeWriter l = true)
    /\ (caps = None ->
        checkCapabilities caps
        = Some (Grpc (mkGrpcError INVALID_ARGUMENT
                        "Missing volume capabilities")))
    /\ (forall before cap rest,
           caps = Some (before ++ cap :: rest) ->
           forallb singleNodeWriter before = true ->
           singleNodeWriter cap = false ->
           checkCapabilities caps
           = Some match accessMode cap with
                  | Some mode =>
                      Grpc (mkGrpcError INVALID_ARGUMENT
                              ("Access mode " ++ mode ++ " not supported"))
                  | None => TypeError "mode" "null"
                  end)
    /\ (forall err,
           checkCapabilities caps = Some err ->
           exn_code err = Some INVALID_ARGUMENT
           \/ (err = TypeError "mode" "null"
               /\ exists l, caps = Some l
                            /\ forallb hasAccessMode l = false)).
Proof.
  intros caps. split; [|split; [|split]].
  - destruct caps as [l|].
    + rewrite checkCapabilities_all. split.
      * intros H. now exists l.
      * intros [l' [Hl H]]. now inversion Hl.
    + split; [discriminate | intros [l [H _]]; discriminate].
  - intros ->. reflexivity.
  - intros before cap rest -> Hb Hc. apply checkEach_stops; assumption.
  - intros err H. apply checkCapabilities_error in H.
    destruct H as [[msg ->]|H]; [left; reflexivity | right; exact H].
Qed.

Example checkCapabilities_without_access_mode :
  checkCapabilities (Some [writer; mkCapability None])
  = Some (TypeError "mode" "null")
  /\ checkCapabilities (Some [mkCapability (Some "MULTI_NODE_MULTI_WRITER");
                              mkCapability None])
     = Some (Grpc (mkGrpcError INVALID_ARGUMENT
                     "Access mode MULTI_NODE_MULTI_WRITER not supported")).
Proof. split; reflexivity. Qed.

(** *** CreateVolume *)

(** X2. [createVolume] throws without calling back exactly when the
    request has no capacity range. Whatever it passes to its callback as
    an error is a grpc error, also when the commander threw something else,
    and INVALID_ARGUMENT when the commander was not called; with one
    exception, the TypeError that [checkCapabilities] throws at a
    capability without access mode, which is passed on as it is. *)
Theorem createVolume_replies_grpc_errors :
  forall (srv : Server) (args : CreateVolumeRequest),
    (forall e, fst (createVolume srv args) = Threw e
               <-> capacityRange args = None
                   /\ e = TypeError "requiredBytes" "null")
    /\ (forall err,
           fst (createVolume srv args) = Replied (Err err) ->
           (exists g, err = Grpc g
                      /\ (snd (createVolume srv args) = []
                          -> code g = INVALID_ARGUMENT))
           \/ (err = TypeError "mode" "null"
               /\ snd (createVolume srv args) = []
               /\ exists l, volumeCapabilities args = Some l
                            /\ forallb hasAccessMode l = false)).
Proof.
  intros srv args. unfold createVolume, refuse, throwGrpc.
  destruct (capacityRange args) as [range|].
  2:{ split.
      - intros e. simpl. split.
        + intros H. inversion H. auto.
        + intros [_ ->]. reflexivity.
      - simpl. discriminate. }
  assert (Hgrpc : forall (r : Outcome K8sVolume * list OperatorCall) c msg,
             r = (Replied (Err (Grpc (mkGrpcError c msg))), []) ->
             c = INVALID_ARGUMENT ->
             (forall e, fst r = Threw e
                        <-> Some range = None
                            /\ e = TypeError "requiredBytes" "null")
             /\ (forall err,
                    fst r = Replied (Err err) ->
                    (exists g, err = Grpc g
                               /\ (snd r = [] -> code g = INVALID_ARGUMENT))
                    \/ (err = TypeError "mode" "null"
                        /\ snd r = []
                        /\ exists l, volumeCapabilities args = Some l
                                     /\ forallb hasAccessMode l = false))).
  { intros r c msg -> ->. simpl. split.
    - intros e. split; [discriminate | intros [H _]; discriminate].
    - intros err H. inversion H. left. eexists. split; reflexivity. }
  destruct (volumeContentSource args); [eapply Hgrpc; reflexivity|].
  destruct (str_match PVC_RE (name args)) as [uuid|];
    [|eapply Hgrpc; reflexivity].
  destruct (checkCapabilities (volumeCapabilities args)) as [e|] eqn:Hcaps.
  { apply checkCapabilities_error in Hcaps.
    destruct Hcaps as [[msg ->]|[-> Hl]]; [eapply Hgrpc; reflexivity|].
    simpl. split.
    - intros e. split; [discriminate | intros [H _]; discriminate].
    - intros err H. inversion H. right. auto. }
  destruct (match accessibilityRequirements args with
            | Some reqs => requisiteNodes (flat_map segments (requisite reqs))
            | None => Some []
            end) as [mustNodes|]; [|eapply Hgrpc; reflexivity].
  destruct (replicaCountOf srv (parameters_repl args)) as [count|];
    [|eapply Hgrpc; reflexivity].
  destruct (ensureVolume srv uuid _) as [nexus|[g|nm msg]]; simpl; split;
    try (intros e; split; [discriminate | intros [H _]; discriminate]).
  - discriminate.
  - intros err H. inversion H. left. exists g.
    split; [reflexivity | discriminate].
  - intros err H. inversion H. left. eexists.
    split; [reflexivity | discriminate].
Qed.

(** An error of the commander that is no grpc error is wrapped, the
    TypeError of [checkCapabilities] is not. *)
Example createVolume_error_replies :
  createVolume brokenCommander createRequest
  = (Replied (throwGrpc UNKNOWN
                ("Unexpected error when creating volume "
                 ++ quoted (name createRequest) ++ ": Error: boom")),
     [EnsureVolume UUID (mkVolumeSpec 64 0 [] [] 2)])
  /\ createVolume (serverWith (Ok tt) [])
       (mkCreateVolumeRequest ("pvc-" ++ UUID) (Some (mkCapacityRange 64 0))
                              (Some [mkCapability None]) None None None)
     = (Replied (Err (TypeError "mode" "null")), []).
Proof. split; reflexivity. Qed.

Lemma replicaCountOf_positive (srv : Server) (repl : option string) count :
  replicaCountOf srv repl = Some count ->
  1 <= count /\ (repl = None -> count = 1).
Proof.
  unfold replicaCountOf. destruct repl as [[|c s]|].
  - intros H. inversion H. split; [lia | discriminate].
  - destruct (parseInt srv _) as [n|]; [|discriminate].
    destruct (Z.leb_spec n 0) as [|Hpos]; [discriminate|].
    intros Heq. inversion Heq; subst. split; [lia | discriminate].
  - intros H. inversion H. split; [lia | reflexivity].
Qed.

(** X3. [createVolume] calls the commander at most once, after all its
    checks have passed, for the uuid of the volume name, with the byte
    range of the request and a replica count of at least one (one when
    the [repl] parameter is not given). *)
Theorem createVolume_calls_commander_once :
  forall (srv : Server) (args : CreateVolumeRequest) id spec,
    In (EnsureVolume id spec) (snd (createVolume srv args)) ->
    snd (createVolume srv args) = [EnsureVolume id spec]
    /\ volumeContentSource args = None
    /\ str_match PVC_RE (name args) = Some id
    /\ checkCapabilities (volumeCapabilities args) = None
    /\ (exists range,
          capacityRange args = Some range
          /\ vs_requiredBytes spec = cr_requiredBytes range
          /\ vs_limitBytes spec = cr_limitBytes range)
    /\ 1 <= vs_count spec
    /\ (parameters_repl args = None -> vs_count spec = 1).
Proof.
  intros srv args id spec. unfold createVolume, refuse.
  destruct (capacityRange args) as [range|]; [|simpl; tauto].
  destruct (volumeContentSource args); [simpl; tauto|].
  destruct (str_match PVC_RE (name args)) as [uuid|]; [|simpl; tauto].
  destruct (checkCapabilities (volumeCapabilities args)); [simpl; tauto|].
  destruct (match accessibilityRequirements args with
            | Some reqs => requisiteNodes (flat_map segments (requisite reqs))
            | None => Some []
            end) as [mustNodes|]; [|simpl; tauto].
  destruct (replicaCountOf srv (parameters_repl args)) as [count|] eqn:Hcount;
    [|simpl; tauto].
  apply replicaCountOf_positive in Hcount.
  assert (Hcalls : forall r : Outcome K8sVolume * list OperatorCall,
             snd r = [EnsureVolume uuid
                        (mkVolumeSpec (cr_requiredBytes range)
                                      (cr_limitBytes range)
                                      mustNodes
                                      match accessibilityRequirements args with
                                      | Some reqs =>
                                          preferredNodes
                                            (flat_map segments (preferred reqs))
                                      | None => []
                                      end count)] ->
             In (EnsureVolume id spec) (snd r) ->
             snd r = [EnsureVolume id spec]
             /\ None = (None : option string) /\ Some uuid = Some id
             /\ None = (None : option Exn)
             /\ (exists range0,
                   Some range = Some range0
                   /\ vs_requiredBytes spec = cr_requiredBytes range0
                   /\ vs_limitBytes spec = cr_limitBytes range0)
             /\ 1 <= vs_count spec
             /\ (parameters_repl args = None -> vs_count spec = 1)).
  { intros r Hr Hin. rewrite Hr in *. destruct Hin as [Heq|[]].
    inversion Heq; subst. simpl.
    repeat (split; [reflexivity|]).
    split; [exists range; auto | tauto]. }
  apply Hcalls.
  destruct (ensureVolume srv uuid _) as [nexus|[g|nm msg]]; reflexivity.
Qed.

Lemma createVolume_calls_commander_once_witness :
  snd (createVolume (serverWith (Ok tt) []) createRequest)
  = [EnsureVolume UUID (mkVolumeSpec 64 0 [] [] 2)].
Proof.
  apply (createVolume_calls_commander_once
           (serverWith (Ok tt) []) createRequest UUID
           (mkVolumeSpec 64 0 [] [] 2)).
  simpl. left. reflexivity.
Defined.

Lemma preferredNodes_hostnameOnly (pref : list Topology) :
  preferredNodes (flat_map segments (map hostnameOnly pref))
  = preferredNodes (flat_map segments pref).
Proof.
  unfold preferredNodes. f_equal.
  induction pref as [|t pref IH]; simpl; [reflexivity|].
  rewrite !filter_app, IH. f_equal.
  induction (segments t) as [|kv l IHl]; simpl; [reflexivity|].
  destruct (String.eqb (fst kv) hostnameKey) eqn:E; simpl; [|exact IHl].
  rewrite E, IHl. reflexivity.
Qed.

Lemma requisiteNodes_other_key (segs : list (string * string)) :
  existsb (fun kv => negb (String.eqb (fst kv) hostnameKey)) segs = true ->
  requisiteNodes segs = None.
Proof.
  induction segs as [|[key value] segs IH]; simpl; [discriminate|].
  destruct (String.eqb key hostnameKey); simpl; [|reflexivity].
  intros H. now rewrite (IH H).
Qed.

(** X4. In the accessibility requirements of [createVolume], a preferred
    segment whose key is not the hostname is ignored: the outcome is the
    same without it. A requisite segment with such a key keeps the
    commander from being called and the request from succeeding; a
    request with a capacity range that passes the tests made before
    (no content source, a pvc name, supported capabilities) fails with
    INVALID_ARGUMENT for its topology, and so does, for one reason or
    another, every request with a capacity range whose capabilities all
    have an access mode. *)
Theorem createVolume_topology_keys :
  forall (srv : Server) nm range caps repl source (req pref : list Topology),
    createVolume srv
      (mkCreateVolumeRequest nm range caps repl source
         (Some (mkTopologyRequirement req pref)))
    = createVolume srv
        (mkCreateVolumeRequest nm range caps repl source
           (Some (mkTopologyRequirement req (map hostnameOnly pref))))
    /\ (existsb (fun kv => negb (String.eqb (fst kv) hostnameKey))
                (flat_map segments req) = true ->
        let outcome :=
          createVolume srv
            (mkCreateVolumeRequest nm range caps repl source
               (Some (mkTopologyRequirement req pref))) in
        snd outcome = []
        /\ (forall reply, fst outcome <> Replied (Ok reply))
        /\ (range <> None -> source = None ->
            str_match PVC_RE nm <> None ->
            checkCapabilities caps = None ->
            outcome
            = refuse INVALID_ARGUMENT
                     "Volume topology other than hostname not supported")
        /\ (range <> None ->
            (forall l, caps = Some l -> forallb hasAccessMode l = true) ->
            exists msg, outcome = refuse INVALID_ARGUMENT msg)).
Proof.
  intros srv nm range caps repl source req pref. split.
  - unfold createVolume. simpl. rewrite preferredNodes_hostnameOnly.
    reflexivity.
  - intros Hkey. unfold createVolume, refuse. cbv zeta.
    cbn [capacityRange volumeContentSource name volumeCapabilities
         accessibilityRequirements parameters_repl requisite preferred].
    rewrite (requisiteNodes_other_key _ Hkey).
    destruct range as [range|].
    2:{ simpl. split; [reflexivity|]. split; [discriminate|].
        split; intros H; now contradiction H. }
    destruct source as [source|].
    { simpl. split; [reflexivity|]. split; [discriminate|].
      split; [discriminate|]. intros _ _. eexists. reflexivity. }
    destruct (str_match PVC_RE nm) as [uuid|].
    2:{ simpl. split; [reflexivity|]. split; [discriminate|].
        split; [intros _ _ H; now contradiction H|].
        intros _ _. eexists. reflexivity. }
    destruct (checkCapabilities caps) as [e|] eqn:Hcaps.
    + simpl. split; [reflexivity|]. split; [discriminate|].
      split; [discriminate|]. intros _ Hmodes.
      apply checkCapabilities_error in Hcaps.
      destruct Hcaps as [[msg ->]|[_ [l [Hl Hno]]]].
      * exists msg. reflexivity.
      * rewrite (Hmodes l Hl) in Hno. discriminate.
    + simpl. split; [reflexivity|]. split; [discriminate|].
      split; [reflexivity|]. intros _ _. eexists. reflexivity.
Qed.

Example createVolume_requisite_zone :
  createVolume (serverWith (Ok tt) [])
    (mkCreateVolumeRequest ("pvc-" ++ UUID) (Some (mkCapacityRange 64 0))
       (Some [writer]) None None
       (Some (mkTopologyRequirement [mkTopology [("zone", "a")]] [])))
  = refuse INVALID_ARGUMENT
           "Volume topology other than hostname not supported".
Proof. reflexivity. Qed.

(** *** ControllerPublishVolume and ControllerUnpublishVolume *)

(** X5. [controllerPublishVolume] calls [publishNexus] only for a volume
    that has a nexus, with a node id that parses to the node of that
    nexus, not readonly, and with a capability that passes
    [checkCapabilities]; it makes no other call. *)
Theorem controllerPublishVolume_publishes_only_checked :
  forall (srv : Server) (args : ControllerPublishVolumeRequest) id,
    In (PublishNexus id) (snd (controllerPublishVolume srv args)) ->
    exists nexus cap,
      getNexus srv (pub_volumeId args) = Some nexus
      /\ id = n_uuid nexus
      /\ parseMayastorNodeId (pub_nodeId args) = Ok (n_node nexus)
      /\ pub_readonly args = false
      /\ pub_volumeCapability args = Some cap
      /\ singleNodeWriter cap = true
      /\ snd (controllerPublishVolume srv args) = [PublishNexus id].
Proof.
  intros srv args id. unfold controllerPublishVolume, cbErr.
  destruct (getNexus srv (pub_volumeId args)) as [nexus|]; [|simpl; tauto].
  destruct (parseMayastorNodeId (pub_nodeId args)) as [node|e];
    [|simpl; tauto].
  destruct (String.eqb_spec node (n_node nexus)) as [->|_]; [|simpl; tauto].
  destruct (pub_readonly args); [simpl; tauto|].
  destruct (pub_volumeCapability args) as [cap|]; [|simpl; tauto].
  destruct (checkCapabilities (Some [cap])) as [e|] eqn:Hcaps; [simpl; tauto|].
  apply checkCapabilities_all in Hcaps. simpl in Hcaps.
  rewrite andb_true_r in Hcaps. cbn [negb].
  assert (Hcalls : forall r : Result unit * list OperatorCall,
             snd r = [PublishNexus (n_uuid nexus)] ->
             In (PublishNexus id) (snd r) ->
             id = n_uuid nexus /\ snd r = [PublishNexus id]).
  { intros r Hr Hin. rewrite Hr in *. destruct Hin as [Heq|[]].
    inversion Heq. tauto. }
  match goal with
  | |- In _ (snd ?r) -> _ =>
      assert (Hr : snd r = [PublishNexus (n_uuid nexus)])
  end.
  { destruct (publishNexus srv (n_uuid nexus)) as [|err]; [reflexivity|].
    destruct (exn_code err) as [c|]; [|reflexivity].
    destruct (c =? ALREADY_EXISTS); reflexivity. }
  intros Hin. exists nexus, cap.
  destruct (Hcalls _ Hr Hin) as [Hid Hsnd]. tauto.
Qed.

Lemma controllerPublishVolume_publishes_only_checked_witness :
  exists nexus,
    getNexus (serverWith (Ok tt) []) UUID = Some nexus
    /\ parseMayastorNodeId "mayastor://node1" = Ok (n_node nexus).
Proof.
  destruct (controllerPublishVolume_publishes_only_checked
              (serverWith (Ok tt) []) (publishRequest "mayastor://node1" false)
              UUID ltac:(simpl; left; reflexivity))
    as [nexus [cap [H1 [_ [H2 _]]]]].
  exists nexus. split; assumption.
Defined.

(** X6. [controllerUnpublishVolume] does not look at which node the
    request names: two requests for the same volume whose node ids both
    parse have the same outcome. Without a nexus of that id the reply is
    NOT_FOUND and nothing is called; otherwise [unpublishNexus] is called
    once and what it throws is passed on as it is. *)
Theorem controllerUnpublishVolume_ignores_node :
  forall (op : VolumeOperator) volumeId nodeId1 nodeId2 node1 node2,
    parseMayastorNodeId nodeId1 = Ok node1 ->
    parseMayastorNodeId nodeId2 = Ok node2 ->
    controllerUnpublishVolume op volumeId nodeId1
    = controllerUnpublishVolume op volumeId nodeId2
    /\ match vo_getNexus op volumeId with
       | None =>
           exists msg, controllerUnpublishVolume op volumeId nodeId1
                       = (throwGrpc NOT_FOUND msg, [])
       | Some nexus =>
           controllerUnpublishVolume op volumeId nodeId1
           = (vo_unpublishNexus op (n_uuid nexus),
              [UnpublishNexus (n_uuid nexus)])
       end.
Proof.
  intros op volumeId nodeId1 nodeId2 node1 node2 H1 H2.
  unfold controllerUnpublishVolume. rewrite H1, H2.
  destruct (vo_getNexus op volumeId) as [nexus|].
  - split; [reflexivity|].
    destruct (vo_unpublishNexus op (n_uuid nexus)) as [[]|err]; reflexivity.
  - split; [reflexivity | eexists; reflexivity].
Qed.

Lemma controllerUnpublishVolume_ignores_node_witness :
  controllerUnpublishVolume nexusOnNode1 UUID "mayastor://node1"
  = controllerUnpublishVolume nexusOnNode1 UUID "mayastor://node2"
  /\ controllerUnpublishVolume nexusOnNode1 UUID "mayastor://node2"
     = (Ok tt, [UnpublishNexus UUID]).
Proof.
  destruct (controllerUnpublishVolume_ignores_node
              nexusOnNode1 UUID "mayastor://node1" "mayastor://node2"
              "node1" "node2" eq_refl eq_refl) as [H _].
  split; [exact H | reflexivity].
Defined.

(** *** ValidateVolumeCapabilities *)

Lemma supportedCapabilities_filter (caps : list VolumeCapability) :
  supportedCapabilities caps
  = if forallb hasAccessMode caps then Ok (filter singleNodeWriter caps)
    else Err (TypeError "mode" "null").
Proof.
  unfold hasAccessMode, singleNodeWriter.
  induction caps as [|cap caps IH]; simpl; [reflexivity|].
  destruct (accessMode cap) as [mode|]; simpl; [|reflexivity].
  rewrite IH. destruct (forallb _ caps); reflexivity.
Qed.

(** X7. For a volume that exists, [validateVolumeCapabilities] throws a
    TypeError, and never calls back, when a capability of the request has
    no access mode. Otherwise it confirms exactly the capabilities of the
    request that ask for SINGLE_NODE_WRITER, in their order, when there is
    at least one, and sets only the message when there is none. So it
    confirms a list that [checkCapabilities] rejects as soon as one entry
    of the list is supported. *)
Theorem validateVolumeCapabilities_confirms_supported :
  forall (op : VolumeOperator) volumeId nexus (caps : list VolumeCapability),
    vo_getNexus op volumeId = Some nexus ->
    (forallb hasAccessMode caps = false ->
     validateVolumeCapabilities op volumeId caps
     = Threw (TypeError "mode" "null"))
    /\ (forallb hasAccessMode caps = true ->
        exists resp,
          validateVolumeCapabilities op volumeId caps = Replied (Ok resp)
          /\ (existsb singleNodeWriter caps = true
              -> resp_confirmed resp = Some (filter singleNodeWriter caps)
                 /\ resp_message resp = None)
          /\ (existsb singleNodeWriter caps = false
              -> resp_confirmed resp = None /\ resp_message resp <> None)
          /\ (caps <> [] -> checkCapabilities (Some caps) = None
              -> resp_confirmed resp = Some caps)).
Proof.
  intros op volumeId nexus caps Hnexus.
  unfold validateVolumeCapabilities. rewrite Hnexus.
  rewrite supportedCapabilities_filter.
  split; intros Hmodes; rewrite Hmodes; [reflexivity|].
  assert (Hlen : (0 <? Z.of_nat (List.length (filter singleNodeWriter caps)))
                 = existsb singleNodeWriter caps).
  { clear Hmodes. induction caps as [|c caps IH]; simpl; [reflexivity|].
    destruct (singleNodeWriter c); simpl; [|exact IH].
    apply Z.ltb_lt. lia. }
  rewrite Hlen.
  assert (Hall : caps <> [] -> checkCapabilities (Some caps) = None ->
                 existsb singleNodeWriter caps = true
                 /\ filter singleNodeWriter caps = caps).
  { intros Hne Hcheck. apply checkCapabilities_all in Hcheck.
    split.
    - destruct caps as [|c caps]; [congruence|]. simpl in *.
      apply andb_prop in Hcheck. destruct Hcheck as [-> _]. reflexivity.
    - clear Hne Hlen Hmodes.
      induction caps as [|c caps IH]; simpl; [reflexivity|].
      simpl in Hcheck. apply andb_prop in Hcheck. destruct Hcheck as [-> H].
      f_equal. auto. }
  destruct (existsb singleNodeWriter caps) eqn:E; eexists;
    (split; [reflexivity|]); simpl.
  - split; [tauto|]. split; [discriminate|].
    intros Hne Hcheck. destruct (Hall Hne Hcheck) as [_ ->]. reflexivity.
  - split; [discriminate|]. split; [intros _; split; [reflexivity|discriminate]|].
    intros Hne Hcheck. destruct (Hall Hne Hcheck). discriminate.
Qed.

Lemma validateVolumeCapabilities_confirms_supported_witness :
  validateVolumeCapabilities nexusOnNode1 UUID
    [mkCapability (Some "MULTI_NODE_MULTI_WRITER"); writer]
  = Replied (Ok (mkValidateResponse (Some [writer]) None))
  /\ checkCapabilities
       (Some [mkCapability (Some "MULTI_NODE_MULTI_WRITER"); writer])
     <> None
  /\ validateVolumeCapabilities nexusOnNode1 UUID [writer; mkCapability None]
     = Threw (TypeError "mode" "null").
Proof.
  destruct (validateVolumeCapabilities_confirms_supported
              nexusOnNode1 UUID (mkNexus UUID "node1" 64 "ONLINE" [])
              [mkCapability (Some "MULTI_NODE_MULTI_WRITER"); writer] eq_refl)
    as [_ H].
  destruct (H eq_refl) as [resp [Hresp [Hsome _]]].
  rewrite Hresp. destruct (Hsome eq_refl) as [Hc Hm].
  destruct resp as [c m]. simpl in Hc, Hm. subst c m.
  split; [reflexivity|]. split; [discriminate|].
  exact (proj1 (validateVolumeCapabilities_confirms_supported
                  nexusOnNode1 UUID (mkNexus UUID "node1" 64 "ONLINE" [])
                  [writer; mkCapability None] eq_refl) eq_refl).
Defined.

(** *** DeleteVolume *)

Lemma destroyReplicas_spec (op : VolumeOperator) (rs : list Replica) :
  forall errors calls,
    destroyReplicas op rs errors calls
    = (errors ++ failures op (List.length calls)
                   (map (fun r => DestroyReplica (r_node r) (r_uuid r)) rs),
       calls ++ map (fun r => DestroyReplica (r_node r) (r_uuid r)) rs).
Proof.
  induction rs as [|r rs IH]; intros errors calls; simpl.
  - now rewrite !app_nil_r.
  - assert (Hlen : List.length (calls ++ [DestroyReplica (r_node r) (r_uuid r)])
                   = S (List.length calls))
      by (rewrite length_app; simpl; lia).
    destruct (vo_destroyReplica op (List.length calls) (r_node r) (r_uuid r));
      rewrite IH, Hlen, <- !app_assoc; reflexivity.
Qed.

(** X8. [deleteVolume] tries to destroy everything: it calls
    [destroyNexus] for the nexus, if there is one, and then
    [destroyReplica] for every replica of the replica set, in order,
    whichever of these calls fail. *)
Theorem deleteVolume_destroys_everything :
  forall (op : VolumeOperator) (volumeId : string),
    snd (deleteVolume op volumeId)
    = match vo_getNexus op volumeId with
      | Some nexus => [DestroyNexus (n_node nexus) volumeId]
      | None => []
      end
      ++ map (fun r => DestroyReplica (r_node r) (r_uuid r))
             (vo_getReplicaSet op volumeId).
Proof.
  intros op volumeId. unfold deleteVolume.
  destruct (vo_getNexus op volumeId) as [nexus|];
    [destruct (vo_destroyNexus op 0 (n_node nexus) volumeId)|];
    rewrite destroyReplicas_spec;
    match goal with |- context [if ?b then _ else _] => destruct b end;
    reflexivity.
Qed.

(** X9. [deleteVolume] replies without error exactly when none of its
    destroy calls failed, in particular when there was nothing to destroy;
    otherwise the reply is one INTERNAL error whose message joins the
    failures of all the calls, in the order of the calls. *)
Theorem deleteVolume_reports_all_failures :
  forall (op : VolumeOperator) (volumeId : string),
    fst (deleteVolume op volumeId)
    = match failures op 0 (snd (deleteVolume op volumeId)) with
      | [] => Ok tt
      | errors =>
          throwGrpc INTERNAL
            ("Failed to delete volume " ++ quoted volumeId ++ ": "
             ++ join ". " (map (vo_errorToString op) errors))
      end.
Proof.
  intros op volumeId. unfold deleteVolume.
  destruct (vo_getNexus op volumeId) as [nexus|].
  - destruct (vo_destroyNexus op 0 (n_node nexus) volumeId) as [[]|err] eqn:E;
      rewrite destroyReplicas_spec;
      match goal with |- context [if ?b then _ else _] =>
        destruct b eqn:Hb end;
      cbn [fst snd app failures outcome List.length]; rewrite E;
      cbn [app List.length] in *.
    + destruct (failures op 1 _); [discriminate | reflexivity].
    + destruct (failures op 1 _); [reflexivity|].
      apply Z.ltb_ge in Hb. simpl in Hb. lia.
    + reflexivity.
    + apply Z.ltb_ge in Hb. simpl in Hb. lia.
  - rewrite destroyReplicas_spec.
    match goal with |- context [if ?b then _ else _] =>
      destruct b eqn:Hb end;
      cbn [fst snd app List.length] in *.
    + destruct (failures op 0 _); [discriminate | reflexivity].
    + destruct (failures op 0 _); [reflexivity|].
      apply Z.ltb_ge in Hb. simpl in Hb. lia.
Qed.

(** *** ListVolumes *)

Section ObjectFacts.

Variable A : Type.
Implicit Types (m : list (string * A)) (k : string) (a : A).

Lemma lookup_remove_same k m : Volume.lookup k (Volume.remove k m) = None.
Proof.
  induction m as [|[k0 a0] m IH]; simpl; [reflexivity|].
  destruct (String.eqb k k0) eqn:E; simpl; [exact IH|]. now rewrite E.
Qed.

Lemma lookup_assign_other k k' a m :
  k' <> k -> Volume.lookup k' (Volume.assign k a m) = Volume.lookup k' m.
Proof.
  intros Hne. induction m as [|[k0 a0] m IH]; simpl.
  - destruct (String.eqb_spec k' k); [contradiction | reflexivity].
  - destruct (String.eqb_spec k k0) as [->|_]; simpl.
    + destruct (String.eqb_spec k' k0); [contradiction | reflexivity].
    + destruct (String.eqb k' k0); [reflexivity | exact IH].
Qed.

Lemma remove_absent k m : ~ In k (Volume.keys m) -> Volume.remove k m = m.
Proof.
  induction m as [|[k0 a0] m IH]; simpl; [reflexivity|].
  intros Hin. destruct (String.eqb_spec k k0) as [->|_]; [tauto|].
  f_equal. tauto.
Qed.

Lemma remove_assign_absent k a m :
  ~ In k (Volume.keys m) -> Volume.remove k (Volume.assign k a m) = m.
Proof.
  induction m as [|[k0 a0] m IH]; simpl.
  - now rewrite String.eqb_refl.
  - intros Hin. destruct (String.eqb_spec k k0) as [->|Hne]; [tauto|].
    simpl. destruct (String.eqb_spec k k0); [contradiction|].
    f_equal. tauto.
Qed.

Lemma keys_remove k k' m :
  In k' (Volume.keys (Volume.remove k m)) -> In k' (Volume.keys m).
Proof.
  induction m as [|[k0 a0] m IH]; simpl; [tauto|].
  destruct (String.eqb k k0); simpl; tauto.
Qed.

End ObjectFacts.

Arguments lookup_remove_same {A}.
Arguments lookup_assign_other {A}.
Arguments remove_absent {A}.
Arguments remove_assign_absent {A}.
Arguments keys_remove {A}.

Lemma Number_toString_parse (n : Z) :
  NilZero.int_of_string (Number_toString n) = Some (Z.to_int n).
Proof.
  unfold Number_toString. apply NilZero.isi; destruct n; simpl;
    try discriminate; intros H; inversion H;
    eapply DecimalPos.Unsigned.to_uint_nonnil; eassumption.
Qed.

Lemma Number_toString_inj (a b : Z) :
  Number_toString a = Number_toString b -> a = b.
Proof.
  intros H. apply DecimalZ.to_int_inj.
  pose proof (Number_toString_parse a) as Ha.
  rewrite H, Number_toString_parse in Ha. congruence.
Qed.

Lemma Number_toString_nonempty (n : Z) : Number_toString n <> "".
Proof.
  intros H. pose proof (Number_toString_parse n) as Hn. rewrite H in Hn.
  discriminate.
Qed.

Lemma Number_toString_not_inherited (n : Z) :
  includes objectPrototypeKeys (Number_toString n) = false.
Proof.
  destruct (includes objectPrototypeKeys (Number_toString n)) eqn:E;
    [|reflexivity].
  apply includes_In in E. pose proof (Number_toString_parse n) as Hn.
  unfold objectPrototypeKeys in E. simpl in E.
  repeat (destruct E as [E|E]; [rewrite <- E in Hn; discriminate|]).
  contradiction.
Qed.

Lemma splice0_spec {A} (n : Z) (l : list A) :
  fst (splice0 n l) ++ snd (splice0 n l) = l
  /\ Z.of_nat (List.length (fst (splice0 n l)))
     = Z.min (Z.max n 0) (Z.of_nat (List.length l)).
Proof.
  unfold splice0. simpl. split; [apply firstn_skipn|].
  rewrite length_firstn. lia.
Qed.

(** What [servePage] does in terms of the page and the rest. *)
Lemma servePage_spec (st : Paging) (maxEntries : Z) (volumes : list K8sVolume) :
  exists entries rest,
    volumes = entries ++ rest
    /\ Z.of_nat (List.length entries)
       = Z.min (Z.max (pageSize maxEntries) 0) (Z.of_nat (List.length volumes))
    /\ servePage st maxEntries volumes
       = match rest with
         | [] => (Page entries None, st)
         | _ :: _ =>
             (Page entries (Some (Number_toString (nextListContextId st))),
              mkPaging (Number_succ (nextListContextId st))
                       (Volume.assign (Number_toString (nextListContextId st))
                                      rest (listContexts st)))
         end.
Proof.
  unfold servePage. fold (pageSize maxEntries).
  destruct (splice0_spec (pageSize maxEntries) volumes) as [Happ Hlen].
  destruct (splice0 (pageSize maxEntries) volumes) as [entries rest].
  simpl in Happ, Hlen. exists entries, rest.
  split; [now symmetry|]. split; [exact Hlen|].
  destruct rest; reflexivity.
Qed.

(** X10. A reply of [listVolumes] is a prefix of what was left to list,
    all the nexuses for a request without token and the stored context
    for a request with one: as many entries as [maxEntries] allows (1000
    when it is 0), and a token exactly when something is left, under
    which the rest is stored. *)
Theorem listVolumes_page :
  forall (nexuses : list Nexus) (st : Paging) (maxEntries : Z)
         (token : string) entries next st',
    listVolumes nexuses st maxEntries token = (Page entries next, st') ->
    exists volumes rest,
      (if String.eqb token "" then volumes = map createK8sVolumeObject nexuses
       else Volume.lookup token (listContexts st) = Some volumes)
      /\ volumes = entries ++ rest
      /\ Z.of_nat (List.length entries)
         = Z.min (Z.max (pageSize maxEntries) 0)
                 (Z.of_nat (List.length volumes))
      /\ match next with
         | None => rest = []
         | Some t => rest <> []
                     /\ Volume.lookup t (listContexts st') = Some rest
         end.
Proof.
  intros nexuses st maxEntries token entries next st'. unfold listVolumes.
  assert (Hserve : forall st0 volumes,
             servePage st0 maxEntries volumes = (Page entries next, st') ->
             exists rest,
               volumes = entries ++ rest
               /\ Z.of_nat (List.length entries)
                  = Z.min (Z.max (pageSize maxEntries) 0)
                          (Z.of_nat (List.length volumes))
               /\ match next with
                  | None => rest = []
                  | Some t => rest <> []
                              /\ Volume.lookup t (listContexts st') = Some rest
                  end).
  { intros st0 volumes Hs.
    destruct (servePage_spec st0 maxEntries volumes)
      as [entries0 [rest [Happ [Hlen Heq]]]].
    rewrite Heq in Hs. exists rest.
    destruct rest as [|x rest]; inversion Hs; subst.
    - tauto.
    - split; [reflexivity|]. split; [assumption|]. split; [discriminate|].
      simpl. apply EnsureProps.lookup_assign_same. }
  destruct (String.eqb token "").
  - intros Hs. apply Hserve in Hs. destruct Hs as [rest Hs].
    exists (map createK8sVolumeObject nexuses), rest. tauto.
  - destruct (Volume.lookup token (listContexts st)) as [volumes|].
    + intros Hs. apply Hserve in Hs. destruct Hs as [rest Hs].
      exists volumes, rest. tauto.
    + destruct (includes objectPrototypeKeys token); discriminate.
Qed.

Lemma listVolumes_page_witness :
  listVolumes threeNexuses noPaging 2 ""
  = (Page (map createK8sVolumeObject (firstn 2 threeNexuses)) (Some "1"),
     mkPaging 2 [("1", map createK8sVolumeObject (skipn 2 threeNexuses))])
  /\ exists rest,
       map createK8sVolumeObject threeNexuses
       = map createK8sVolumeObject (firstn 2 threeNexuses) ++ rest
       /\ rest <> [].
Proof.
  split; [reflexivity|].
  destruct (listVolumes_page threeNexuses noPaging 2 "" _ _ _ eq_refl)
    as [volumes [rest [Hv [Happ [_ [Hrest _]]]]]].
  simpl in Hv. subst volumes. exists rest. split; assumption.
Defined.

(** The state after a page was served keeps [issued]. *)
Lemma servePage_issued (st : Paging) (maxEntries : Z) (volumes : list K8sVolume) :
  issued st ->
  nextListContextId st < 9007199254740992 ->
  issued (snd (servePage st maxEntries volumes)).
Proof.
  intros [Hmax Hkeys] Hnext.
  destruct (servePage_spec st maxEntries volumes)
    as [entries [rest [_ [_ ->]]]].
  destruct rest as [|x rest]; simpl; [split; assumption|].
  unfold issued, Number_succ. simpl.
  destruct (Z.ltb_spec (nextListContextId st) 9007199254740992); [|lia].
  split; [lia|]. intros k. rewrite EnsureProps.keys_assign.
  destruct (Volume.lookup _ _).
  - intros Hin. destruct (Hkeys k Hin) as [i [Hi ->]]. exists i. split; [lia|].
    reflexivity.
  - rewrite in_app_iff. intros [Hin|[<-|[]]].
    + destruct (Hkeys k Hin) as [i [Hi ->]]. exists i. split; [lia|].
      reflexivity.
    + exists (nextListContextId st). split; [lia | reflexivity].
Qed.

Lemma remove_issued (st : Paging) (token : string) :
  issued st ->
  issued (mkPaging (nextListContextId st)
                   (Volume.remove token (listContexts st))).
Proof.
  intros [Hmax Hkeys]. split; [exact Hmax|]. simpl. intros k Hin.
  apply keys_remove in Hin. auto.
Qed.

Lemma issued_fresh (st : Paging) :
  issued st ->
  ~ In (Number_toString (nextListContextId st)) (Volume.keys (listContexts st)).
Proof.
  intros [_ Hkeys] Hin. destruct (Hkeys _ Hin) as [i [Hi Heq]].
  apply Number_toString_inj in Heq. lia.
Qed.

(** Following the tokens from a stored context returns the whole context
    and removes it. *)
Lemma listAll_context (nexusesAt : nat -> list Nexus) (maxEntries : Z) :
  0 <= maxEntries ->
  forall (fuel : nat) (volumes : list K8sVolume) (i : nat) (st : Paging)
         (token : string) (acc : list K8sVolume),
    (List.length volumes < fuel)%nat ->
    issued st ->
    nextListContextId st + Z.of_nat (List.length volumes) <= 9007199254740992 ->
    token <> "" ->
    Volume.lookup token (listContexts st) = Some volumes ->
    exists st',
      listAll fuel nexusesAt i st maxEntries token acc
      = Some (acc ++ volumes, st')
      /\ listContexts st' = Volume.remove token (listContexts st)
      /\ issued st'.
Proof.
  intros Hmax. induction fuel as [|fuel IH];
    intros volumes i st token acc Hfuel Hst Hnext Htoken Hlookup; [lia|].
  cbn [listAll]. unfold listVolumes.
  destruct (String.eqb_spec token ""); [contradiction|]. rewrite Hlookup.
  pose proof (remove_issued st token Hst) as Hst1.
  set (st1 := mkPaging (nextListContextId st)
                       (Volume.remove token (listContexts st))) in *.
  destruct (servePage_spec st1 maxEntries volumes)
    as [entries [rest [Happ [Hlen Heq]]]].
  rewrite Heq. destruct rest as [|x rest].
  - exists st1. rewrite app_nil_r in Happ. subst entries.
    split; [reflexivity|]. split; [reflexivity | exact Hst1].
  - assert (Hsize : 1 <= pageSize maxEntries)
      by (unfold pageSize; destruct (Z.eqb_spec maxEntries 0); lia).
    assert (Hlen' : List.length volumes = (List.length entries
                                           + S (List.length rest))%nat)
      by (rewrite Happ, length_app; reflexivity).
    set (t := Number_toString (nextListContextId st1)).
    set (st2 := mkPaging (Number_succ (nextListContextId st1))
                         (Volume.assign t (x :: rest) (listContexts st1))).
    assert (Hst2 : issued st2).
    { pose proof (servePage_issued st1 maxEntries volumes Hst1) as H.
      rewrite Heq in H. apply H. simpl. lia. }
    destruct (IH (x :: rest) (S i) st2 t (acc ++ entries)) as [st' [Hall [Hctx Hst']]].
    + simpl in *. lia.
    + exact Hst2.
    + unfold st2, Number_succ. simpl.
      destruct (Z.ltb_spec (nextListContextId st) 9007199254740992);
        simpl List.length in *; lia.
    + apply Number_toString_nonempty.
    + apply EnsureProps.lookup_assign_same.
    + exists st'. rewrite Hall, Happ, app_assoc.
      split; [reflexivity|]. split; [|exact Hst'].
      rewrite Hctx. unfold st2. simpl.
      apply remove_assign_absent. apply (issued_fresh st1 Hst1).
Qed.

(** X11. A client that asks [listVolumes] without token and then follows
    the tokens gets, after finitely many requests, a reply without token,
    and the entries of all replies together are the nexuses the operator
    held at the first request, each once and in order, whatever it holds
    later; afterwards [listContexts] is as before. This holds for a
    [maxEntries] that is not negative, as long as the context ids stay
    below 2^53. *)
Theorem listVolumes_pages_cover_all :
  forall (nexusesAt : nat -> list Nexus) (i : nat) (st : Paging)
         (maxEntries : Z) (fuel : nat),
    0 <= maxEntries ->
    issued st ->
    nextListContextId st + Z.of_nat (List.length (nexusesAt i))
    <= 9007199254740992 ->
    (List.length (nexusesAt i) < fuel)%nat ->
    exists st',
      listAll fuel nexusesAt i st maxEntries "" []
      = Some (map createK8sVolumeObject (nexusesAt i), st')
      /\ listContexts st' = listContexts st
      /\ issued st'.
Proof.
  intros nexusesAt i st maxEntries fuel Hmax Hst Hnext Hfuel.
  destruct fuel as [|fuel]; [lia|].
  cbn [listAll]. unfold listVolumes. cbn [String.eqb].
  set (volumes := map createK8sVolumeObject (nexusesAt i)) in *.
  assert (Hvol : List.length volumes = List.length (nexusesAt i))
    by apply length_map.
  destruct (servePage_spec st maxEntries volumes)
    as [entries [rest [Happ [Hlen Heq]]]].
  rewrite Heq. destruct rest as [|x rest].
  - exists st. rewrite app_nil_r in Happ. subst entries.
    split; [reflexivity|]. split; [reflexivity | exact Hst].
  - assert (Hsize : 1 <= pageSize maxEntries)
      by (unfold pageSize; destruct (Z.eqb_spec maxEntries 0); lia).
    assert (Hlen' : List.length volumes = (List.length entries
                                           + S (List.length rest))%nat)
      by (rewrite Happ, length_app; reflexivity).
    set (t := Number_toString (nextListContextId st)).
    set (st2 := mkPaging (Number_succ (nextListContextId st))
                         (Volume.assign t (x :: rest) (listContexts st))).
    assert (Hst2 : issued st2).
    { pose proof (servePage_issued st maxEntries volumes Hst) as H.
      rewrite Heq in H. apply H. lia. }
    destruct (listAll_context nexusesAt maxEntries Hmax fuel (x :: rest)
                              (S i) st2 t ([] ++ entries))
      as [st' [Hall [Hctx Hst']]].
    + simpl in *. lia.
    + exact Hst2.
    + unfold st2, Number_succ. simpl.
      destruct (Z.ltb_spec (nextListContextId st) 9007199254740992);
        simpl List.length in *; lia.
    + apply Number_toString_nonempty.
    + apply EnsureProps.lookup_assign_same.
    + exists st'. rewrite Hall, Happ.
      split; [reflexivity|]. split; [|exact Hst'].
      rewrite Hctx. unfold st2. simpl.
      apply remove_assign_absent. apply (issued_fresh st Hst).
Qed.

Lemma noPaging_issued : issued noPaging.
Proof. split; [simpl; lia | intros k []]. Qed.

Lemma listVolumes_pages_cover_all_witness :
  exists st',
    listAll 4 (fun i => match i with O => threeNexuses | _ => [] end)
            0 noPaging 2 "" []
    = Some (map createK8sVolumeObject threeNexuses, st')
    /\ listContexts st' = [].
Proof.
  destruct (listVolumes_pages_cover_all
              (fun i => match i with O => threeNexuses | _ => [] end)
              0%nat noPaging 2 4%nat ltac:(lia)
              ltac:(split; [vm_compute; discriminate | intros k []])
              ltac:(simpl; lia) ltac:(simpl; lia))
    as [st' [Hall [Hctx _]]].
  exists st'. split; assumption.
Defined.

(** X12. A token of [listVolumes] can be used once. A request with a
    token that [listContexts] holds is served and takes the context away,
    so the same token again is refused with INVALID_ARGUMENT. A token
    that [listContexts] does not hold is refused in the same way and
    changes nothing, unless it names a property that [listContexts]
    inherits from [Object.prototype]: then the handler throws a TypeError
    and never calls back. *)
Theorem listVolumes_token_is_single_use :
  forall (nexuses nexuses' : list Nexus) (st : Paging)
         (maxEntries maxEntries' : Z) (token : string),
    issued st ->
    token <> "" ->
    match Volume.lookup token (listContexts st) with
    | Some volumes =>
        exists entries next st',
          listVolumes nexuses st maxEntries token = (Page entries next, st')
          /\ listVolumes nexuses' st' maxEntries' token
             = (Refused (mkGrpcError INVALID_ARGUMENT
                           "Paging context for list volumes is gone"), st')
    | None =>
        listVolumes nexuses st maxEntries token
        = (if includes objectPrototypeKeys token
           then Thrown (TypeError "splice" "undefined")
           else Refused (mkGrpcError INVALID_ARGUMENT
                           "Paging context for list volumes is gone"), st)
    end.
Proof.
  intros nexuses nexuses' st maxEntries maxEntries' token Hst Htoken.
  assert (Hgone : forall st0,
             Volume.lookup token (listContexts st0) = None ->
             listVolumes nexuses' st0 maxEntries' token
             = (if includes objectPrototypeKeys token
                then Thrown (TypeError "splice" "undefined")
                else Refused (mkGrpcError INVALID_ARGUMENT
                                "Paging context for list volumes is gone"),
                st0)).
  { intros st0 Hnone. unfold listVolumes.
    destruct (String.eqb_spec token ""); [contradiction|]. rewrite Hnone.
    apply EnsureProps.lookup_None in Hnone.
    rewrite (remove_absent token _ Hnone). destruct st0.
    destruct (includes objectPrototypeKeys token); reflexivity. }
  destruct (Volume.lookup token (listContexts st)) as [volumes|] eqn:Hlookup.
  - assert (Hkey : exists i, i < nextListContextId st
                             /\ token = Number_toString i).
    { destruct Hst as [_ Hkeys]. apply Hkeys.
      apply EnsureProps.lookup_In in Hlookup. unfold Volume.keys.
      apply in_map_iff. exists (token, volumes). split; [reflexivity|assumption]. }
    destruct Hkey as [i [Hi Hi']].
    unfold listVolumes at 1.
    destruct (String.eqb_spec token ""); [contradiction|]. rewrite Hlookup.
    set (st1 := mkPaging (nextListContextId st)
                         (Volume.remove token (listContexts st))).
    destruct (servePage_spec st1 maxEntries volumes)
      as [entries [rest [_ [_ Heq]]]].
    rewrite Heq.
    assert (Hinh : includes objectPrototypeKeys token = false)
      by (rewrite Hi'; apply Number_toString_not_inherited).
    destruct rest as [|x rest]; do 3 eexists; (split; [reflexivity|]);
      rewrite Hgone, Hinh; try reflexivity.
    + apply lookup_remove_same.
    + simpl. rewrite lookup_assign_other; [apply lookup_remove_same|].
      rewrite Hi'. intros H. apply Number_toString_inj in H. lia.
  - clear Hgone.
    unfold listVolumes.
    destruct (String.eqb_spec token ""); [contradiction|]. rewrite Hlookup.
    apply EnsureProps.lookup_None in Hlookup.
    rewrite (remove_absent token _ Hlookup). destruct st.
    destruct (includes objectPrototypeKeys token); reflexivity.
Qed.

Lemma listVolumes_token_is_single_use_witness :
  exists st',
    listVolumes [] (snd (listVolumes threeNexuses noPaging 2 "")) 0 "1"
    = (Page (map createK8sVolumeObject (skipn 2 threeNexuses)) None, st')
    /\ listVolumes threeNexuses st' 0 "1"
       = (Refused (mkGrpcError INVALID_ARGUMENT
                     "Paging context for list volumes is gone"), st').
Proof.
  pose proof (listVolumes_token_is_single_use
                [] threeNexuses (snd (listVolumes threeNexuses noPaging 2 ""))
                0 0 "1"
                ltac:(split;
                      [vm_compute; discriminate
                      |intros k Hk; vm_compute in Hk; destruct Hk as [E|[]];
                       exists 1; split;
                       [vm_compute; reflexivity | symmetry; exact E]])
                ltac:(discriminate)) as H.
  change (Volume.lookup "1" _)
    with (Some (map createK8sVolumeObject (skipn 2 threeNexuses))) in H.
  destruct H as [entries [next [st' [H1 H2]]]].
  exists st'. split; [|exact H2].
  rewrite H1. vm_compute in H1. inversion H1. reflexivity.
Defined.

(** *** GetCapacity *)

Lemma capacity_fold_accessible (l : list Pool) (acc : Z) :
  forallb isPoolAccessible l = true ->
  fold_left (fun acc p => if isPoolAccessible p
                          then acc + (capacity p - used p) else 0) l acc
  = fold_left (fun acc p => acc + (capacity p - used p)) l acc.
Proof.
  revert acc. induction l as [|p l IH]; intros acc; simpl; [reflexivity|].
  intros H. apply andb_prop in H. destruct H as [-> H]. auto.
Qed.

Lemma filter_all {A} (f : A -> bool) (l : list A) :
  forallb f l = true -> filter f l = l.
Proof.
  induction l as [|x l IH]; simpl; [reflexivity|].
  intros H. apply andb_prop in H. destruct H as [-> H]. f_equal. auto.
Qed.

Lemma filter_none {A} (f : A -> bool) (l : list A) :
  (forall x, In x l -> f x = false) -> filter f l = [].
Proof.
  induction l as [|x l IH]; simpl; [reflexivity|]. intros H.
  rewrite (H x (or_introl eq_refl)). apply IH. intros y Hy. apply H.
  now right.
Qed.

Lemma filter_filter_and {A} (f g : A -> bool) (l : list A) :
  filter f (filter g l) = filter (fun x => f x && g x) l.
Proof.
  induction l as [|x l IH]; simpl; [reflexivity|].
  destruct (g x); simpl; [|now rewrite andb_false_r].
  rewrite andb_true_r, IH. reflexivity.
Qed.

(** X13. Asked for the capacity of one node, [getCapacity] answers the
    free bytes of the pools of that node that are listed after its last
    inaccessible pool: the sum over all its pools when all of them are
    accessible, and otherwise only over those that follow the last one
    that is not. *)
Theorem getCapacity_counts_after_last_inaccessible :
  forall (srv : Server) (topo : Topology) (key nodeName : string),
    find (fun kv => String.eqb (fst kv) hostnameKey) (segments topo)
    = Some (key, nodeName) ->
    (forallb isPoolAccessible
             (filter (fun p => String.eqb (pool_node p) nodeName)
                     (pools_get srv)) = true ->
     getCapacity srv (mkGetCapacityRequest None (Some topo))
     = Ok (accessibleCapacity (pools_get srv) (Some nodeName)))
    /\ (forall before p after,
           filter (fun p => String.eqb (pool_node p) nodeName) (pools_get srv)
           = before ++ p :: after ->
           isPoolAccessible p = false ->
           forallb isPoolAccessible after = true ->
           getCapacity srv (mkGetCapacityRequest None (Some topo))
           = Ok (accessibleCapacity after None)).
Proof.
  intros srv topo key nodeName Hfind. unfold getCapacity. simpl.
  rewrite Hfind. split.
  - intros Hall. rewrite (capacity_fold_accessible _ _ Hall).
    unfold accessibleCapacity. do 2 f_equal.
    rewrite <- (filter_all _ _ Hall) at 1. apply filter_filter_and.
  - intros before p after -> Hp Hafter.
    rewrite fold_left_app. simpl. rewrite Hp.
    rewrite (capacity_fold_accessible _ _ Hafter).
    unfold accessibleCapacity. do 2 f_equal.
    rewrite <- (filter_all _ _ Hafter) at 1.
    apply filter_ext. intros q. now rewrite andb_true_r.
Qed.

Lemma getCapacity_counts_after_last_inaccessible_witness :
  getCapacity (serverWith (Ok tt) capacityPools) (capacityOf (Some "node1"))
  = Ok (accessibleCapacity capacityPools (Some "node1"))
  /\ getCapacity (serverWith (Ok tt) capacityPools) (capacityOf (Some "node2"))
     = Ok 0.
Proof.
  destruct (getCapacity_counts_after_last_inaccessible
              (serverWith (Ok tt) capacityPools)
              (mkTopology [(hostnameKey, "node1")]) hostnameKey "node1"
              eq_refl) as [H1 _].
  destruct (getCapacity_counts_after_last_inaccessible
              (serverWith (Ok tt) capacityPools)
              (mkTopology [(hostnameKey, "node2")]) hostnameKey "node2"
              eq_refl) as [_ H2].
  split.
  - apply H1. reflexivity.
  - exact (H2 [capacityPool "pool2a" "node2" POOL_DEGRADED 25;
                capacityPool "pool2b" "node2" POOL_FAULTED 55]
               (capacityPool "pool2c" "node2" POOL_OFFLINE 99) []
               eq_refl eq_refl eq_refl).
Defined.

(** X27. What [createVolume] returns for a new volume is what
    [listVolumes] reports for its nexus afterwards: the reply is
    [createK8sVolumeObject] of the nexus the commander returned, provided
    that nexus carries the uuid that was asked for. *)
Theorem createVolume_reply_is_listed :
  forall (srv : Server) (args : CreateVolumeRequest) (volume : K8sVolume)
         (calls : list OperatorCall),
    createVolume srv args = (Replied (Ok volume), calls) ->
    exists spec nexus,
      calls = [EnsureVolume (volumeId volume) spec]
      /\ ensureVolume srv (volumeId volume) spec = Ok nexus
      /\ (n_uuid nexus = volumeId volume ->
          createK8sVolumeObject nexus = volume
          /\ listVolumes [nexus] noPaging 0 ""
             = (Page [volume] None, noPaging)).
Proof.
  intros srv args volume calls. unfold createVolume, refuse.
  destruct (capacityRange args) as [range|]; [|discriminate].
  destruct (volumeContentSource args); [discriminate|].
  destruct (str_match PVC_RE (name args)) as [uuid|]; [|discriminate].
  destruct (checkCapabilities (volumeCapabilities args)); [discriminate|].
  destruct (match accessibilityRequirements args with
            | Some reqs => requisiteNodes (flat_map segments (requisite reqs))
            | None => Some []
            end) as [mustNodes|]; [|discriminate].
  destruct (replicaCountOf srv (parameters_repl args)) as [count|];
    [|discriminate].
  destruct (ensureVolume srv uuid _) as [nexus|[g|nm msg]] eqn:E;
    [|discriminate|discriminate].
  intros H. inversion H; subst. cbn [volumeId]. do 2 eexists.
  split; [reflexivity|]. split; [exact E|].
  intros Huuid. subst uuid. split; reflexivity.
Qed.

Lemma createVolume_reply_is_listed_witness :
  exists volume,
    fst (createVolume (serverWith (Ok tt) []) createRequest)
    = Replied (Ok volume)
    /\ listVolumes [mkNexus UUID "node1" 64 "ONLINE" []] noPaging 0 ""
       = (Page [volume] None, noPaging).
Proof.
  destruct (createVolume_reply_is_listed
              (serverWith (Ok tt) []) createRequest
              (mkK8sVolume 64 UUID [mkTopology [(hostnameKey, "node1")]])
              [EnsureVolume UUID (mkVolumeSpec 64 0 [] [] 2)] eq_refl)
    as [spec [nexus [Hcalls [Hensure Hlist]]]].
  eexists. split; [reflexivity|].
  inversion Hcalls; subst spec. cbn in Hensure. inversion Hensure; subst nexus.
  exact (proj2 (Hlist eq_refl)).
Defined.

(** *** The name of the volume *)

Lemma append_assoc (a b c : string) :
  ((a ++ b) ++ c = a ++ b ++ c)%string.
Proof. induction a as [|x a IH]; simpl; congruence. Qed.

Lemma matchClasses_app (cs1 cs2 : list CharClass) :
  forall s m1 r1 m2 r2,
    matchClasses cs1 s = Some (m1, r1) ->
    matchClasses cs2 r1 = Some (m2, r2) ->
    matchClasses (cs1 ++ cs2) s = Some ((m1 ++ m2)%string, r2).
Proof.
  induction cs1 as [|c cs IH]; simpl; intros s m1 r1 m2 r2 H1 H2.
  - inversion H1; subst. exact H2.
  - destruct s as [|a s]; [discriminate|]. destruct (c a); [|discriminate].
    destruct (matchClasses cs s) as [[m r]|] eqn:E; [|discriminate].
    inversion H1; subst. rewrite (IH _ _ _ _ _ E H2). reflexivity.
Qed.

Lemma matchClasses_hex (n : nat) (a rest : string) :
  hexString n a ->
  matchClasses (repeat hexDigit n) (a ++ rest) = Some (a, rest).
Proof.
  intros [Hlen Hall]. subst n.
  induction a as [|c a IH]; simpl in *; [reflexivity|].
  inversion Hall as [|? ? Hc Ha]; subst. rewrite Hc, (IH Ha). reflexivity.
Qed.

(** The group of [PVC_RE] matches a string of the form of a uuid, and
    takes all of it. *)
Lemma matchClasses_uuid (g post : string) :
  uuidShaped g ->
  matchClasses (group PVC_RE) (g ++ post) = Some (g, post).
Proof.
  intros [a [b [c [d [e [-> [Ha [Hb [Hc [Hd He]]]]]]]]]].
  change (group PVC_RE)
    with (repeat hexDigit 8 ++ [chr "-"] ++ repeat hexDigit 4 ++ [chr "-"]
          ++ repeat hexDigit 4 ++ [chr "-"] ++ repeat hexDigit 4 ++ [chr "-"]
          ++ repeat hexDigit 12).
  assert (Hs : ((a ++ "-" ++ b ++ "-" ++ c ++ "-" ++ d ++ "-" ++ e) ++ post
                = a ++ "-" ++ b ++ "-" ++ c ++ "-" ++ d ++ "-" ++ e ++ post)
               %string).
  { rewrite append_assoc. f_equal. simpl. f_equal.
    rewrite append_assoc. f_equal. simpl. f_equal.
    rewrite append_assoc. f_equal. simpl. f_equal.
    rewrite append_assoc. f_equal. }
  rewrite Hs.
  repeat (eapply matchClasses_app;
          [apply matchClasses_hex; assumption|];
          eapply (matchClasses_app [chr "-"]); [reflexivity|]).
  apply matchClasses_hex. assumption.
Qed.

Lemma matchHere_pvc (g post : string) :
  uuidShaped g ->
  matchHere PVC_RE ("pvc-" ++ g ++ post) = Some g.
Proof.
  intros Hg. unfold matchHere.
  change (matchClasses (before PVC_RE) ("pvc-" ++ g ++ post))
    with (Some ("pvc-", (g ++ post)%string)).
  cbv beta iota. rewrite (matchClasses_uuid g post Hg). reflexivity.
Qed.

Lemma str_match_here (re : Regex) (s g : string) :
  matchHere re s = Some g -> str_match re s = Some g.
Proof. intros H. destruct s; simpl; rewrite H; reflexivity. Qed.

Lemma str_match_later (re : Regex) (pre s : string) :
  str_match re s <> None -> str_match re (pre ++ s) <> None.
Proof.
  intros H. induction pre as [|a pre IH]; simpl; [exact H|].
  destruct (matchHere re (String a (pre ++ s))); [discriminate | exact IH].
Qed.

(** X28. For a [createVolume] request with a capacity range: a name
    without a match of [PVC_RE] makes the call fail with INVALID_ARGUMENT
    and nothing is created. A name with a match gives its captured group
    to the volume: the [volumeId] of any reply and the id in any call of
    the commander is that group, and when the request passes the other
    checks the commander is called once for that id and the nexus it
    returns is answered under that id. A name that holds "pvc-" followed
    by a uuid in lower case does match, and the group is that uuid when
    the name starts with it. *)
Theorem createVolume_name_gives_uuid :
  forall (srv : Server) (args : CreateVolumeRequest) (range : CapacityRange),
    capacityRange args = Some range ->
    (str_match PVC_RE (name args) = None ->
     exists msg, createVolume srv args = refuse INVALID_ARGUMENT msg)
    /\ (forall uuid,
           str_match PVC_RE (name args) = Some uuid ->
           (forall reply, fst (createVolume srv args) = Replied (Ok reply) ->
                          volumeId reply = uuid)
           /\ (forall id spec,
                  In (EnsureVolume id spec) (snd (createVolume srv args)) ->
                  id = uuid)
           /\ (volumeContentSource args = None ->
               checkCapabilities (volumeCapabilities args) = None ->
               (forall reqs, accessibilityRequirements args = Some reqs ->
                             requisiteNodes (flat_map segments (requisite reqs))
                             <> None) ->
               replicaCountOf srv (parameters_repl args) <> None ->
               exists spec,
                 snd (createVolume srv args) = [EnsureVolume uuid spec]
                 /\ forall nexus,
                      ensureVolume srv uuid spec = Ok nexus ->
                      fst (createVolume srv args)
                      = Replied
                          (Ok (mkK8sVolume
                                 (n_size nexus) uuid
                                 [mkTopology [(hostnameKey, n_node nexus)]]))))
    /\ (forall pre g post,
           uuidShaped g ->
           name args = (pre ++ "pvc-" ++ g ++ post)%string ->
           str_match PVC_RE (name args) <> None
           /\ (pre = "" -> str_match PVC_RE (name args) = Some g)).
Proof.
  intros srv args range Hrange. unfold createVolume, refuse.
  rewrite Hrange. split; [|split].
  - intros Hname. rewrite Hname.
    destruct (volumeContentSource args); eexists; reflexivity.
  - intros uuid Hname. rewrite Hname.
    destruct (volumeContentSource args);
      [split; [|split]; simpl; [discriminate|tauto|discriminate]|].
    destruct (checkCapabilities (volumeCapabilities args));
      [split; [|split]; simpl; [discriminate|tauto|discriminate]|].
    destruct (match accessibilityRequirements args with
              | Some reqs => requisiteNodes (flat_map segments (requisite reqs))
              | None => Some []
              end) as [mustNodes|] eqn:Hmust.
    2:{ split; [|split]; simpl; [discriminate|tauto|].
        intros _ _ Hreq _. exfalso.
        destruct (accessibilityRequirements args) as [reqs|];
          [exact (Hreq reqs eq_refl Hmust) | discriminate]. }
    destruct (replicaCountOf srv (parameters_repl args)) as [count|].
    2:{ split; [|split]; simpl; [discriminate|tauto|].
        intros _ _ _ H. now contradiction H. }
    split; [|split].
    + destruct (ensureVolume srv uuid _) as [nexus|[e|nm msg]]; simpl;
        try discriminate.
      intros reply H. inversion H. reflexivity.
    + destruct (ensureVolume srv uuid _) as [nexus|[e|nm msg]]; simpl;
        intros id spec [H|[]]; inversion H; reflexivity.
    + intros _ _ _ _. eexists. split.
      * destruct (ensureVolume srv uuid _) as [nexus|[e|nm msg]]; reflexivity.
      * intros nexus Hensure. rewrite Hensure. reflexivity.
  - intros pre g post Hg ->.
    assert (Hhere : str_match PVC_RE ("pvc-" ++ g ++ post) = Some g)
      by (apply str_match_here, matchHere_pvc, Hg).
    split.
    + apply str_match_later. rewrite Hhere. discriminate.
    + intros ->. exact Hhere.
Qed.

Lemma createVolume_name_gives_uuid_witness :
  uuidShaped UUID
  /\ str_match PVC_RE (name createRequest) = Some UUID
  /\ createVolume (serverWith (Ok tt) []) createRequest
     = (Replied (Ok (mkK8sVolume 64 UUID [mkTopology [(hostnameKey, "node1")]])),
        [EnsureVolume UUID (mkVolumeSpec 64 0 [] [] 2)]).
Proof.
  assert (Hshape : uuidShaped UUID).
  { exists "753b391c", "9b04", "4ce3", "9c74", "9d949152e547".
    split; [reflexivity|].
    repeat split; repeat constructor. }
  destruct (createVolume_name_gives_uuid
              (serverWith (Ok tt) []) createRequest (mkCapacityRange 64 0)
              eq_refl) as [_ [Huuid Hmatch]].
  destruct (Hmatch "" UUID "" Hshape eq_refl) as [_ Hname].
  specialize (Hname eq_refl).
  destruct (Huuid UUID Hname) as [_ [_ Hgo]].
  destruct (Hgo eq_refl eq_refl ltac:(discriminate) ltac:(discriminate))
    as [spec [Hcalls Hreply]].
  split; [exact Hshape|]. split; [exact Hname|].
  reflexivity.
Defined.

(** X29. For a [createVolume] request with a capacity range, a content
    source makes the call fail with INVALID_ARGUMENT before the name, the
    capabilities, the topology and the replica count are looked at: the
    reply is the same whatever they are, and the commander is not
    called. *)
Theorem createVolume_rejects_content_source :
  forall (srv : Server) (args : CreateVolumeRequest)
         (range : CapacityRange) (source : string),
    capacityRange args = Some range ->
    volumeContentSource args = Some source ->
    createVolume srv args
    = refuse INVALID_ARGUMENT "Source for create volume is not supported".
Proof.
  intros srv args range source Hrange Hsrc. unfold createVolume.
  rewrite Hrange, Hsrc. reflexivity.
Qed.

Lemma createVolume_rejects_content_source_witness :
  str_match PVC_RE (name requestWithSource) = None
  /\ checkCapabilities (volumeCapabilities requestWithSource) <> None
  /\ createVolume (serverWith (Ok tt) []) requestWithSource
     = refuse INVALID_ARGUMENT "Source for create volume is not supported".
Proof.
  split; [reflexivity|]. split; [discriminate|].
  apply (createVolume_rejects_content_source
           (serverWith (Ok tt) []) requestWithSource
           (mkCapacityRange 64 0) "snapshot-1"); reflexivity.
Defined.

End CsiMoreProps.

(* ------------------------------------------------------------------ *)
(** ** Properties of the volume object                                  *)
(* ------------------------------------------------------------------ *)

Module VolumeMoreProps.

Import Common Volume VolumeMore Fixtures Scenarios.
Local Open Scope vol_scope.

(** *** The order of strings *)

Lemma String_compare_total (x y : string) :
  String.compare x y = Gt -> String.compare y x <> Gt.
Proof.
  intros H. rewrite String.compare_antisym, H. discriminate.
Qed.

Lemma String_compare_trans (x y z : string) :
  Registry.notAfter String.compare x y ->
  Registry.notAfter String.compare y z ->
  Registry.notAfter String.compare x z.
Proof.
  unfold Registry.notAfter. revert y z.
  induction x as [|a x IH]; intros [|b y] [|c z]; simpl; try congruence.
  unfold Ascii.compare.
  destruct (N.compare_spec (N_of_ascii a) (N_of_ascii b)) as [Hab|Hab|Hab],
           (N.compare_spec (N_of_ascii b) (N_of_ascii c)) as [Hbc|Hbc|Hbc],
           (N.compare_spec (N_of_ascii a) (N_of_ascii c)) as [Hac|Hac|Hac];
    try congruence; try lia; eauto.
Qed.

Lemma String_compare_antisym (x y : string) :
  Registry.notAfter String.compare x y ->
  Registry.notAfter String.compare y x -> x = y.
Proof.
  unfold Registry.notAfter. intros H1 H2. apply String.compare_eq_iff.
  destruct (String.compare x y) eqn:E; [reflexivity | | congruence].
  rewrite String.compare_antisym, E in H2. simpl in H2. congruence.
Qed.

(** *** Sorting *)

Lemma sort_of_sorted {A} (cmp : A -> A -> comparison) (l : list A) :
  StronglySorted (Registry.notAfter cmp) l -> Registry.sort cmp l = l.
Proof.
  induction 1 as [|x l Hs IH Hx]; simpl; [reflexivity|].
  fold (Registry.sort cmp l). rewrite IH.
  destruct l as [|y l]; [reflexivity|]. simpl.
  inversion Hx as [|? ? Hxy _]; subst. unfold Registry.notAfter in Hxy.
  destruct (cmp x y); congruence.
Qed.

Lemma sorted_strings_unique (l1 l2 : list string) :
  StronglySorted (Registry.notAfter String.compare) l1 ->
  StronglySorted (Registry.notAfter String.compare) l2 ->
  Permutation l1 l2 -> l1 = l2.
Proof.
  intros H1. revert l2. induction H1 as [|x l1 Hs IH Hx]; intros l2 H2 Hp.
  - apply Permutation_nil in Hp. now subst.
  - destruct H2 as [|y l2 Hs2 Hy].
    + apply Permutation_sym, Permutation_nil in Hp. discriminate.
    + assert (x = y).
      { rewrite Forall_forall in Hx, Hy.
        assert (Hin1 : In x (y :: l2))
          by (eapply Permutation_in; [exact Hp | now left]).
        assert (Hin2 : In y (x :: l1))
          by (eapply Permutation_in;
              [apply Permutation_sym; exact Hp | now left]).
        destruct Hin1 as [->|Hin1]; [reflexivity|].
        destruct Hin2 as [->|Hin2]; [reflexivity|].
        apply String_compare_antisym; auto. }
      subst y. f_equal. apply IH; [assumption|].
      eapply Permutation_cons_inv; exact Hp.
Qed.

Lemma sort_strings_sorted (l : list string) :
  StronglySorted (Registry.notAfter String.compare)
                 (Registry.sort String.compare l).
Proof.
  apply RegistryProps.sort_sorted.
  - exact String_compare_total.
  - exact String_compare_trans.
Qed.

Lemma sort_strings_perm (l1 l2 : list string) :
  Permutation l1 l2 ->
  Registry.sort String.compare l1 = Registry.sort String.compare l2.
Proof.
  intros Hp. apply sorted_strings_unique; try apply sort_strings_sorted.
  rewrite !EnsureProps.sort_perm. exact Hp.
Qed.

(** *** Scores *)

Lemma includes_nonempty (l : list string) (x : string) :
  (0 <? Z.of_nat (List.length l)) && includes l x = includes l x.
Proof. destruct l; reflexivity. Qed.

(** X14. [_scoreReplica] gives a score between 0 and 18, and it ranks
    replicas lexicographically by its four criteria: being on a required
    node counts more than all the others together, then being ONLINE,
    then being on a preferred node, then being on the node of the nexus. *)
Theorem scoreReplica_is_lexicographic :
  forall (v : Volume) (a b : Replica),
    0 <= _scoreReplica v a <= 18
    /\ (_scoreReplica v a >= _scoreReplica v b
        <-> Registry.tupleGe (replicaKey v a) (replicaKey v b)).
Proof.
  intros v a b. unfold _scoreReplica, replicaKey, Registry.tupleGe.
  rewrite !includes_nonempty.
  destruct (includes (requiredNodes v) (r_node a)),
           (includes (requiredNodes v) (r_node b)),
           (String.eqb (r_state a) "ONLINE"),
           (String.eqb (r_state b) "ONLINE"),
           (includes (preferredNodes v) (r_node a)),
           (includes (preferredNodes v) (r_node b)),
           (nexus v) as [nx|];
    try destruct (String.eqb (r_node a) (n_node nx));
    try destruct (String.eqb (r_node b) (n_node nx));
    simpl; lia.
Qed.

Lemma score_total (v : Volume) (x y : Replica) :
  Z.compare (_scoreReplica v y) (_scoreReplica v x) = Gt ->
  Z.compare (_scoreReplica v x) (_scoreReplica v y) <> Gt.
Proof. rewrite !Z.compare_gt_iff. lia. Qed.

Lemma score_trans (v : Volume) (x y z : Replica) :
  Registry.notAfter
    (fun a b => Z.compare (_scoreReplica v b) (_scoreReplica v a)) x y ->
  Registry.notAfter
    (fun a b => Z.compare (_scoreReplica v b) (_scoreReplica v a)) y z ->
  Registry.notAfter
    (fun a b => Z.compare (_scoreReplica v b) (_scoreReplica v a)) x z.
Proof.
  unfold Registry.notAfter. rewrite !Z.compare_gt_iff. lia.
Qed.

(** X15. [_prioritizeReplicas] returns all the replicas of the volume,
    each as often as it is in the volume, in an order in which no replica
    comes before one of a higher score. *)
Theorem prioritizeReplicas_sorts_by_score :
  forall v : Volume,
    Permutation (_prioritizeReplicas v) (values (replicas v))
    /\ StronglySorted (fun a b => _scoreReplica v a >= _scoreReplica v b)
                      (_prioritizeReplicas v).
Proof.
  intros v. split; [apply EnsureProps.sort_perm|].
  unfold _prioritizeReplicas.
  pose proof (RegistryProps.sort_sorted _ _ (score_total v) (score_trans v)
                (values (replicas v))) as Hs.
  induction Hs as [|x l Hs IH Hx]; constructor; [assumption|].
  eapply Forall_impl; [|exact Hx]. intros y Hy.
  unfold Registry.notAfter in Hy. rewrite Z.compare_gt_iff in Hy. lia.
Qed.

(** *** [update] *)

Lemma isEqual_spec (a b : list string) : isEqual a b = true <-> a = b.
Proof.
  unfold isEqual. destruct (list_eq_dec string_dec a b); split; congruence.
Qed.

Lemma differ_spec (a b : option Z) : differ a b = false <-> a = b.
Proof.
  destruct a as [x|], b as [y|]; simpl; split; try congruence.
  - rewrite negb_false_iff, Z.eqb_eq. congruence.
  - intros H. inversion H. rewrite negb_false_iff. apply Z.eqb_refl.
Qed.

Lemma sizeFits_checks (v : Volume) (spec : Spec) :
  sizeFits v spec
  <-> (size v <? spec_requiredBytes spec) = false
      /\ match spec_limitBytes spec with
         | Some limit => negb (limit =? 0) && (limit <? size v)
         | None => false
         end = false.
Proof.
  unfold sizeFits. rewrite Z.ltb_ge. split; intros [H1 H2]; (split; [exact H1|]).
  - destruct (spec_limitBytes spec) as [limit|]; [|reflexivity].
    destruct (H2 limit eq_refl) as [->|Hle]; [reflexivity|].
    apply andb_false_iff. right. apply Z.ltb_ge. exact Hle.
  - intros limit Hl. rewrite Hl in H2. apply andb_false_iff in H2.
    destruct H2 as [H2|H2].
    + left. apply negb_false_iff, Z.eqb_eq in H2. exact H2.
    + right. apply Z.ltb_ge. exact H2.
Qed.

(** An assignment made only when the value differs is the assignment. *)
Lemma assign_replicaCount (v : Volume) (x : Z) :
  (if negb (replicaCount v =? x) then set_replicaCount v x else v)
  = set_replicaCount v x.
Proof.
  destruct v. simpl. destruct (Z.eqb_spec replicaCount0 x); subst; reflexivity.
Qed.

Lemma assign_preferredNodes (v : Volume) (x : list string) :
  (if negb (isEqual (preferredNodes v) x) then set_preferredNodes v x else v)
  = set_preferredNodes v x.
Proof.
  destruct v. simpl. destruct (isEqual preferredNodes0 x) eqn:E;
    [|reflexivity].
  apply isEqual_spec in E. subst. reflexivity.
Qed.

Lemma assign_requiredNodes (v : Volume) (x : list string) :
  (if negb (isEqual (requiredNodes v) x) then set_requiredNodes v x else v)
  = set_requiredNodes v x.
Proof.
  destruct v. simpl. destruct (isEqual requiredNodes0 x) eqn:E;
    [|reflexivity].
  apply isEqual_spec in E. subst. reflexivity.
Qed.

Lemma assign_requiredBytes (v : Volume) (x : Z) :
  (if negb (requiredBytes v =? x) then set_requiredBytes v x else v)
  = set_requiredBytes v x.
Proof.
  destruct v. simpl. destruct (Z.eqb_spec requiredBytes0 x); subst; reflexivity.
Qed.

Lemma assign_limitBytes (v : Volume) (x : option Z) :
  (if differ (limitBytes v) x then set_limitBytes v x else v)
  = set_limitBytes v x.
Proof.
  destruct v. simpl. destruct (differ limitBytes0 x) eqn:E; [reflexivity|].
  apply differ_spec in E. subst. reflexivity.
Qed.

(** What a successful [update] returns. *)
Lemma update_ok (v : Volume) (spec : Spec) :
  sizeFits v spec ->
  exists changed,
    update v spec = Ok (changed, updated v spec)
    /\ (changed = false <-> updated v spec = v).
Proof.
  intros Hfit. apply sizeFits_checks in Hfit. destruct Hfit as [H1 H2].
  unfold update. rewrite H1, H2. clear H1 H2. cbv zeta.
  rewrite !assign_replicaCount, !assign_preferredNodes,
          !assign_requiredNodes, !assign_requiredBytes, !assign_limitBytes.
  eexists. split; [destruct v; reflexivity|].
  unfold updated. destruct v. simpl.
  destruct (Z.eqb_spec replicaCount0 (spec_replicaCount spec)) as [E1|E1];
    destruct (isEqual preferredNodes0 (sortedNodes (spec_preferredNodes spec)))
      eqn:E2;
    destruct (isEqual requiredNodes0 (sortedNodes (spec_requiredNodes spec)))
      eqn:E3;
    destruct (Z.eqb_spec requiredBytes0 (spec_requiredBytes spec)) as [E4|E4];
    destruct (differ limitBytes0 (spec_limitBytes spec)) eqn:E5;
    simpl;
    (split;
     [intros Hc; try discriminate Hc;
      apply isEqual_spec in E2; apply isEqual_spec in E3;
      apply differ_spec in E5; subst; reflexivity
     |intros Hv; try reflexivity; exfalso; inversion Hv; subst;
      try (rewrite (proj2 (isEqual_spec _ _) eq_refl) in E2; discriminate E2);
      try (rewrite (proj2 (isEqual_spec _ _) eq_refl) in E3; discriminate E3);
      try (rewrite (proj2 (differ_spec _ _) eq_refl) in E5; discriminate E5);
      try (exact (E1 eq_refl)); try (exact (E4 eq_refl))]).
Qed.

(** X16. [update] throws INVALID_ARGUMENT when the spec requires more
    bytes than the size of the volume, or sets a limit (other than 0)
    below that size, and succeeds otherwise. In particular a volume
    fresh from the constructor, whose size is still 0, rejects every spec
    that requires a positive number of bytes. *)
Theorem update_checks_size :
  forall (v : Volume) (spec : Spec),
    (size v < spec_requiredBytes spec ->
     update v spec
     = throwGrpc INVALID_ARGUMENT
         ("Extending the volume " ++ quoted (uuid v) ++ " is not supported"))
    /\ (spec_requiredBytes spec <= size v ->
        forall limit,
          spec_limitBytes spec = Some limit -> limit <> 0 ->
          limit < size v ->
          update v spec
          = throwGrpc INVALID_ARGUMENT
              ("Shrinking the volume " ++ quoted (uuid v)
               ++ " is not supported"))
    /\ (sizeFits v spec -> exists changed v', update v spec = Ok (changed, v'))
    /\ (forall id spec0,
           0 < spec_requiredBytes spec ->
           exists msg,
             update (construct id spec0) spec
             = throwGrpc INVALID_ARGUMENT msg).
Proof.
  intros v spec. split; [|split; [|split]].
  - intros H. unfold update. apply Z.ltb_lt in H. now rewrite H.
  - intros H limit Hl Hne Hlt. unfold update.
    apply Z.ltb_ge in H. rewrite H, Hl.
    apply Z.eqb_neq in Hne. apply Z.ltb_lt in Hlt. now rewrite Hne, Hlt.
  - intros Hfit. destruct (update_ok v spec Hfit) as [changed [H _]].
    now exists changed, (updated v spec).
  - intros id spec0 H. unfold update. cbn [size construct].
    apply Z.ltb_lt in H. rewrite H. eexists. reflexivity.
Qed.

(** X17. A successful [update] takes over the replica count, the node
    lists (sorted), the required bytes and the limit of the spec and
    touches nothing else of the volume, neither its size nor its nexus,
    replicas or state; and it returns [false] exactly when the volume is
    the same as before. *)
Theorem update_takes_over_spec :
  forall (v : Volume) (spec : Spec) (changed : bool) (v' : Volume),
    update v spec = Ok (changed, v') ->
    v' = updated v spec /\ (changed = false <-> v' = v).
Proof.
  intros v spec changed v' H.
  assert (Hfit : sizeFits v spec).
  { apply sizeFits_checks. unfold update in H.
    destruct (size v <? spec_requiredBytes spec); [discriminate|].
    split; [reflexivity|].
    destruct (match spec_limitBytes spec with
              | Some limit => negb (limit =? 0) && (limit <? size v)
              | None => false
              end); [discriminate | reflexivity]. }
  destruct (update_ok v spec Hfit) as [c [Hc Hiff]].
  rewrite Hc in H. inversion H; subst. split; [reflexivity | exact Hiff].
Qed.

Lemma update_takes_over_spec_witness :
  update servingVolume widerSpec = Ok (true, updated servingVolume widerSpec)
  /\ updated servingVolume widerSpec <> servingVolume.
Proof.
  destruct (update_takes_over_spec
              servingVolume widerSpec true (updated servingVolume widerSpec)
              eq_refl) as [_ H].
  split; [reflexivity|]. intros Heq. apply H in Heq. discriminate Heq.
Defined.

(** X18. [update] is idempotent, and it does not mind the order of the
    node names: after a successful update, an update with the same
    numbers and the same node names in any order succeeds, returns
    [false] and leaves the volume as it is. *)
Theorem update_again_changes_nothing :
  forall (v : Volume) (spec spec' : Spec) (changed : bool) (v' : Volume),
    update v spec = Ok (changed, v') ->
    spec_replicaCount spec' = spec_replicaCount spec ->
    spec_requiredBytes spec' = spec_requiredBytes spec ->
    spec_limitBytes spec' = spec_limitBytes spec ->
    Permutation (nodesOf (spec_preferredNodes spec'))
                (nodesOf (spec_preferredNodes spec)) ->
    Permutation (nodesOf (spec_requiredNodes spec'))
                (nodesOf (spec_requiredNodes spec)) ->
    update v' spec' = Ok (false, v').
Proof.
  intros v spec spec' changed v' H Hcount Hbytes Hlimit Hpref Hreq.
  assert (Hfit : sizeFits v spec).
  { apply sizeFits_checks. unfold update in H.
    destruct (size v <? spec_requiredBytes spec); [discriminate|].
    split; [reflexivity|].
    destruct (match spec_limitBytes spec with
              | Some limit => negb (limit =? 0) && (limit <? size v)
              | None => false
              end); [discriminate | reflexivity]. }
  destruct (update_ok v spec Hfit) as [c [Hc _]].
  rewrite Hc in H. inversion H; subst c v'. clear H Hc.
  assert (Hfit' : sizeFits (updated v spec) spec').
  { unfold sizeFits in *. cbn [size updated]. rewrite Hbytes, Hlimit.
    exact Hfit. }
  destruct (update_ok _ spec' Hfit') as [c' [Hc' Hiff]].
  assert (Hsame : updated (updated v spec) spec' = updated v spec).
  { unfold updated. cbn [uuid size nexus replicas state reason].
    rewrite Hcount, Hbytes, Hlimit. unfold sortedNodes.
    fold (nodesOf (spec_preferredNodes spec')).
    fold (nodesOf (spec_requiredNodes spec')).
    fold (nodesOf (spec_preferredNodes spec)).
    fold (nodesOf (spec_requiredNodes spec)).
    rewrite (sort_strings_perm _ _ Hpref), (sort_strings_perm _ _ Hreq).
    reflexivity. }
  rewrite Hc', Hsame. apply Hiff in Hsame. now rewrite Hsame.
Qed.

Lemma update_again_changes_nothing_witness :
  update (updated servingVolume widerSpec)
         (mkSpec 3 (Some ["nodeA"; "nodeB"]) (Some []) 64 None)
  = Ok (false, updated servingVolume widerSpec).
Proof.
  apply (update_again_changes_nothing
           servingVolume widerSpec
           (mkSpec 3 (Some ["nodeA"; "nodeB"]) (Some []) 64 None)
           true _ eq_refl eq_refl eq_refl eq_refl).
  - simpl. apply perm_swap.
  - simpl. constructor.
Defined.

(** *** The replica handlers *)

Lemma aliasReplica_fields (r : Replica) (v : Volume) :
  uuid (aliasReplica r v) = uuid v
  /\ nexus (aliasReplica r v) = nexus v
  /\ size (aliasReplica r v) = size v
  /\ state (aliasReplica r v) = state v.
Proof.
  destruct (EnsureProps.aliasReplica_spec r v) as [E _]. rewrite E.
  repeat split.
Qed.

Lemma handle_fields (v v' : Volume) (ev : ReplicaEvent) :
  handle v ev = Ok v' ->
  uuid v' = uuid v /\ nexus v' = nexus v /\ size v' = size v
  /\ state v' = state v.
Proof.
  destruct (aliasReplica_fields
              match ev with ReplicaNew r | ReplicaMod r | ReplicaDel r => r end
              v) as [H1 [H2 [H3 H4]]].
  destruct ev as [r|r|r]; cbn [handle];
    unfold newReplica, modReplica, delReplica, get;
    destruct (negb _); try discriminate;
    (destruct (lookup (r_node r) _);
     [try destruct (sameReplica _ _)
     |destruct (includes objectPrototypeKeys (r_node r))]);
    try discriminate; intros H; inversion H; subst v';
    cbn [uuid nexus size state set_replicas]; auto.
Qed.

(** X19. The handlers of the replica events keep the replica map well
    formed, every replica filed under the name of its own node and at
    most one replica per node, over any sequence of events that they
    accept; and they touch nothing but the replica map: uuid, nexus,
    size and state of the volume stay as they are. *)
Theorem replica_events_keep_one_replica_per_node :
  forall (events : list ReplicaEvent) (v v' : Volume),
    wellFormed v ->
    handleAll v events = Ok v' ->
    wellFormed v'
    /\ uuid v' = uuid v /\ nexus v' = nexus v /\ size v' = size v
    /\ state v' = state v.
Proof.
  induction events as [|ev events IH]; intros v v' Hwf; simpl.
  - intros H. inversion H; subst. auto.
  - destruct (handle v ev) as [v1|e] eqn:E; [|discriminate].
    intros H. destruct (handle_fields v v1 ev E) as [H1 [H2 [H3 H4]]].
    assert (Hwf1 : wellFormed v1).
    { apply (EnsureProps.replica_handlers_keep_wellFormed
               v v1 match ev with
                    | ReplicaNew r | ReplicaMod r | ReplicaDel r => r
                    end Hwf).
      destruct ev; simpl in E; auto. }
    destruct (IH v1 v' Hwf1 H) as [Hw [G1 [G2 [G3 G4]]]].
    split; [exact Hw|]. repeat split; congruence.
Qed.

Lemma replica_events_keep_one_replica_per_node_witness :
  wellFormed (construct UUID widerSpec)
  /\ exists v',
       handleAll (construct UUID widerSpec)
                 [ReplicaNew (replicaOn "nodeA" REPLICA_NONE "ONLINE");
                  ReplicaNew (replicaOn "nodeB" REPLICA_NVMF "ONLINE");
                  ReplicaNew (replicaOn "nodeA" REPLICA_NVMF "OFFLINE");
                  ReplicaDel (replicaOn "nodeB" REPLICA_NVMF "ONLINE")]
       = Ok v'
       /\ wellFormed v'.
Proof.
  assert (Hwf : wellFormed (construct UUID widerSpec)) by (split; constructor).
  split; [exact Hwf|]. eexists. split; [vm_compute; reflexivity|].
  apply (replica_events_keep_one_replica_per_node
           [ReplicaNew (replicaOn "nodeA" REPLICA_NONE "ONLINE");
            ReplicaNew (replicaOn "nodeB" REPLICA_NVMF "ONLINE");
            ReplicaNew (replicaOn "nodeA" REPLICA_NVMF "OFFLINE");
            ReplicaDel (replicaOn "nodeB" REPLICA_NVMF "ONLINE")]
           (construct UUID widerSpec) _ Hwf).
  vm_compute. reflexivity.
Defined.

(** What the aliasing leaves as it is: the uuid, and whether and which
    replica of this identity is filed under the node. *)
Lemma aliasReplica_lookup (r : Replica) (v : Volume) :
  uuid (aliasReplica r v) = uuid v
  /\ lookup (r_node r) (replicas (aliasReplica r v))
     = match lookup (r_node r) (replicas v) with
       | Some r0 => if sameReplica r0 r then Some r else Some r0
       | None => None
       end.
Proof.
  unfold aliasReplica.
  destruct (lookup (r_node r) (replicas v)) as [r0|] eqn:E;
    [destruct (sameReplica r0 r)|]; cbn [uuid replicas set_replicas];
    rewrite ?EnsureProps.lookup_assign_same, ?E; split; reflexivity.
Qed.

(** X20. A replica that is attached to a volume with no replica on its
    node and is detached again leaves the volume as it was before,
    provided the name of the node is not the name of a property that a
    plain object inherits from [Object.prototype]. On a node of such a
    name (constructor, toString, ...) no replica can be attached: the
    lookup [this.replicas[nodeName]] finds the inherited property, so
    [newReplica] stores nothing and [delReplica] fails its assertion. *)
Theorem newReplica_delReplica_round_trip :
  forall (v : Volume) (r : Replica),
    r_uuid r = uuid v ->
    lookup (r_node r) (replicas v) = None ->
    if includes objectPrototypeKeys (r_node r) then
      newReplica v r = Ok v /\ delReplica v r = AssertionError
    else
      exists v1,
        newReplica v r = Ok v1
        /\ lookup (r_node r) (replicas v1) = Some r
        /\ delReplica v1 r = Ok v.
Proof.
  intros v r Huuid Hnone.
  assert (Hnew : newReplica v r
                 = if includes objectPrototypeKeys (r_node r) then Ok v
                   else Ok (set_replicas v (assign (r_node r) r (replicas v)))).
  { unfold newReplica, get, aliasReplica.
    rewrite Hnone, Huuid, String.eqb_refl. cbn [negb]. rewrite Hnone.
    destruct (includes objectPrototypeKeys (r_node r)); reflexivity. }
  assert (Hdel : forall v0 : Volume,
             r_uuid r = uuid v0 ->
             delReplica v0 r
             = match lookup (r_node r) (replicas v0) with
               | Some r0 =>
                   if sameReplica r0 r
                   then Ok (set_replicas
                              (aliasReplica r v0)
                              (remove (r_node r)
                                      (replicas (aliasReplica r v0))))
                   else AssertionError
               | None =>
                   if includes objectPrototypeKeys (r_node r)
                   then AssertionError else Ok v0
               end).
  { intros v0 Hu. unfold delReplica, get.
    destruct (aliasReplica_lookup r v0) as [Halu Hall]. rewrite Halu, Hu.
    rewrite String.eqb_refl. cbn [negb]. rewrite Hall.
    destruct (lookup (r_node r) (replicas v0)) as [r0|] eqn:E.
    - destruct (sameReplica r0 r) eqn:Es; [|now rewrite Es].
      rewrite EnsureProps.sameReplica_refl. reflexivity.
    - destruct (includes objectPrototypeKeys (r_node r)); [reflexivity|].
      unfold aliasReplica. rewrite E. reflexivity. }
  rewrite Hnew. destruct (includes objectPrototypeKeys (r_node r)) eqn:Hinh.
  - split; [reflexivity|]. rewrite (Hdel v Huuid), Hnone. reflexivity.
  - eexists. split; [reflexivity|]. cbn [replicas set_replicas].
    rewrite EnsureProps.lookup_assign_same. split; [reflexivity|].
    rewrite Hdel by exact Huuid. cbn [replicas set_replicas].
    rewrite EnsureProps.lookup_assign_same, EnsureProps.sameReplica_refl.
    f_equal.
    rewrite (EnsureProps.aliasReplica_known r
               (set_replicas v (assign (r_node r) r (replicas v))))
      by apply EnsureProps.lookup_assign_same.
    cbn [replicas set_replicas].
    rewrite CsiMoreProps.remove_assign_absent
      by now apply EnsureProps.lookup_None.
    destruct v; reflexivity.
Qed.

Lemma newReplica_delReplica_round_trip_witness :
  (exists v1,
      newReplica iscsiVolume (replicaOn "node3" REPLICA_NONE "ONLINE") = Ok v1
      /\ lookup "node3" (replicas v1)
         = Some (replicaOn "node3" REPLICA_NONE "ONLINE")
      /\ delReplica v1 (replicaOn "node3" REPLICA_NONE "ONLINE")
         = Ok iscsiVolume)
  /\ newReplica iscsiVolume (replicaOn "constructor" REPLICA_NONE "ONLINE")
     = Ok iscsiVolume
  /\ delReplica iscsiVolume (replicaOn "constructor" REPLICA_NONE "ONLINE")
     = AssertionError.
Proof.
  split.
  - exact (newReplica_delReplica_round_trip
             iscsiVolume (replicaOn "node3" REPLICA_NONE "ONLINE")
             eq_refl eq_refl).
  - exact (newReplica_delReplica_round_trip
             iscsiVolume (replicaOn "constructor" REPLICA_NONE "ONLINE")
             eq_refl eq_refl).
Defined.

(** X21. A node holds one replica of a volume. When the volume has a
    replica on a node, an event about another replica object on that node
    cannot displace it: [newReplica] leaves the volume as it is, and
    [modReplica] and [delReplica] fail their assertion. *)
Theorem replica_of_occupied_node_is_kept :
  forall (v : Volume) (r0 r : Replica),
    r_uuid r = uuid v ->
    lookup (r_node r) (replicas v) = Some r0 ->
    sameReplica r0 r = false ->
    newReplica v r = Ok v
    /\ modReplica v r = AssertionError
    /\ delReplica v r = AssertionError.
Proof.
  intros v r0 r Huuid Hsome Hdiff.
  unfold newReplica, modReplica, delReplica, get, aliasReplica.
  rewrite Hsome, Hdiff, Huuid, String.eqb_refl. cbn [negb].
  rewrite Hsome, Hdiff. repeat split.
Qed.

Lemma replica_of_occupied_node_is_kept_witness :
  newReplica iscsiVolume
             (mkReplica UUID "node2" "other-pool" 64 REPLICA_NONE "" "ONLINE")
  = Ok iscsiVolume
  /\ delReplica iscsiVolume
                (mkReplica UUID "node2" "other-pool" 64 REPLICA_NONE ""
                           "ONLINE")
     = AssertionError.
Proof.
  destruct (replica_of_occupied_node_is_kept
              iscsiVolume
              (replicaOn "node2" REPLICA_ISCSI "ONLINE")
              (mkReplica UUID "node2" "other-pool" 64 REPLICA_NONE "" "ONLINE")
              eq_refl eq_refl eq_refl) as [H1 [_ H3]].
  split; assumption.
Defined.

(** *** The requests a computation sends *)

Section Sends.

Variable P : Request -> Prop.

Lemma sends_ret {A} (a : A) : sends P (ret a).
Proof.
  intros s. exists []. rewrite app_nil_r. split; [reflexivity | constructor].
Qed.

Lemma sends_throw {A} (e : Exn) : sends P (@throw A e).
Proof.
  intros s. exists []. rewrite app_nil_r. split; [reflexivity | constructor].
Qed.

Lemma sends_throwError {A} (c : GrpcCode) (msg : string) :
  sends P (@throwError A c msg).
Proof. apply sends_throw. Qed.

Lemma sends_getVol : sends P getVol.
Proof.
  intros s. exists []. rewrite app_nil_r. split; [reflexivity | constructor].
Qed.

Lemma sends_putVol (v : Volume) : sends P (putVol v).
Proof.
  intros s. exists []. rewrite app_nil_r. split; [reflexivity | constructor].
Qed.

Lemma sends_mutate (f : Volume -> Volume) : sends P (mutate f).
Proof.
  intros s. exists []. rewrite app_nil_r. split; [reflexivity | constructor].
Qed.

Lemma sends_deliver (handler : Volume -> Result Volume) :
  sends P (deliver handler).
Proof.
  intros s. exists []. rewrite app_nil_r. unfold deliver.
  destruct (handler (vol s)); split; (reflexivity || constructor).
Qed.

Lemma sends_call {A} (rq : Request) (reply : nat -> Result A) :
  P rq -> sends P (call rq reply).
Proof.
  intros Hrq s. exists [rq]. split; [reflexivity | repeat constructor].
  exact Hrq.
Qed.

Lemma sends_bind {A B} (m : M A) (k : A -> M B) :
  sends P m -> (forall a, sends P (k a)) -> sends P (bind m k).
Proof.
  intros Hm Hk s. destruct (Hm s) as [e1 [H1 F1]]. unfold bind.
  destruct (m s) as [[a|e] s1]; simpl in *.
  - destruct (Hk a s1) as [e2 [H2 F2]]. exists (e1 ++ e2).
    rewrite H2, H1, app_assoc. split; [reflexivity|].
    apply Forall_app. split; assumption.
  - exists e1. split; assumption.
Qed.

Lemma sends_try_catch {A} (m : M A) (h : Exn -> M A) :
  sends P m -> (forall e, sends P (h e)) -> sends P (try_catch m h).
Proof.
  intros Hm Hh s. destruct (Hm s) as [e1 [H1 F1]]. unfold try_catch.
  destruct (m s) as [[a|e] s1]; simpl in *.
  - exists e1. split; assumption.
  - destruct (Hh e s1) as [e2 [H2 F2]]. exists (e1 ++ e2).
    rewrite H2, H1, app_assoc. split; [reflexivity|].
    apply Forall_app. split; assumption.
Qed.

Lemma sends_attempt {A} (m : M A) : sends P m -> sends P (attempt m).
Proof.
  intros Hm s. destruct (Hm s) as [e1 [H1 F1]]. unfold attempt.
  destruct (m s) as [r s1]. exists e1. split; assumption.
Qed.

End Sends.

Lemma sends_weaken {A} (P Q : Request -> Prop) (m : M A) :
  (forall rq, P rq -> Q rq) -> sends P m -> sends Q m.
Proof.
  intros HPQ Hm s. destruct (Hm s) as [e [H F]]. exists e.
  split; [exact H|]. eapply Forall_impl; eassumption.
Qed.

(** The entity methods send the one request they are made for. *)
Lemma sends_Pool_createReplica P env p id sz :
  P (CreateReplica p id sz) -> sends P (Pool_createReplica env p id sz).
Proof.
  intros H. unfold Pool_createReplica.
  apply sends_bind; [now apply sends_call|]. intros reply.
  apply sends_bind; [apply sends_deliver | intros; apply sends_ret].
Qed.

Lemma sends_Replica_setShare P env r share :
  P (ShareReplica r share) -> sends P (Replica_setShare env r share).
Proof.
  intros H. unfold Replica_setShare.
  apply sends_bind; [now apply sends_call|]. intros uri.
  apply sends_bind; [apply sends_mutate|]. intros _.
  apply sends_bind; [apply sends_deliver | intros; apply sends_ret].
Qed.

Lemma sends_Replica_destroy P env r :
  P (DestroyReplica r) -> sends P (Replica_destroy env r).
Proof.
  intros H. unfold Replica_destroy.
  apply sends_bind; [|intros; apply sends_deliver].
  apply sends_try_catch; [now apply sends_call|].
  intros e. destruct (isNotFound e); [apply sends_ret | apply sends_throw].
Qed.

Lemma sends_Node_createNexus P env node id sz children :
  P (CreateNexus node id sz children) ->
  sends P (Node_createNexus env node id sz children).
Proof.
  intros H. unfold Node_createNexus.
  apply sends_bind; [now apply sends_call|]. intros reply.
  apply sends_bind; [apply sends_deliver | intros; apply sends_ret].
Qed.

Lemma sends_Nexus_addReplica P env nx r :
  P (AddChildNexus nx r) -> sends P (Nexus_addReplica env nx r).
Proof.
  intros H. unfold Nexus_addReplica.
  apply sends_bind; [now apply sends_call|]. intros st.
  apply sends_bind; [apply sends_mutate|]. intros _.
  apply sends_bind; [apply sends_deliver | intros; apply sends_ret].
Qed.

Lemma sends_Nexus_removeReplica P env nx r :
  P (RemoveChildNexus nx r) -> sends P (Nexus_removeReplica env nx r).
Proof.
  intros H. unfold Nexus_removeReplica.
  apply sends_bind; [now apply sends_call|]. intros _.
  apply sends_bind; [apply sends_mutate|]. intros _.
  apply sends_bind; [apply sends_deliver | intros; apply sends_ret].
Qed.

(** The steps of [ensure], for a set of requests that holds what the step
    may send. *)
Lemma sends_createLoop P env :
  (forall p id sz, P (CreateReplica p id sz)) ->
  forall pools count errors, sends P (createLoop env pools count errors).
Proof.
  intros H. induction pools as [|pool rest IH]; intros count errors;
    cbn [createLoop]; [apply sends_ret|].
  destruct (0 <? count); [|apply sends_ret].
  apply sends_bind; [apply sends_getVol|]. intros v.
  apply sends_bind; [apply sends_attempt, sends_Pool_createReplica, H|].
  intros [r|e]; apply IH.
Qed.

Lemma sends_createReplicas P env count :
  (forall p id sz, P (CreateReplica p id sz)) ->
  sends P (_createReplicas env count).
Proof.
  intros H. unfold _createReplicas.
  apply sends_bind; [apply sends_getVol|]. intros v.
  destruct (_ <? count); [apply sends_throwError|].
  apply sends_bind.
  { destruct (size v =? 0); [apply sends_putVol | apply sends_ret]. }
  intros _. apply sends_bind; [now apply sends_createLoop|].
  intros [remaining errors].
  destruct (0 <? remaining); [apply sends_throwError | apply sends_ret].
Qed.

Lemma sends_shareLoop P env node :
  (forall r share, wantedShare node r = Some share ->
                   P (ShareReplica r share)) ->
  forall rs, sends P (shareLoop env node rs).
Proof.
  intros H. induction rs as [|r rest IH]; cbn [shareLoop]; [apply sends_ret|].
  apply sends_bind.
  - destruct (wantedShare node r) as [share|] eqn:E; [|apply sends_ret].
    apply sends_try_catch; [now apply sends_Replica_setShare, H|].
    intros e. apply sends_throwError.
  - intros r'. apply sends_bind; [apply IH | intros; apply sends_ret].
Qed.

Lemma sends_ensureReplicaShareProtocols P env :
  (forall node r share, wantedShare node r = Some share ->
                        P (ShareReplica r share)) ->
  sends P (_ensureReplicaShareProtocols env).
Proof.
  intros H. unfold _ensureReplicaShareProtocols.
  apply sends_bind; [apply sends_getVol|]. intros v.
  destruct (_prioritizeReplicas v) as [|x l]; [apply sends_throwError|].
  destruct (nexus v) as [nx|].
  - apply sends_shareLoop. intros r share. apply H.
  - destruct (spliceFrom (replicaCount v) (x :: l)) as [|first rest];
      [apply sends_throw|].
    apply sends_shareLoop. intros r share. apply H.
Qed.

Lemma sends_removeLoop P env :
  (forall nx r, P (RemoveChildNexus nx r)) ->
  forall oldUris newUris nx, sends P (removeLoop env oldUris newUris nx).
Proof.
  intros H. induction oldUris as [|uri rest IH]; intros newUris nx;
    cbn [removeLoop]; [apply sends_ret|].
  destruct (includes newUris uri); [apply IH|].
  apply sends_bind; [apply sends_getVol|]. intros v.
  destruct (findByUri v uri) as [replica|]; [|apply IH].
  apply sends_bind; [|intros; apply IH].
  apply sends_try_catch; [apply sends_Nexus_removeReplica, H|].
  intros; apply sends_ret.
Qed.

Lemma sends_addLoop P env :
  (forall nx r, P (AddChildNexus nx r)) ->
  forall newUris nx, sends P (addLoop env newUris nx).
Proof.
  intros H. induction newUris as [|uri rest IH]; intros nx;
    cbn [addLoop]; [apply sends_ret|].
  apply sends_bind; [apply sends_getVol|]. intros v.
  destruct (findByUri v uri) as [replica|]; [|apply IH].
  apply sends_bind; [|intros; apply IH].
  apply sends_try_catch; [apply sends_Nexus_addReplica, H|].
  intros; apply sends_throwError.
Qed.

Lemma sends_ensureNexus P env rs :
  (forall node id sz children, P (CreateNexus node id sz children)) ->
  (forall nx r, P (RemoveChildNexus nx r)) ->
  (forall nx r, P (AddChildNexus nx r)) ->
  sends P (_ensureNexus env rs).
Proof.
  intros Hc Hr Ha. unfold _ensureNexus.
  apply sends_bind; [apply sends_getVol|]. intros v.
  destruct (nexus v) as [nx|].
  - apply sends_bind; [now apply sends_removeLoop|]. intros [newUris nx'].
    apply sends_bind; [now apply sends_addLoop | intros; apply sends_ret].
  - destruct (find _ _) as [localReplica|]; [|apply sends_throwError].
    apply sends_bind; [apply sends_Node_createNexus, Hc|]. intros nx.
    apply sends_bind; [apply sends_getVol | intros; apply sends_putVol].
Qed.

Lemma sends_destroyAll P env :
  forall rs, (forall r, In r rs -> P (DestroyReplica r)) ->
             sends P (destroyAll env rs).
Proof.
  induction rs as [|r rest IH]; intros H; cbn [destroyAll];
    [apply sends_ret|].
  apply sends_bind; [|intros; apply IH; intros; apply H; now right].
  apply sends_try_catch; [|intros; apply sends_ret].
  apply sends_Replica_destroy, H. now left.
Qed.

Lemma wantedShare_not_iscsi (node : string) (r : Replica) (share : Share) :
  wantedShare node r = Some share -> share <> REPLICA_ISCSI.
Proof.
  unfold wantedShare.
  destruct (_ && _); [intros H; inversion H; discriminate|].
  destruct (_ && _); [intros H; inversion H; discriminate | discriminate].
Qed.

(** X22. [ensure] only adds to the requests sent, and whatever happens
    it never asks a storage node to share a replica over iSCSI: the
    protocols it sets are REPLICA_NONE and REPLICA_NVMF. *)
Theorem ensure_never_shares_over_iscsi :
  forall (env : Env) (s : St),
    exists extra,
      sent (snd (ensure env s)) = sent s ++ extra
      /\ Forall notIscsi extra
      /\ forall r share, In (ShareReplica r share) extra ->
                         share = REPLICA_NONE \/ share = REPLICA_NVMF.
Proof.
  intros env s.
  assert (Hs : sends notIscsi (ensure env)).
  { unfold ensure.
    apply sends_bind; [apply sends_getVol|]. intros v.
    apply sends_bind.
    { destruct (0 <? _); [|apply sends_ret].
      apply sends_createReplicas. intros; exact I. }
    intros _. apply sends_bind.
    { apply sends_ensureReplicaShareProtocols. intros node r share H.
      apply wantedShare_not_iscsi in H. destruct share; simpl; auto. }
    intros rs. apply sends_bind.
    { apply sends_ensureNexus; intros; exact I. }
    intros _. apply sends_bind; [apply sends_getVol|]. intros v'.
    destruct (nexus v') as [nx|]; [|apply sends_throw].
    apply sends_destroyAll. intros; exact I. }
  destruct (Hs s) as [extra [H F]]. exists extra.
  split; [exact H|]. split; [exact F|].
  intros r share Hin. rewrite Forall_forall in F. specialize (F _ Hin).
  destruct share; simpl in F; tauto.
Qed.

Lemma ensureNexus_unfold (env : Env) (rs : list Replica) (s : St) :
  _ensureNexus env rs s
  = match nexus (vol s) with
    | Some nx =>
        bind (removeLoop env
                (Registry.sort String.compare (map ch_uri (n_children nx)))
                (Registry.sort String.compare (map r_uri rs)) nx)
             (fun res => bind (addLoop env (fst res) (snd res))
                              (fun _ => ret tt)) s
    | None =>
        match find (fun r => Share_eqb (r_share r) REPLICA_NONE)
                   (values (replicas (vol s))) with
        | Some localReplica =>
            bind (Node_createNexus env (r_node localReplica) (uuid (vol s))
                                   (size (vol s)) rs)
                 (fun nx => bind getVol
                                 (fun v' => putVol (set_nexus v' (Some nx)))) s
        | None =>
            (throwGrpc INTERNAL
               "Cannot create nexus if none of the replicas is local", s)
        end
    end.
Proof.
  unfold _ensureNexus. unfold bind at 1, getVol.
  destruct (nexus (vol s)) as [nx|].
  - unfold bind.
    destruct (removeLoop env _ _ nx s) as [[[uris nx']|e] s1]; reflexivity.
  - destruct (find _ _); reflexivity.
Qed.

(** X23. With a nexus in place, [_ensureNexus] never creates a nexus: it
    sends the removals of children first and the additions after them,
    and nothing else. Without one, it sends a single CreateNexus, for the
    node of the first replica whose share is REPLICA_NONE and with the
    given replicas as children, or nothing at all when no replica is
    local. *)
Theorem ensureNexus_removes_then_adds :
  forall (env : Env) (rs : list Replica) (s : St),
    match nexus (vol s) with
    | Some nx =>
        exists removed added,
          sent (snd (_ensureNexus env rs s)) = sent s ++ removed ++ added
          /\ Forall isRemoveChild removed
          /\ Forall isAddChild added
    | None =>
        match find (fun r => Share_eqb (r_share r) REPLICA_NONE)
                   (values (replicas (vol s))) with
        | Some localReplica =>
            sent (snd (_ensureNexus env rs s))
            = sent s ++ [CreateNexus (r_node localReplica) (uuid (vol s))
                                     (size (vol s)) rs]
        | None =>
            _ensureNexus env rs s
            = (throwGrpc INTERNAL
                 "Cannot create nexus if none of the replicas is local", s)
        end
    end.
Proof.
  intros env rs s. rewrite ensureNexus_unfold.
  destruct (nexus (vol s)) as [nx|].
  - set (oldUris := Registry.sort String.compare (map ch_uri (n_children nx))).
    set (newUris := Registry.sort String.compare (map r_uri rs)).
    destruct (sends_removeLoop isRemoveChild env (fun _ _ => I)
                               oldUris newUris nx s) as [removed [H1 F1]].
    unfold bind at 1.
    destruct (removeLoop env oldUris newUris nx s) as [[[uris nx']|e] s1];
      simpl in H1.
    + destruct (sends_addLoop isAddChild env (fun _ _ => I) uris nx' s1)
        as [added [H2 F2]].
      exists removed, added. unfold bind, ret. cbn [fst snd].
      destruct (addLoop env uris nx' s1) as [[nx2|e] s2]; simpl in *;
        rewrite H2, H1, app_assoc; auto.
    + exists removed, []. simpl. rewrite app_nil_r. auto.
  - destruct (find _ _) as [localReplica|]; [|reflexivity].
    unfold Node_createNexus, bind, call, deliver, ret, getVol, putVol.
    destruct (createNexus_reply env _ _ _ _ _) as [reply|e];
      [|reflexivity].
    cbn [vol sent].
    destruct (newNexus _ _); reflexivity.
Qed.

(** The four steps of [ensure], each on the state the one before left. *)
Lemma ensure_unfold (env : Env) (s : St) :
  ensure env s
  = match (if 0 <? replicaCount (vol s)
                   - Z.of_nat (List.length (replicas (vol s)))
           then _createReplicas
                  env (replicaCount (vol s)
                       - Z.of_nat (List.length (replicas (vol s))))
           else ret tt) s with
    | (Err e, s1) => (Err e, s1)
    | (Ok _, s1) =>
        match _ensureReplicaShareProtocols env s1 with
        | (Err e, s2) => (Err e, s2)
        | (Ok rs, s2) =>
            match _ensureNexus env rs s2 with
            | (Err e, s3) => (Err e, s3)
            | (Ok _, s3) =>
                match nexus (vol s3) with
                | None => (Err (TypeError "children" "null"), s3)
                | Some nx =>
                    destroyAll env
                      (filter (fun r => negb (includes
                                                (map ch_uri (n_children nx))
                                                (r_uri r)))
                              (values (replicas (vol s3)))) s3
                end
            end
        end
    end.
Proof.
  unfold ensure. unfold bind at 1, getVol. cbv beta iota.
  unfold bind at 1.
  match goal with
  | |- context [(if ?b then ?m1 else ?m2) s] =>
      destruct ((if b then m1 else m2) s) as [[[]|e] s1]; [|reflexivity]
  end.
  unfold bind at 1.
  destruct (_ensureReplicaShareProtocols env s1) as [[rs|e] s2];
    [|reflexivity].
  unfold bind at 1.
  destruct (_ensureNexus env rs s2) as [[[]|e] s3]; [|reflexivity].
  unfold bind at 1, getVol. cbv beta iota.
  destruct (nexus (vol s3)); reflexivity.
Qed.

(** X24. [ensure] destroys only replicas that the nexus does not use: it
    sends DestroyReplica only after the nexus step has succeeded, and
    only for a replica whose uri is not among the children of the nexus,
    which is the nexus the volume has when [ensure] ends. *)
Theorem ensure_destroys_only_unused_replicas :
  forall (env : Env) (s : St) (extra : list Request) (r : Replica),
    sent (snd (ensure env s)) = sent s ++ extra ->
    In (DestroyReplica r) extra ->
    exists nx,
      nexus (vol (snd (ensure env s))) = Some nx
      /\ includes (map ch_uri (n_children nx)) (r_uri r) = false.
Proof.
  intros env s extra r Hextra Hin.
  assert (Hno : forall e, Forall notDestroy e -> ~ In (DestroyReplica r) e).
  { intros e F Hr. rewrite Forall_forall in F. exact (F _ Hr). }
  revert Hextra. rewrite ensure_unfold.
  set (missing := replicaCount (vol s)
                  - Z.of_nat (List.length (replicas (vol s)))).
  (* replenish *)
  assert (S1 : sends notDestroy
                 (if 0 <? missing then _createReplicas env missing
                  else ret tt)).
  { destruct (0 <? missing); [|apply sends_ret].
    apply sends_createReplicas. intros; exact I. }
  destruct (S1 s) as [e1 [H1 F1]].
  destruct ((if 0 <? missing then _createReplicas env missing else ret tt) s)
    as [[[]|err] s1]; simpl in H1.
  2:{ simpl. rewrite H1. intros H. apply app_inv_head in H. subst extra.
      exfalso. exact (Hno _ F1 Hin). }
  (* share protocols *)
  assert (S2 : sends notDestroy (_ensureReplicaShareProtocols env)).
  { apply sends_ensureReplicaShareProtocols. intros; exact I. }
  destruct (S2 s1) as [e2 [H2 F2]].
  destruct (_ensureReplicaShareProtocols env s1) as [[rs|err] s2];
    simpl in H2.
  2:{ simpl. rewrite H2, H1, <- app_assoc. intros H.
      apply app_inv_head in H. subst extra. exfalso.
      apply (Hno (e1 ++ e2)); [apply Forall_app; auto | exact Hin]. }
  (* nexus *)
  assert (S3 : sends notDestroy (_ensureNexus env rs)).
  { apply sends_ensureNexus; intros; exact I. }
  destruct (S3 s2) as [e3 [H3 F3]].
  destruct (_ensureNexus env rs s2) as [[[]|err] s3]; simpl in H3.
  2:{ simpl. rewrite H3, H2, H1, <- !app_assoc. intros H.
      apply app_inv_head in H. subst extra. exfalso.
      apply (Hno (e1 ++ e2 ++ e3)); [|exact Hin].
      repeat (apply Forall_app; split); auto. }
  (* trim *)
  destruct (nexus (vol s3)) as [nx|] eqn:Hnx.
  2:{ simpl. rewrite H3, H2, H1, <- !app_assoc. intros H.
      apply app_inv_head in H. subst extra. exfalso.
      apply (Hno (e1 ++ e2 ++ e3)); [|exact Hin].
      repeat (apply Forall_app; split); auto. }
  set (G := values (replicas (vol s3))).
  set (L := filter (fun r => negb (includes (map ch_uri (n_children nx))
                                            (r_uri r))) G).
  destruct (sends_destroyAll (destroysOneOf L) env L (fun r H => H) s3)
    as [e4 [H4 F4]].
  pose proof (EnsureProps.destroyAll_preserves env G (Some nx) L
                (fun r Hr => proj1 (proj1 (filter_In _ _ _) Hr)) s3) as Hpres.
  destruct Hpres as [Hnx4 _]; [split; [exact Hnx | auto]|].
  rewrite H4, H3, H2, H1, <- !app_assoc. intros H.
  apply app_inv_head in H. subst extra.
  exists nx. split; [exact Hnx4|].
  rewrite !in_app_iff in Hin.
  destruct Hin as [Hin|[Hin|[Hin|Hin]]];
    [exfalso; exact (Hno _ F1 Hin) | exfalso; exact (Hno _ F2 Hin)
    |exfalso; exact (Hno _ F3 Hin) |].
  rewrite Forall_forall in F4. specialize (F4 _ Hin). simpl in F4.
  unfold L in F4. apply filter_In in F4. destruct F4 as [_ F4].
  now apply negb_true_iff in F4.
Qed.

Lemma ensure_destroys_only_unused_replicas_witness :
  sent (snd (ensure (obliging twoNodes) (mkSt overfullVolume [])))
  = [] ++ [DestroyReplica (replicaOn "node2" REPLICA_NVMF "ONLINE")]
  /\ exists nx,
       nexus (vol (snd (ensure (obliging twoNodes) (mkSt overfullVolume []))))
       = Some nx
       /\ includes (map ch_uri (n_children nx))
                   (r_uri (replicaOn "node2" REPLICA_NVMF "ONLINE")) = false.
Proof.
  assert (H : sent (snd (ensure (obliging twoNodes) (mkSt overfullVolume [])))
              = [] ++ [DestroyReplica (replicaOn "node2" REPLICA_NVMF "ONLINE")])
    by (vm_compute; reflexivity).
  split; [exact H|].
  apply (ensure_destroys_only_unused_replicas
           (obliging twoNodes) (mkSt overfullVolume []) _ _ H).
  left. reflexivity.
Defined.

(** *** A volume that needs nothing *)

Lemma shareLoop_nothing_wanted (env : Env) (node : string) :
  forall (rs : list Replica) (s : St),
    Forall (fun r => wantedShare node r = None) rs ->
    shareLoop env node rs s = (Ok rs, s).
Proof.
  induction rs as [|r rest IH]; intros s H; cbn [shareLoop]; [reflexivity|].
  inversion H as [|? ? Hr Hrest]; subst. rewrite Hr.
  unfold bind, ret. rewrite (IH s Hrest). reflexivity.
Qed.

Lemma removeLoop_same (env : Env) (nx : Nexus) :
  forall (uris : list string) (s : St),
    removeLoop env uris uris nx s = (Ok ([], nx), s).
Proof.
  induction uris as [|uri rest IH]; intros s; cbn [removeLoop];
    [reflexivity|].
  unfold includes. cbn [existsb removeFirst].
  rewrite String.eqb_refl. cbn [orb]. apply IH.
Qed.

(** X25. [ensure] is a no-op on a volume that has converged: when the
    volume has a nexus and exactly [replicaCount] replicas, at least one,
    each with the share protocol its place asks for, and the children of
    the nexus are the replicas, [ensure] returns successfully, sends no
    request and leaves the volume as it is. *)
Theorem ensure_converged_is_noop :
  forall (env : Env) (s : St),
    converged (vol s) -> ensure env s = (Ok tt, s).
Proof.
  intros env s [nx [Hnx [Hne [Hlen [Hshare Hperm]]]]].
  pose proof (EnsureProps.sort_perm
                (fun a b => Z.compare (_scoreReplica (vol s) b)
                                      (_scoreReplica (vol s) a))
                (values (replicas (vol s)))) as Hsorted.
  fold (_prioritizeReplicas (vol s)) in Hsorted.
  unfold ensure. unfold bind at 1, getVol.
  destruct (Z.ltb_spec 0 (replicaCount (vol s)
                          - Z.of_nat (List.length (replicas (vol s)))));
    [lia|].
  unfold bind at 1, ret.
  (* share protocols *)
  assert (E2 : _ensureReplicaShareProtocols env s
               = (Ok (_prioritizeReplicas (vol s)), s)).
  { unfold _ensureReplicaShareProtocols. unfold bind, getVol.
    destruct (_prioritizeReplicas (vol s)) as [|x l] eqn:Hp.
    - apply Permutation_nil in Hsorted. unfold values in Hsorted.
      apply map_eq_nil in Hsorted. contradiction.
    - rewrite Hnx. rewrite EnsureProps.spliceFrom_all.
      + apply shareLoop_nothing_wanted.
        rewrite Forall_forall in *. intros r Hr. apply Hshare.
        eapply Permutation_in; eassumption.
      + apply Permutation_length in Hsorted. rewrite Hsorted.
        unfold values. rewrite length_map. lia. }
  unfold bind at 1. rewrite E2.
  (* nexus *)
  assert (E3 : _ensureNexus env (_prioritizeReplicas (vol s)) s = (Ok tt, s)).
  { rewrite ensureNexus_unfold, Hnx.
    rewrite (sort_strings_perm (map ch_uri (n_children nx))
                               (map r_uri (_prioritizeReplicas (vol s)))).
    - unfold bind. rewrite removeLoop_same. reflexivity.
    - rewrite Hperm. apply Permutation_map. now symmetry. }
  unfold bind at 1. rewrite E3.
  (* trim *)
  unfold bind, getVol. rewrite Hnx.
  replace (filter _ (values (replicas (vol s)))) with (@nil Replica);
    [reflexivity|].
  symmetry. apply CsiMoreProps.filter_none.
  intros r Hr. apply negb_false_iff. apply includes_In.
  eapply Permutation_in; [symmetry; exact Hperm|].
  now apply in_map.
Qed.

Lemma ensure_converged_is_noop_witness :
  converged iscsiVolume
  /\ ensure (obliging twoNodes) (mkSt iscsiVolume []) = (Ok tt, mkSt iscsiVolume []).
Proof.
  assert (H : converged iscsiVolume).
  { eexists. split; [reflexivity|]. split; [discriminate|].
    split; [simpl; lia|]. split; [repeat constructor|]. simpl. reflexivity. }
  split; [exact H|].
  exact (ensure_converged_is_noop (obliging twoNodes) (mkSt iscsiVolume []) H).
Defined.

(** *** The replicas chosen for the nexus *)

Lemma shareLoop_nodes (env : Env) (node : string) :
  forall (rs rs' : list Replica) (s s' : St),
    shareLoop env node rs s = (Ok rs', s') ->
    map r_node rs' = map r_node rs.
Proof.
  induction rs as [|r rest IH]; intros rs' s s'; cbn [shareLoop].
  - intros H. inversion H. reflexivity.
  - unfold bind at 1.
    destruct (match wantedShare node r with
              | Some share => _
              | None => ret r
              end s) as [[r1|e] s1] eqn:E1; [|discriminate].
    assert (Hr1 : r_node r1 = r_node r).
    { destruct (wantedShare node r) as [share|].
      - unfold try_catch, Replica_setShare, bind, call, mutate, deliver, ret,
          throwError, throw in E1.
        destruct (shareReplica_reply env _ r share) as [uri|e];
          [|discriminate].
        cbn [vol sent] in E1.
        destruct (modReplica _ _); inversion E1; reflexivity.
      - inversion E1. reflexivity. }
    unfold bind, ret.
    destruct (shareLoop env node rest s1) as [[rest'|e] s2] eqn:E2;
      [|discriminate].
    intros H. inversion H; subst. simpl. rewrite Hr1. f_equal.
    eapply IH; eassumption.
Qed.

Lemma length_spliceFrom {A} (n : Z) (l : list A) :
  0 <= n -> Z.of_nat (List.length (spliceFrom n l)) <= n.
Proof.
  intros Hn. unfold spliceFrom.
  destruct (Z.ltb_spec n 0); [lia|]. rewrite length_firstn. lia.
Qed.

(** X26. [_ensureReplicaShareProtocols] fails with INTERNAL, sending
    nothing, when the volume has no replica. When it succeeds it returns
    replicas on the nodes of the best-scored replicas of the volume, in
    the order of [_prioritizeReplicas] cut to [replicaCount] entries, so
    never more than [replicaCount] of them. *)
Theorem ensureReplicaShareProtocols_takes_best :
  forall (env : Env) (s : St),
    (replicas (vol s) = [] ->
     _ensureReplicaShareProtocols env s
     = (throwGrpc INTERNAL
          ("There are no replicas for volume " ++ quoted (uuid (vol s))), s))
    /\ (forall rs s',
           _ensureReplicaShareProtocols env s = (Ok rs, s') ->
           map r_node rs
           = map r_node (spliceFrom (replicaCount (vol s))
                                    (_prioritizeReplicas (vol s)))
           /\ (0 <= replicaCount (vol s) ->
               Z.of_nat (List.length rs) <= replicaCount (vol s))).
Proof.
  intros env s. unfold _ensureReplicaShareProtocols. unfold bind at 1 2, getVol.
  cbv beta iota. split.
  - intros Hnone. unfold _prioritizeReplicas. rewrite Hnone. reflexivity.
  - intros rs s' H.
    assert (Hnodes : map r_node rs
                     = map r_node (spliceFrom (replicaCount (vol s))
                                              (_prioritizeReplicas (vol s)))).
    { destruct (_prioritizeReplicas (vol s)) as [|x l]; [discriminate|].
      destruct (nexus (vol s)) as [nx|].
      - eapply shareLoop_nodes; eassumption.
      - destruct (spliceFrom (replicaCount (vol s)) (x :: l)) as [|first rest];
          [discriminate|].
        eapply shareLoop_nodes; eassumption. }
    split; [exact Hnodes|]. intros Hcount.
    apply (f_equal (@List.length string)) in Hnodes.
    rewrite !length_map in Hnodes. rewrite Hnodes.
    now apply length_spliceFrom.
Qed.

End VolumeMoreProps.
